(** * ipxbox: the DOSBox IPX-over-UDP server

    A shallow embedding of the two server programs of the repository and
    the properties of their packet paths:

    - [main]: the standalone server (package [main]): the 30-byte IPX
      header codec, address allocation, registration, unicast and
      broadcast forwarding, keepalive pings and the timeout sweep;
    - [server]: the server of package [server] (server.go), which binds
      every UDP peer to a node of a [network.Network] and sweeps its
      client table for keepalives and timeouts.

    Conventions. A Go [byte] is a [Z] in [0, 256) and a [uint16] a [Z] in
    [0, 65536); conversions and shifts write their wrap-around out. A
    [time.Time] is a [Z] (nanoseconds), a [time.Duration] as well. Pointers
    to [Client] objects are indices into a heap. The results of
    [time.Now()] and [rand.Intn] are read from oracles carried by the
    state; the order in which a [range] loop visits a map is a parameter. *)

From Stdlib Require Import ZArith Lia.
From stdpp Require Import gmap strings list fin_maps.

Local Open Scope Z_scope.

(** ** Go integer conversions and slices *)

(** [byte(x)] and [uint16(x)]: truncation to the low 8 / 16 bits. *)
Definition to_byte (x : Z) : Z := x mod 256.
Definition to_uint16 (x : Z) : Z := x mod 65536.

(** [b << n] where [b] has type [byte]: the result has type [byte] too. *)
Definition byte_shl (b : Z) (n : Z) : Z := to_byte (Z.shiftl b n).

(** [data[i]], for an index the caller has checked to be in range. *)
Definition idx (data : list Z) (i : nat) : Z := nth i data 0.

(** [data[lo:hi]]. *)
Definition slice (data : list Z) (lo hi : nat) : list Z :=
  take (hi - lo) (drop lo data).

(** The builtin [copy(dst, src)]: overwrites the first
    [min(len(dst), len(src))] elements of [dst]. *)
Fixpoint copy (dst src : list Z) : list Z :=
  match dst, src with
  | _ :: dst', s :: src' => s :: copy dst' src'
  | _, _ => dst
  end.

(** Writing through the sub-slice [data[lo:hi]] of [data]. *)
Definition with_slice (data : list Z) (lo hi : nat)
    (f : list Z → list Z) : list Z :=
  take lo data ++ f (slice data lo hi) ++ drop hi data.

(** [make([]byte, n)] and the zero value of [[n]byte]. *)
Definition zeros (n : nat) : list Z := replicate n 0.

(** * The standalone server (package main) *)

Module main.

(** [type IPXAddr [6]byte]. *)
Abbreviation IPXAddr := (list Z) (only parsing).

Record IPXHeaderAddr := {
  network : list Z;
  addr : IPXAddr;
  socket : Z;
}.

Record IPXHeader := {
  checksum : Z;
  length_ : Z;
  transControl : Z;
  packetType : Z;
  dest : IPXHeaderAddr;
  src : IPXHeaderAddr;
}.

(** Zero values of the two structs. *)
Definition IPXHeaderAddr_zero : IPXHeaderAddr :=
  {| network := zeros 4; addr := zeros 6; socket := 0 |}.

Definition IPXHeader_zero : IPXHeader :=
  {| checksum := 0; length_ := 0; transControl := 0; packetType := 0;
     dest := IPXHeaderAddr_zero; src := IPXHeaderAddr_zero |}.

Definition CLIENT_TIMEOUT : Z := 10 * 60 * 1000000000.
Definition CLIENT_KEEPALIVE : Z := 5 * 1000000000.

Definition ADDR_NULL : IPXAddr := [0x00; 0x00; 0x00; 0x00; 0x00; 0x00].
Definition ADDR_BROADCAST : IPXAddr := [0xff; 0xff; 0xff; 0xff; 0xff; 0xff].
Definition ADDR_PINGREPLY : IPXAddr := [0xff; 0xff; 0xff; 0xff; 0x00; 0x00].

(** ** The header codec *)

Definition IPXHeaderAddr_Decode (a : IPXHeaderAddr) (data : list Z)
    : IPXHeaderAddr :=
  {| network := copy (network a) (slice data 0 4);
     addr := copy (addr a) (slice data 4 10);
     socket := to_uint16 (Z.lor (byte_shl (idx data 10) 8) (idx data 11)) |}.

Definition IPXHeader_Decode (header : IPXHeader) (packet : list Z)
    : bool * IPXHeader :=
  if (length packet <? 30)%nat then (false, header)
  else
    (true,
     {| checksum := to_uint16 (Z.lor (byte_shl (idx packet 0) 8) (idx packet 1));
        length_ := to_uint16 (Z.lor (byte_shl (idx packet 2) 8) (idx packet 3));
        transControl := idx packet 4;
        packetType := idx packet 5;
        dest := IPXHeaderAddr_Decode (dest header) (slice packet 6 18);
        src := IPXHeaderAddr_Decode (src header) (slice packet 18 30) |}).

Definition IPXHeaderAddr_Encode (a : IPXHeaderAddr) (data : list Z)
    : list Z :=
  let data := with_slice data 0 4 (λ d, copy d (slice (network a) 0 4)) in
  let data := with_slice data 4 10 (λ d, copy d (addr a)) in
  let data := <[10%nat := to_byte (Z.shiftr (socket a) 8)]> data in
  <[11%nat := to_byte (Z.land (socket a) 0xff)]> data.

Definition IPXHeader_Encode (header : IPXHeader) : list Z :=
  let result := zeros 30 in
  let result := <[0%nat := to_byte (Z.shiftr (checksum header) 8)]> result in
  let result := <[1%nat := to_byte (Z.land (checksum header) 0xff)]> result in
  let result := <[2%nat := to_byte (Z.shiftr (length_ header) 8)]> result in
  let result := <[3%nat := to_byte (Z.land (length_ header) 0xff)]> result in
  let result := <[4%nat := transControl header]> result in
  let result := <[5%nat := packetType header]> result in
  let result := with_slice result 6 18 (IPXHeaderAddr_Encode (dest header)) in
  with_slice result 18 30 (IPXHeaderAddr_Encode (src header)).

Definition IsRegistrationPacket (header : IPXHeader) : bool :=
  bool_decide (socket (dest header) = 2)
  && bool_decide (addr (dest header) = ADDR_NULL).

Definition IsBroadcast (header : IPXHeader) : bool :=
  bool_decide (addr (dest header) = ADDR_BROADCAST).

(** A header value of the Go types: every field within its type's range. *)
Definition is_byte (b : Z) : Prop := 0 ≤ b < 256.
Definition is_uint16 (x : Z) : Prop := 0 ≤ x < 65536.

Record wf_addr (a : IPXHeaderAddr) : Prop := {
  wf_network_len : length (network a) = 4%nat;
  wf_network : Forall is_byte (network a);
  wf_addr_len : length (addr a) = 6%nat;
  wf_addr_bytes : Forall is_byte (addr a);
  wf_socket : is_uint16 (socket a);
}.

Record wf_header (h : IPXHeader) : Prop := {
  wf_checksum : is_uint16 (checksum h);
  wf_length : is_uint16 (length_ h);
  wf_transControl : is_byte (transControl h);
  wf_packetType : is_byte (packetType h);
  wf_dest : wf_addr (dest h);
  wf_src : wf_addr (src h);
}.

(** ** The server state *)

(** A UDP peer ([*net.UDPAddr]) is represented by its [String()] form, the
    key of the client table. *)
Abbreviation UDPAddr := string (only parsing).

Record Client := {
  udpAddr : UDPAddr;              (* addr *)
  ipxAddr : IPXAddr;
  lastReceiveTime : Z;
  lastSendTime : Z;
}.

(** The zero [time.Time]. *)
Definition Time_zero : Z := 0.

Definition Client_zero : Client :=
  {| udpAddr := ""; ipxAddr := zeros 6;
     lastReceiveTime := Time_zero; lastSendTime := Time_zero |}.

(** The server struct together with the world it runs in: the store of
    [Client] objects both maps point into, the datagrams written to the
    socket (oldest first), and the oracles answering [time.Now()] and
    [rand.Intn]. *)
Record IPXServer := {
  clients : gmap string nat;
  clientsByIPX : gmap (list Z) nat;
  timeoutCheckTime : Z;
  heap : list Client;
  sent : list (list Z * UDPAddr);
  clock : nat → Z;
  now_calls : nat;
  entropy : nat → Z;
  rand_calls : nat;
}.

Definition set_clients (f : gmap string nat → gmap string nat)
    (s : IPXServer) : IPXServer :=
  {| clients := f (clients s); clientsByIPX := clientsByIPX s;
     timeoutCheckTime := timeoutCheckTime s; heap := heap s; sent := sent s;
     clock := clock s; now_calls := now_calls s;
     entropy := entropy s; rand_calls := rand_calls s |}.

Definition set_clientsByIPX (f : gmap (list Z) nat → gmap (list Z) nat)
    (s : IPXServer) : IPXServer :=
  {| clients := clients s; clientsByIPX := f (clientsByIPX s);
     timeoutCheckTime := timeoutCheckTime s; heap := heap s; sent := sent s;
     clock := clock s; now_calls := now_calls s;
     entropy := entropy s; rand_calls := rand_calls s |}.

Definition set_timeoutCheckTime (t : Z) (s : IPXServer) : IPXServer :=
  {| clients := clients s; clientsByIPX := clientsByIPX s;
     timeoutCheckTime := t; heap := heap s; sent := sent s;
     clock := clock s; now_calls := now_calls s;
     entropy := entropy s; rand_calls := rand_calls s |}.

Definition set_heap (f : list Client → list Client)
    (s : IPXServer) : IPXServer :=
  {| clients := clients s; clientsByIPX := clientsByIPX s;
     timeoutCheckTime := timeoutCheckTime s; heap := f (heap s);
     sent := sent s;
     clock := clock s; now_calls := now_calls s;
     entropy := entropy s; rand_calls := rand_calls s |}.

(** [*p] for a client pointer [p]. *)
Definition deref (s : IPXServer) (p : nat) : Client :=
  default Client_zero (heap s !! p).

(** [p.lastSendTime = t] and [p.lastReceiveTime = t]. *)
Definition store_lastSendTime (p : nat) (t : Z) : IPXServer → IPXServer :=
  set_heap (alter (λ c, {| udpAddr := udpAddr c; ipxAddr := ipxAddr c;
                           lastReceiveTime := lastReceiveTime c;
                           lastSendTime := t |}) p).

Definition store_lastReceiveTime (p : nat) (t : Z) : IPXServer → IPXServer :=
  set_heap (alter (λ c, {| udpAddr := udpAddr c; ipxAddr := ipxAddr c;
                           lastReceiveTime := t;
                           lastSendTime := lastSendTime c |}) p).

(** [time.Now()]. *)
Definition time_Now (s : IPXServer) : Z * IPXServer :=
  (clock s (now_calls s),
   {| clients := clients s; clientsByIPX := clientsByIPX s;
      timeoutCheckTime := timeoutCheckTime s; heap := heap s; sent := sent s;
      clock := clock s; now_calls := S (now_calls s);
      entropy := entropy s; rand_calls := rand_calls s |}).

(** [rand.Intn(n)]: a number in the half-open interval [0, n). *)
Definition rand_Intn (n : Z) (s : IPXServer) : Z * IPXServer :=
  (entropy s (rand_calls s) mod n,
   {| clients := clients s; clientsByIPX := clientsByIPX s;
      timeoutCheckTime := timeoutCheckTime s; heap := heap s; sent := sent s;
      clock := clock s; now_calls := now_calls s;
      entropy := entropy s; rand_calls := S (rand_calls s) |}).

(** [server.socket.WriteToUDP(data, to)]; the code discards its results. *)
Definition WriteToUDP (data : list Z) (to : UDPAddr)
    (s : IPXServer) : IPXServer :=
  {| clients := clients s; clientsByIPX := clientsByIPX s;
     timeoutCheckTime := timeoutCheckTime s; heap := heap s;
     sent := sent s ++ [(data, to)];
     clock := clock s; now_calls := now_calls s;
     entropy := entropy s; rand_calls := rand_calls s |}.

(** ** Address allocation *)

(** The inner loop [for i := i; i < len(result); i++] of [NewAddress], with
    [n] iterations left. *)
Fixpoint NewAddress_fill (n i : nat) (result : IPXAddr) (s : IPXServer)
    : IPXAddr * IPXServer :=
  match n with
  | O => (result, s)
  | S n' =>
      let '(r, s) := rand_Intn 255 s in
      NewAddress_fill n' (S i) (<[i := to_byte r]> result) s
  end.

(** The outer [for] loop: at most [fuel] candidates are drawn. *)
Fixpoint NewAddress_loop (fuel : nat) (result : IPXAddr) (s : IPXServer)
    : option (IPXAddr * IPXServer) :=
  match fuel with
  | O => None
  | S fuel' =>
      let '(result, s) := NewAddress_fill (length result) 0 result s in
      match clientsByIPX s !! result with
      | None => Some (result, s)
      | Some _ => NewAddress_loop fuel' result s
      end
  end.

Definition NewAddress (fuel : nat) (s : IPXServer)
    : option (IPXAddr * IPXServer) :=
  NewAddress_loop fuel (zeros 6) s.

(** ** Registration *)

(** The reply header built by [NewClient] for a client whose address is
    [a]. *)
Definition NewClient_reply (a : IPXAddr) : IPXHeader :=
  {| checksum := 0xffff;
     length_ := 30;
     transControl := 0;
     packetType := 0;
     dest := {| network := copy (zeros 4) [0; 0; 0; 0];
                addr := copy (zeros 6) a;
                socket := 2 |};
     src := {| network := copy (zeros 4) [0; 0; 0; 1];
               addr := copy (zeros 6) ADDR_BROADCAST;
               socket := 2 |} |}.

Definition NewClient (fuel : nat) (header : IPXHeader) (peer : UDPAddr)
    (s : IPXServer) : option IPXServer :=
  let addrStr := peer in
  found ←
    match clients s !! addrStr with
    | Some client => Some (client, s)
    | None =>
        let '(now, s) := time_Now s in
        '(a, s) ← NewAddress fuel s;
        let client := length (heap s) in
        let s := set_heap (λ h, h ++ [{| udpAddr := peer; ipxAddr := a;
                                         lastReceiveTime := now;
                                         lastSendTime := Time_zero |}]) s in
        let s := set_clients <[addrStr := client]> s in
        let s := set_clientsByIPX <[ipxAddr (deref s client) := client]> s in
        Some (client, s)
    end;
  let '(client, s) := found in
  let reply := NewClient_reply (ipxAddr (deref s client)) in
  let '(t, s) := time_Now s in
  let s := store_lastSendTime client t s in
  Some (WriteToUDP (IPXHeader_Encode reply) (udpAddr (deref s client)) s).

(** ** Forwarding *)

Definition ForwardPacket (header : IPXHeader) (packet : list Z)
    (s : IPXServer) : IPXServer :=
  match clientsByIPX s !! addr (dest header) with
  | Some client =>
      let '(t, s) := time_Now s in
      let s := store_lastSendTime client t s in
      WriteToUDP packet (udpAddr (deref s client)) s
  | None => s
  end.

Section range.

(** The order in which [for ... := range server.clients] visits the
    entries of the map. *)
Variable range : gmap string nat → list (string * nat).

(** A [range] loop over [server.clients]: the entries present when the
    loop starts are visited in the order [range] gives; an entry deleted
    before it is reached is not produced. *)
Definition for_range (body : string → nat → IPXServer → IPXServer)
    (s : IPXServer) : IPXServer :=
  foldl (λ s kp, match clients s !! kp.1 with
                 | Some client => body kp.1 client s
                 | None => s
                 end) s (range (clients s)).

Definition ForwardBroadcastPacket (header : IPXHeader) (packet : list Z)
    : IPXServer → IPXServer :=
  for_range (λ _ client s,
    if bool_decide (ipxAddr (deref s client) ≠ addr (src header)) then
      let '(t, s) := time_Now s in
      let s := store_lastSendTime client t s in
      WriteToUDP packet (udpAddr (deref s client)) s
    else s).

Definition ProcessPacket (fuel : nat) (packet : list Z) (peer : UDPAddr)
    (s : IPXServer) : option IPXServer :=
  let '(ok, header) := IPXHeader_Decode IPXHeader_zero packet in
  if negb ok then Some s
  else if IsRegistrationPacket header then NewClient fuel header peer s
  else
    match clients s !! peer with
    | None => Some s
    | Some srcClient =>
        if bool_decide (addr (src header) ≠ ipxAddr (deref s srcClient))
        then Some s
        else
          let '(t, s) := time_Now s in
          let s := store_lastReceiveTime srcClient t s in
          if IsBroadcast header
          then Some (ForwardBroadcastPacket header packet s)
          else Some (ForwardPacket header packet s)
    end.

(** ** Keepalives and timeouts *)

Definition SendPing_header : IPXHeader :=
  {| checksum := 0; length_ := 0; transControl := 0; packetType := 0;
     dest := {| network := zeros 4; addr := ADDR_BROADCAST; socket := 2 |};
     src := {| network := zeros 4; addr := ADDR_PINGREPLY; socket := 0 |} |}.

Definition SendPing (client : nat) (s : IPXServer) : IPXServer :=
  let header := SendPing_header in
  let '(t, s) := time_Now s in
  let s := store_lastSendTime client t s in
  WriteToUDP (IPXHeader_Encode header) (udpAddr (deref s client)) s.

(** [now.After(t)]. *)
Definition After (now t : Z) : bool := bool_decide (t < now).

Definition CheckClientTimeouts_body (now : Z) (client : nat)
    (s : IPXServer) : IPXServer :=
  let s :=
    if After now (lastSendTime (deref s client) + CLIENT_KEEPALIVE)
    then SendPing client s else s in
  if After now (lastReceiveTime (deref s client) + CLIENT_TIMEOUT) then
    let s := set_clients (delete (udpAddr (deref s client))) s in
    set_clientsByIPX (delete (ipxAddr (deref s client))) s
  else s.

Definition CheckClientTimeouts (s : IPXServer) : IPXServer :=
  let '(now, s) := time_Now s in
  for_range (λ _ client, CheckClientTimeouts_body now client) s.

(** ** The receive loop *)

(** What [ReadFromUDP] returns: a datagram and its sender, a timeout of the
    read deadline, another [net.Error], or an error of another kind. *)
Inductive ReadResult :=
  | ReadOk (datagram : list Z) (peer : UDPAddr)
  | ReadTimeout
  | ReadNetError
  | ReadOtherError.

Definition Poll (fuel : nat) (r : ReadResult) (s : IPXServer)
    : option (bool * IPXServer) :=
  step ←
    match r with
    | ReadOk datagram peer =>
        s ← ProcessPacket fuel (take 1500 datagram) peer s; Some (true, s)
    | ReadNetError => Some (false, s)
    | ReadTimeout | ReadOtherError => Some (true, s)
    end;
  let '(continue, s) := step in
  if negb continue then Some (false, s)
  else
    let '(t, s) := time_Now s in
    if After t (timeoutCheckTime s) then
      let s := CheckClientTimeouts s in
      Some (true, set_timeoutCheckTime (timeoutCheckTime s + 10000000000) s)
    else Some (true, s).

End range.

(** The state [Listen] leaves behind when it succeeds, in a world with the
    given oracles. *)
Definition Listen (clk : nat → Z) (rnd : nat → Z) : IPXServer :=
  {| clients := ∅; clientsByIPX := ∅;
     timeoutCheckTime := clk O + 10000000000;
     heap := []; sent := [];
     clock := clk; now_calls := 1%nat;
     entropy := rnd; rand_calls := O |}.

(** The states the server goes through: [main] calls [Listen] and then
    [Poll] for as long as it returns true. Each [Poll] may visit the client
    table in an order of its own. *)
Inductive reachable : IPXServer → Prop :=
  | reachable_Listen clk rnd : reachable (Listen clk rnd)
  | reachable_Poll range fuel r s s' :
      (∀ m, range m ≡ₚ map_to_list m) →
      reachable s →
      Poll range fuel r s = Some (true, s') →
      reachable s'.

End main.

(** * The ipx package, as far as server.go uses it *)

Module ipx.

(** Modelled from the spec: the types [ipx.HeaderAddr] and [ipx.Header],
    the constants [ipx.AddrNull] and [ipx.AddrBroadcast] and the method
    [IsRegistrationPacket] of package ipx, which server.go imports and
    whose source is not part of the code at hand. The header has the fields
    of the 30-byte IPX header; a registration packet is one whose
    destination socket is 2 and whose destination node is the all-zero
    address. *)
Record HeaderAddr := {
  Network : list Z;
  Addr : list Z;
  Socket : Z;
}.

Record Header := {
  Checksum : Z;
  Length : Z;
  TransControl : Z;
  PacketType : Z;
  Dest : HeaderAddr;
  Src : HeaderAddr;
}.

Definition AddrNull : list Z := [0x00; 0x00; 0x00; 0x00; 0x00; 0x00].
Definition AddrBroadcast : list Z := [0xff; 0xff; 0xff; 0xff; 0xff; 0xff].

Definition HeaderAddr_zero : HeaderAddr :=
  {| Network := zeros 4; Addr := zeros 6; Socket := 0 |}.

Definition IsRegistrationPacket (h : Header) : bool :=
  bool_decide (Socket (Dest h) = 2) && bool_decide (Addr (Dest h) = AddrNull).

End ipx.

(** * The server of package server (server.go) *)

Module server.

Record Config := {
  ClientTimeout : Z;
  KeepaliveTime : Z;
}.

Definition DefaultConfig : Config :=
  {| ClientTimeout := 10 * 60 * 1000000000;
     KeepaliveTime := 5 * 1000000000 |}.

Definition addrPingReply : list Z := [0x02; 0xff; 0xff; 0xff; 0x00; 0x00].

(** Modelled from the spec: package network, whose interfaces
    [network.Network] and [network.Node] server.go uses, is not part of the
    code at hand. A [network.Node] value is a handle on a node object of
    the network; [Network.NewNode()] hands out a node (an oracle of the
    state below), [Node.Address()] is constant for a node (a parameter of
    the functions below), and the calls [Node.Write] and [Node.Close] of
    the server are recorded as effects. *)
Definition Node := nat.

Record client := {
  addr : string;                  (* *net.UDPAddr, by its String() form *)
  node : Node;
  lastReceiveTime : Z;
  lastSendTime : Z;
}.

Definition client_zero : client :=
  {| addr := ""; node := O; lastReceiveTime := 0; lastSendTime := 0 |}.

(** What the receive loop does to the outside: datagrams written to the
    socket, read deadlines set on it, packets written into nodes, nodes
    closed, and the [runClient] goroutines it starts. *)
Inductive effect :=
  | WriteToUDP (data : list Z) (to : string)
  | SetReadDeadline (t : Z)
  | NodeWrite (n : Node) (packet : list Z)
  | NodeClose (n : Node)
  | GoRunClient (c : nat).

(** The server struct and its world: the store of client objects, the
    effects so far (oldest first), the oracle answering [time.Now()], and
    the nodes the network hands out on [NewNode()]. *)
Record Server := {
  config : Config;
  clients : gmap string nat;
  timeoutCheckTime : Z;
  heap : list client;
  trace : list effect;
  clock : nat → Z;
  now_calls : nat;
  net : nat → Node;
  nodes_made : nat;
}.

Definition set_clients (f : gmap string nat → gmap string nat)
    (s : Server) : Server :=
  {| config := config s; clients := f (clients s);
     timeoutCheckTime := timeoutCheckTime s; heap := heap s;
     trace := trace s; clock := clock s; now_calls := now_calls s;
     net := net s; nodes_made := nodes_made s |}.

Definition set_timeoutCheckTime (t : Z) (s : Server) : Server :=
  {| config := config s; clients := clients s;
     timeoutCheckTime := t; heap := heap s;
     trace := trace s; clock := clock s; now_calls := now_calls s;
     net := net s; nodes_made := nodes_made s |}.

Definition set_heap (f : list client → list client) (s : Server) : Server :=
  {| config := config s; clients := clients s;
     timeoutCheckTime := timeoutCheckTime s; heap := f (heap s);
     trace := trace s; clock := clock s; now_calls := now_calls s;
     net := net s; nodes_made := nodes_made s |}.

Definition emit (e : effect) (s : Server) : Server :=
  {| config := config s; clients := clients s;
     timeoutCheckTime := timeoutCheckTime s; heap := heap s;
     trace := trace s ++ [e]; clock := clock s; now_calls := now_calls s;
     net := net s; nodes_made := nodes_made s |}.

Definition time_Now (s : Server) : Z * Server :=
  (clock s (now_calls s),
   {| config := config s; clients := clients s;
      timeoutCheckTime := timeoutCheckTime s; heap := heap s;
      trace := trace s; clock := clock s; now_calls := S (now_calls s);
      net := net s; nodes_made := nodes_made s |}).

(** [s.net.NewNode()]. *)
Definition NewNode (s : Server) : Node * Server :=
  (net s (nodes_made s),
   {| config := config s; clients := clients s;
      timeoutCheckTime := timeoutCheckTime s; heap := heap s;
      trace := trace s; clock := clock s; now_calls := now_calls s;
      net := net s; nodes_made := S (nodes_made s) |}).

Definition deref (s : Server) (c : nat) : client :=
  default client_zero (heap s !! c).

Definition store_lastSendTime (c : nat) (t : Z) : Server → Server :=
  set_heap (alter (λ x, {| addr := addr x; node := node x;
                           lastReceiveTime := lastReceiveTime x;
                           lastSendTime := t |}) c).

Definition store_lastReceiveTime (c : nat) (t : Z) : Server → Server :=
  set_heap (alter (λ x, {| addr := addr x; node := node x;
                           lastReceiveTime := t;
                           lastSendTime := lastSendTime x |}) c).

(** [t.After(u)] and [t.Before(u)]. *)
Definition After (t u : Z) : bool := bool_decide (u < t).
Definition Before (t u : Z) : bool := bool_decide (t < u).

Section server.

(** [Node.Address()], constant for a node. *)
Variable Address : Node → list Z.

(** The codec of package ipx: [Header.UnmarshalBinary] (None when it
    returns an error) and [Header.MarshalBinary] (likewise). *)
Variable UnmarshalBinary : list Z → option ipx.Header.
Variable MarshalBinary : ipx.Header → option (list Z).

(** The order in which [for ... := range s.clients] visits the map. *)
Variable range : gmap string nat → list (string * nat).

Definition newClient_reply (a : list Z) : ipx.Header :=
  {| ipx.Checksum := 0xffff;
     ipx.Length := 30;
     ipx.TransControl := 0;
     ipx.PacketType := 0;
     ipx.Dest := {| ipx.Network := [0; 0; 0; 0];
                    ipx.Addr := a;
                    ipx.Socket := 2 |};
     ipx.Src := {| ipx.Network := [0; 0; 0; 1];
                   ipx.Addr := ipx.AddrBroadcast;
                   ipx.Socket := 2 |} |}.

Definition newClient (header : ipx.Header) (peer : string)
    (s : Server) : Server :=
  let addrStr := peer in
  let '(c, s) :=
    match clients s !! addrStr with
    | Some c => (c, s)
    | None =>
        let '(now, s) := time_Now s in
        let '(n, s) := NewNode s in
        let c := length (heap s) in
        let s := set_heap (λ h, h ++ [{| addr := peer; node := n;
                                         lastReceiveTime := now;
                                         lastSendTime := 0 |}]) s in
        let s := set_clients <[addrStr := c]> s in
        (c, emit (GoRunClient c) s)
    end in
  let reply := newClient_reply (Address (node (deref s c))) in
  let '(t, s) := time_Now s in
  let s := store_lastSendTime c t s in
  match MarshalBinary reply with
  | Some encodedReply => emit (WriteToUDP encodedReply (addr (deref s c))) s
  | None => s
  end.

Definition processPacket (packet : list Z) (peer : string)
    (s : Server) : Server :=
  match UnmarshalBinary packet with
  | None => s
  | Some header =>
      if ipx.IsRegistrationPacket header then newClient header peer s
      else
        match clients s !! peer with
        | None => s
        | Some srcClient =>
            if bool_decide (ipx.Addr (ipx.Src header)
                            ≠ Address (node (deref s srcClient)))
            then s
            else
              let '(t, s) := time_Now s in
              let s := store_lastReceiveTime srcClient t s in
              emit (NodeWrite (node (deref s srcClient)) packet) s
        end
  end.

Definition sendPing_header : ipx.Header :=
  {| ipx.Checksum := 0; ipx.Length := 0;
     ipx.TransControl := 0; ipx.PacketType := 0;
     ipx.Dest := {| ipx.Network := zeros 4;
                    ipx.Addr := ipx.AddrBroadcast;
                    ipx.Socket := 2 |};
     ipx.Src := {| ipx.Network := zeros 4;
                   ipx.Addr := addrPingReply;
                   ipx.Socket := 0 |} |}.

Definition sendPing (c : nat) (s : Server) : Server :=
  let header := sendPing_header in
  let '(t, s) := time_Now s in
  let s := store_lastSendTime c t s in
  match MarshalBinary header with
  | Some encodedHeader => emit (WriteToUDP encodedHeader (addr (deref s c))) s
  | None => s
  end.

(** The body of the loop of [checkClientTimeouts], for the client [c]. *)
Definition checkClientTimeouts_body (now : Z) (c : nat)
    (st : Z * Server) : Z * Server :=
  let '(nextCheckTime, s) := st in
  let keepaliveTime := lastSendTime (deref s c) + KeepaliveTime (config s) in
  let '(keepaliveTime, s) :=
    if After now keepaliveTime then
      let s := sendPing c s in
      (lastSendTime (deref s c) + KeepaliveTime (config s), s)
    else (keepaliveTime, s) in
  let timeoutTime := lastReceiveTime (deref s c) + ClientTimeout (config s) in
  let s :=
    if After now timeoutTime then
      let s := set_clients (delete (addr (deref s c))) s in
      emit (NodeClose (node (deref s c))) s
    else s in
  let nextCheckTime :=
    if Before keepaliveTime nextCheckTime then keepaliveTime
    else nextCheckTime in
  let nextCheckTime :=
    if Before timeoutTime nextCheckTime then timeoutTime
    else nextCheckTime in
  (nextCheckTime, s).

(** The [range] loop: the entries present at its start, in the order
    [range] gives, without those deleted before they are reached. *)
Definition checkClientTimeouts_loop (now : Z) (st : Z * Server)
    (order : list (string * nat)) : Z * Server :=
  foldl (λ st kp, match clients st.2 !! kp.1 with
                  | Some c => checkClientTimeouts_body now c st
                  | None => st
                  end) st order.

Definition checkClientTimeouts (s : Server) : Z * Server :=
  let '(now, s) := time_Now s in
  let nextCheckTime := now + 10 * 1000000000 in
  checkClientTimeouts_loop now (nextCheckTime, s) (range (clients s)).

(** What [ReadFromUDP] returns: a datagram and its sender, a timeout of the
    read deadline, another [net.Error], or an error of another kind. *)
Inductive ReadResult :=
  | ReadOk (datagram : list Z) (peer : string)
  | ReadTimeout
  | ReadNetError
  | ReadOtherError.

(** [poll]: the boolean tells whether it returned a nil error. *)
Definition poll (r : ReadResult) (s : Server) : bool * Server :=
  let s := emit (SetReadDeadline (timeoutCheckTime s)) s in
  let '(ok, s) :=
    match r with
    | ReadOk datagram peer => (true, processPacket (take 1500 datagram) peer s)
    | ReadNetError => (false, s)
    | ReadTimeout | ReadOtherError => (true, s)
    end in
  if negb ok then (false, s)
  else
    let '(t, s) := time_Now s in
    if After t (timeoutCheckTime s) then
      let '(next, s) := checkClientTimeouts s in
      (true, set_timeoutCheckTime next s)
    else (true, s).

End server.

(** The server [New] returns when it succeeds. *)
Definition New (c : Config) (clk : nat → Z) (nodes : nat → Node) : Server :=
  {| config := c; clients := ∅;
     timeoutCheckTime := clk O + 10000000000;
     heap := []; trace := [];
     clock := clk; now_calls := 1%nat;
     net := nodes; nodes_made := O |}.

End server.

(** * Properties *)

(** ** Slices and integer conversions *)

Lemma copy_length dst src : length (copy dst src) = length dst.
Proof.
  revert src; induction dst as [|d dst IH]; intros [|s src]; simpl; auto.
Qed.

Lemma copy_exact dst src : length dst = length src → copy dst src = src.
Proof.
  revert src; induction dst as [|d dst IH]; intros [|s src]; simpl;
    intros Hlen; try discriminate; auto.
  f_equal. apply IH. congruence.
Qed.

Lemma to_byte_small x : 0 ≤ x < 256 → to_byte x = x.
Proof. intros. unfold to_byte. apply Z.mod_small. lia. Qed.

(** Shifting a [byte] left by 8 leaves nothing of it. *)
Lemma byte_shl_8 b : byte_shl b 8 = 0.
Proof.
  unfold byte_shl, to_byte. rewrite Z.shiftl_mul_pow2 by lia.
  change (2 ^ 8) with 256. apply Z_mod_mult.
Qed.

Lemma to_byte_land_ff x : to_byte (Z.land x 0xff) = x mod 256.
Proof.
  change 0xff with (Z.ones 8). rewrite Z.land_ones by lia.
  unfold to_byte. change (2 ^ 8) with 256. apply Z.mod_mod. lia.
Qed.

(** What the decoder makes of two bytes [hi], [lo] of a 16-bit field: the
    high byte is lost. *)
Lemma decode_uint16 hi lo :
  0 ≤ lo < 256 → to_uint16 (Z.lor (byte_shl hi 8) lo) = lo.
Proof.
  intros. rewrite byte_shl_8, Z.lor_0_l. unfold to_uint16.
  apply Z.mod_small. lia.
Qed.

Module main_spec.
Import main.

(** ** The header codec *)

Lemma with_slice_length data lo hi f :
  (lo ≤ hi ≤ length data)%nat →
  (∀ d, length (f d) = length d) →
  length (with_slice data lo hi f) = length data.
Proof.
  intros Hb Hf. unfold with_slice.
  rewrite !length_app, Hf. unfold slice.
  rewrite !length_take, !length_drop. lia.
Qed.

Lemma IPXHeaderAddr_Encode_length a data :
  (10 ≤ length data)%nat →
  length (IPXHeaderAddr_Encode a data) = length data.
Proof.
  intros Hlen. unfold IPXHeaderAddr_Encode.
  rewrite !length_insert.
  rewrite with_slice_length; [| |intros; apply copy_length].
  - apply with_slice_length; [lia|intros; apply copy_length].
  - rewrite with_slice_length; [lia|lia|intros; apply copy_length].
Qed.

Lemma Encode_length h : length (IPXHeader_Encode h) = 30%nat.
Proof.
  unfold IPXHeader_Encode.
  assert (Hslice : ∀ data lo hi, (lo + 12 = hi)%nat →
            (hi ≤ length data)%nat → length (slice data lo hi) = 12%nat).
  { intros data lo hi ? ?. unfold slice.
    rewrite length_take, length_drop. lia. }
  assert (H6 : ∀ data a lo hi, (lo + 12 = hi)%nat →
            (hi ≤ length data)%nat →
            length (with_slice data lo hi (IPXHeaderAddr_Encode a))
            = length data).
  { intros data a lo hi ? ?. unfold with_slice.
    rewrite !length_app, IPXHeaderAddr_Encode_length
      by (rewrite Hslice by done; lia).
    rewrite Hslice by done. rewrite length_take, length_drop. lia. }
  rewrite H6; [|reflexivity|].
  - rewrite H6; [|reflexivity|]; rewrite !length_insert; unfold zeros;
      rewrite length_replicate; lia.
  - rewrite H6; [|reflexivity|]; rewrite !length_insert; unfold zeros;
      rewrite length_replicate; lia.
Qed.

(** The header a decoder gets back from an encoded header: every 16-bit
    field reduced to its low byte. *)
Definition low_bytes_addr (a : IPXHeaderAddr) : IPXHeaderAddr :=
  {| network := network a; addr := addr a; socket := socket a mod 256 |}.

Definition low_bytes (h : IPXHeader) : IPXHeader :=
  {| checksum := checksum h mod 256;
     length_ := length_ h mod 256;
     transControl := transControl h;
     packetType := packetType h;
     dest := low_bytes_addr (dest h);
     src := low_bytes_addr (src h) |}.

Ltac list_of_length l :=
  repeat match goal with
         | H : length l = _ |- _ =>
             destruct l; simpl in H; try discriminate H;
             try (apply Nat.succ_inj in H)
         end.

Lemma Decode_Encode h :
  wf_header h →
  IPXHeader_Decode IPXHeader_zero (IPXHeader_Encode h) = (true, low_bytes h).
Proof.
  intros [Hc Hl Ht Hp [Hdn _ Hda _ Hds] [Hsn _ Hsa _ Hss]].
  destruct h as [c l t p [dn da ds] [sn sa ss]]; simpl in *.
  do 5 (destruct dn as [|? dn]; try discriminate Hdn).
  do 7 (destruct da as [|? da]; try discriminate Hda).
  do 5 (destruct sn as [|? sn]; try discriminate Hsn).
  do 7 (destruct sa as [|? sa]; try discriminate Hsa).
  unfold IPXHeader_Decode, IPXHeader_Encode, with_slice, IPXHeaderAddr_Encode,
    with_slice, IPXHeaderAddr_Decode, low_bytes, low_bytes_addr. simpl.
  unfold idx; simpl.
  rewrite !to_byte_land_ff.
  rewrite !decode_uint16 by (apply Z.mod_pos_bound; lia).
  reflexivity.
Qed.

(** Headers whose 16-bit fields fit a byte do make the round trip. *)
Lemma Decode_Encode_small h :
  wf_header h →
  checksum h < 256 → length_ h < 256 →
  socket (dest h) < 256 → socket (src h) < 256 →
  IPXHeader_Decode IPXHeader_zero (IPXHeader_Encode h) = (true, h).
Proof.
  intros Hwf Hc Hl Hd Hs. rewrite Decode_Encode by done.
  destruct Hwf as [[] [] _ _ [_ _ _ _ []] [_ _ _ _ []]].
  destruct h as [c l t p [dn da ds] [sn sa ss]]; simpl in *.
  unfold low_bytes, low_bytes_addr; simpl.
  rewrite !Z.mod_small by lia. reflexivity.
Qed.

(** The registration ack for the address 01:02:03:04:05:06, a header the
    server itself puts on the wire. *)
Definition ack_010203040506 : IPXHeader :=
  NewClient_reply [0x01; 0x02; 0x03; 0x04; 0x05; 0x06].

(** C5: the codec does not round-trip. The ack header for the address
    01:02:03:04:05:06 is a well-formed header value with checksum 0xFFFF;
    it encodes to 30 bytes starting FF FF, and decoding those bytes
    succeeds but yields a header whose checksum is 0x00FF: the decoder
    shifts a [byte] left by 8 bits, which leaves zero, so the high byte of
    every 16-bit field is lost. *)
Theorem C5_codec_roundtrip_fails :
  wf_header ack_010203040506 ∧
  IPXHeader_Encode ack_010203040506 =
    [0xff; 0xff; 0x00; 0x1e; 0x00; 0x00;
     0x00; 0x00; 0x00; 0x00; 0x01; 0x02; 0x03; 0x04; 0x05; 0x06; 0x00; 0x02;
     0x00; 0x00; 0x00; 0x01; 0xff; 0xff; 0xff; 0xff; 0xff; 0xff; 0x00; 0x02] ∧
  (∃ h', IPXHeader_Decode IPXHeader_zero (IPXHeader_Encode ack_010203040506)
           = (true, h') ∧
         checksum h' = 0x00ff ∧ checksum ack_010203040506 = 0xffff ∧
         h' ≠ ack_010203040506).
Proof.
  split; [|split].
  - unfold ack_010203040506, NewClient_reply, ADDR_BROADCAST.
    split; simpl; try (unfold is_uint16, is_byte; lia);
      split; simpl; try reflexivity; try (unfold is_uint16; lia);
      repeat constructor; unfold is_byte; lia.
  - reflexivity.
  - eexists. split; [reflexivity|]. repeat split; try reflexivity.
    discriminate.
Qed.

(** ** What an operation leaves alone *)

(** [frame s s']: both tables are the same in [s'] as in [s], and every
    client object of [s] is still there with the same peer and the same
    address (its two time stamps may differ). *)
Record frame (s s' : IPXServer) : Prop := {
  frame_clients : clients s' = clients s;
  frame_clientsByIPX : clientsByIPX s' = clientsByIPX s;
  frame_heap_length : length (heap s') = length (heap s);
  frame_heap : ∀ p c, heap s !! p = Some c →
    ∃ c', heap s' !! p = Some c' ∧
          udpAddr c' = udpAddr c ∧ ipxAddr c' = ipxAddr c;
  frame_clock : clock s' = clock s;
  frame_entropy : entropy s' = entropy s;
}.

Lemma frame_refl s : frame s s.
Proof. split; eauto. Qed.

Lemma frame_trans s1 s2 s3 : frame s1 s2 → frame s2 s3 → frame s1 s3.
Proof.
  intros [A1 B1 L1 H1 C1 E1] [A2 B2 L2 H2 C2 E2].
  split; try congruence.
  intros p c Hp. destruct (H1 p c Hp) as (c' & Hp' & ? & ?).
  destruct (H2 p c' Hp') as (c'' & ? & ? & ?).
  exists c''. repeat split; congruence.
Qed.

Lemma frame_time_Now s : frame s (time_Now s).2.
Proof. split; simpl; eauto. Qed.

Lemma frame_rand_Intn n s : frame s (rand_Intn n s).2.
Proof. split; simpl; eauto. Qed.

Lemma frame_WriteToUDP data to s : frame s (WriteToUDP data to s).
Proof. split; simpl; eauto. Qed.

Lemma frame_set_timeoutCheckTime t s : frame s (set_timeoutCheckTime t s).
Proof. split; simpl; eauto. Qed.

Lemma frame_store_lastSendTime p t s : frame s (store_lastSendTime p t s).
Proof.
  split; simpl; eauto.
  - apply length_alter.
  - intros q c Hq. destruct (decide (p = q)) as [->|Hne].
    + rewrite list_lookup_alter_eq, Hq. simpl. eauto.
    + rewrite list_lookup_alter_ne by done. eauto.
Qed.

Lemma frame_store_lastReceiveTime p t s :
  frame s (store_lastReceiveTime p t s).
Proof.
  split; simpl; eauto.
  - apply length_alter.
  - intros q c Hq. destruct (decide (p = q)) as [->|Hne].
    + rewrite list_lookup_alter_eq, Hq. simpl. eauto.
    + rewrite list_lookup_alter_ne by done. eauto.
Qed.

Lemma frame_deref s s' p c :
  frame s s' → heap s !! p = Some c →
  udpAddr (deref s' p) = udpAddr c ∧ ipxAddr (deref s' p) = ipxAddr c.
Proof.
  intros Hf Hp. destruct (frame_heap _ _ Hf p c Hp) as (c' & Hp' & ? & ?).
  unfold deref. rewrite Hp'. simpl. done.
Qed.

(** ** Address allocation *)

(** The state after [n] more calls of [rand.Intn]. *)
Definition advance (n : nat) (s : IPXServer) : IPXServer :=
  {| clients := clients s; clientsByIPX := clientsByIPX s;
     timeoutCheckTime := timeoutCheckTime s; heap := heap s; sent := sent s;
     clock := clock s; now_calls := now_calls s;
     entropy := entropy s; rand_calls := (n + rand_calls s)%nat |}.

(** The bytes [byte(rand.Intn(255))] of the next [n] draws. *)
Definition draws (s : IPXServer) (n : nat) : list Z :=
  (λ j, to_byte (entropy s (j + rand_calls s)%nat mod 255)) <$> seq 0 n.

(** The [k]-th candidate address the loop of [NewAddress] tries. *)
Definition candidate (s : IPXServer) (k : nat) : IPXAddr :=
  draws (advance (6 * k) s) 6.

Lemma advance_0 s : advance 0 s = s.
Proof. destruct s; reflexivity. Qed.

Lemma advance_advance n m s : advance n (advance m s) = advance (n + m) s.
Proof. unfold advance; simpl. f_equal. lia. Qed.

Lemma frame_advance n s : frame s (advance n s).
Proof. split; simpl; eauto. Qed.

Lemma draws_S s n :
  draws s (S n)
  = to_byte (entropy s (rand_calls s) mod 255) :: draws (advance 1 s) n.
Proof.
  unfold draws. simpl. f_equal.
  rewrite <- fmap_S_seq, <- list_fmap_compose.
  apply list_fmap_ext. intros _ j _. simpl. do 3 f_equal. lia.
Qed.

Lemma draws_length s n : length (draws s n) = n.
Proof. unfold draws. rewrite length_fmap. apply length_seq. Qed.

(** Every drawn byte is below 0xFF. *)
Lemma draws_range s n : Forall (λ b, 0 ≤ b < 0xff) (draws s n).
Proof.
  unfold draws. apply Forall_fmap, Forall_forall. intros j _. simpl.
  assert (0 ≤ entropy s (j + rand_calls s)%nat mod 255 < 255)
    by (apply Z.mod_pos_bound; lia).
  rewrite to_byte_small; lia.
Qed.

Lemma NewAddress_fill_spec n i result s :
  (i + n)%nat = length result →
  NewAddress_fill n i result s = (take i result ++ draws s n, advance n s).
Proof.
  revert i result s. induction n as [|n IH]; intros i result s Hlen.
  - simpl. rewrite advance_0. unfold draws; simpl.
    rewrite app_nil_r, take_ge by lia. reflexivity.
  - simpl. rewrite IH by (rewrite length_insert; lia).
    rewrite draws_S. f_equal.
    + rewrite (take_S_r _ _ (to_byte (entropy s (rand_calls s) mod 255))).
      * rewrite take_insert_ge by lia. rewrite <- app_assoc. reflexivity.
      * apply list_lookup_insert_eq. lia.
    + change (advance n _) with (advance n (advance 1 s)).
      rewrite advance_advance. f_equal. lia.
Qed.

(** One round of the loop of [NewAddress]. *)
Lemma NewAddress_loop_S fuel result s :
  length result = 6%nat →
  NewAddress_loop (S fuel) result s =
    match clientsByIPX s !! candidate s 0 with
    | None => Some (candidate s 0, advance 6 s)
    | Some _ => NewAddress_loop fuel (candidate s 0) (advance 6 s)
    end.
Proof.
  intros Hlen. simpl NewAddress_loop.
  rewrite NewAddress_fill_spec by lia. rewrite take_0, Hlen. simpl app.
  unfold candidate. simpl Nat.mul. rewrite advance_0. reflexivity.
Qed.

Lemma candidate_advance s k : candidate (advance 6 s) k = candidate s (S k).
Proof. unfold candidate. rewrite advance_advance. do 2 f_equal. lia. Qed.

(** What [NewAddress] returns is the first candidate no client holds. *)
Lemma NewAddress_loop_spec fuel result s a s' :
  length result = 6%nat →
  NewAddress_loop fuel result s = Some (a, s') →
  ∃ k, (k < fuel)%nat ∧ a = candidate s k ∧ s' = advance (6 * S k) s ∧
       clientsByIPX s !! a = None.
Proof.
  revert result s. induction fuel as [|fuel IH]; intros result s Hlen Hret.
  - discriminate.
  - rewrite NewAddress_loop_S in Hret by done.
    destruct (clientsByIPX s !! candidate s 0) eqn:Hheld.
    + apply IH in Hret as (k & Hk & -> & -> & Hfree);
        [|apply draws_length].
      exists (S k). rewrite candidate_advance in *.
      rewrite advance_advance. split; [lia|]. split; [done|].
      split; [f_equal; lia|done].
    + injection Hret as <- <-. exists O. split; [lia|]. done.
Qed.

(** The loop returns as soon as a candidate is free: with fuel for [k + 1]
    rounds when the [k]-th candidate is. *)
Lemma NewAddress_loop_returns fuel result s k :
  length result = 6%nat →
  clientsByIPX s !! candidate s k = None →
  (k < fuel)%nat →
  is_Some (NewAddress_loop fuel result s).
Proof.
  revert result s k. induction fuel as [|fuel IH]; intros result s k Hlen Hk Hf.
  - lia.
  - rewrite NewAddress_loop_S by done.
    destruct (clientsByIPX s !! candidate s 0) eqn:Hheld; [|eauto].
    destruct k as [|k]; [congruence|].
    apply (IH _ _ k); [apply draws_length| |lia].
    rewrite candidate_advance. done.
Qed.

Lemma NewAddress_returns fuel s k :
  clientsByIPX s !! candidate s k = None → (k < fuel)%nat →
  is_Some (NewAddress fuel s).
Proof. intros. by eapply NewAddress_loop_returns. Qed.

Lemma NewAddress_spec fuel s a s' :
  NewAddress fuel s = Some (a, s') →
  length a = 6%nat ∧ Forall (λ b, 0 ≤ b < 0xff) a ∧
  clientsByIPX s !! a = None ∧ frame s s'.
Proof.
  intros Hret. apply NewAddress_loop_spec in Hret as (k & _ & -> & -> & ?);
    [|reflexivity].
  split; [apply draws_length|]. split; [apply draws_range|].
  split; [done|apply frame_advance].
Qed.

(** ** The two tables agree *)

(** [consistent s]: the table by peer and the table by address index the
    same client objects, each under its own peer and its own address, and
    every address in use is one [NewAddress] can have drawn. *)
Record consistent (s : IPXServer) : Prop := {
  clients_valid : ∀ k p, clients s !! k = Some p →
    ∃ c, heap s !! p = Some c ∧ udpAddr c = k ∧
         clientsByIPX s !! ipxAddr c = Some p;
  byIPX_valid : ∀ a p, clientsByIPX s !! a = Some p →
    ∃ c, heap s !! p = Some c ∧ ipxAddr c = a ∧
         clients s !! udpAddr c = Some p;
  byIPX_allocated : ∀ a p, clientsByIPX s !! a = Some p →
    length a = 6%nat ∧ Forall (λ b, 0 ≤ b < 0xff) a;
}.

Lemma consistent_frame s s' : frame s s' → consistent s → consistent s'.
Proof.
  intros [Hc Hi _ Hh _ _] [H1 H2 H3]. split.
  - intros k p Hk. rewrite Hc in Hk.
    destruct (H1 k p Hk) as (c & Hp & ? & ?).
    destruct (Hh p c Hp) as (c' & ? & ? & ?).
    exists c'. rewrite Hi. repeat split; congruence.
  - intros a p Ha. rewrite Hi in Ha.
    destruct (H2 a p Ha) as (c & Hp & ? & ?).
    destruct (Hh p c Hp) as (c' & ? & ? & ?).
    exists c'. rewrite Hc. repeat split; congruence.
  - intros a p Ha. rewrite Hi in Ha. eauto.
Qed.

Lemma consistent_deref s k p :
  consistent s → clients s !! k = Some p →
  heap s !! p = Some (deref s p) ∧ udpAddr (deref s p) = k ∧
  clientsByIPX s !! ipxAddr (deref s p) = Some p.
Proof.
  intros Hs Hk. destruct (clients_valid _ Hs k p Hk) as (c & Hp & ? & ?).
  unfold deref. rewrite Hp. simpl. done.
Qed.

Lemma consistent_deref_byIPX s a p :
  consistent s → clientsByIPX s !! a = Some p →
  heap s !! p = Some (deref s p) ∧ ipxAddr (deref s p) = a ∧
  clients s !! udpAddr (deref s p) = Some p.
Proof.
  intros Hs Ha. destruct (byIPX_valid _ Hs a p Ha) as (c & Hp & ? & ?).
  unfold deref. rewrite Hp. simpl. done.
Qed.

(** Distinct peers hold distinct addresses. *)
Lemma consistent_distinct s k1 k2 p1 p2 :
  consistent s →
  clients s !! k1 = Some p1 → clients s !! k2 = Some p2 → k1 ≠ k2 →
  ipxAddr (deref s p1) ≠ ipxAddr (deref s p2).
Proof.
  intros Hs H1 H2 Hne Heq.
  destruct (consistent_deref s k1 p1 Hs H1) as (_ & Hk1 & Hi1).
  destruct (consistent_deref s k2 p2 Hs H2) as (_ & Hk2 & Hi2).
  rewrite Heq in Hi1. congruence.
Qed.

Lemma consistent_Listen clk rnd : consistent (Listen clk rnd).
Proof. split; simpl; intros ? ? H; rewrite lookup_empty in H; done. Qed.

(** ** Registration *)

(** The part of [NewClient] that records a new client with address [a],
    first seen at [now]. *)
Definition register (peer : string) (a : list Z) (now : Z)
    (s : IPXServer) : IPXServer :=
  let client := length (heap s) in
  let s := set_heap (λ h, h ++ [{| udpAddr := peer; ipxAddr := a;
                                   lastReceiveTime := now;
                                   lastSendTime := Time_zero |}]) s in
  let s := set_clients <[peer := client]> s in
  set_clientsByIPX <[ipxAddr (deref s client) := client]> s.

(** The part of [NewClient] that replies to the client. *)
Definition send_ack (client : nat) (s : IPXServer) : IPXServer :=
  let reply := NewClient_reply (ipxAddr (deref s client)) in
  let '(t, s) := time_Now s in
  let s := store_lastSendTime client t s in
  WriteToUDP (IPXHeader_Encode reply) (udpAddr (deref s client)) s.

Lemma NewClient_known fuel header peer s p :
  clients s !! peer = Some p →
  NewClient fuel header peer s = Some (send_ack p s).
Proof. intros Hp. unfold NewClient. rewrite Hp. reflexivity. Qed.

Lemma NewClient_new fuel header peer s a s1 :
  clients s !! peer = None →
  NewAddress fuel (time_Now s).2 = Some (a, s1) →
  NewClient fuel header peer s =
    Some (send_ack (length (heap s1))
            (register peer a (clock s (now_calls s)) s1)).
Proof.
  intros Hp Ha. unfold NewClient. rewrite Hp. simpl in *. rewrite Ha.
  reflexivity.
Qed.

Lemma NewClient_no_fuel fuel header peer s :
  clients s !! peer = None →
  NewAddress fuel (time_Now s).2 = None →
  NewClient fuel header peer s = None.
Proof.
  intros Hp Ha. unfold NewClient. rewrite Hp. simpl in *. rewrite Ha.
  reflexivity.
Qed.

Lemma register_deref peer a now s :
  deref (register peer a now s) (length (heap s))
  = {| udpAddr := peer; ipxAddr := a; lastReceiveTime := now;
       lastSendTime := Time_zero |}.
Proof.
  unfold register, deref; simpl.
  rewrite lookup_app_r, Nat.sub_diag by lia. reflexivity.
Qed.

Lemma register_tables peer a now s :
  clients (register peer a now s) = <[peer := length (heap s)]> (clients s) ∧
  clientsByIPX (register peer a now s)
    = <[a := length (heap s)]> (clientsByIPX s) ∧
  heap (register peer a now s)
    = heap s ++ [{| udpAddr := peer; ipxAddr := a; lastReceiveTime := now;
                    lastSendTime := Time_zero |}].
Proof.
  unfold register, deref; simpl.
  rewrite lookup_app_r, Nat.sub_diag by lia. done.
Qed.

Lemma consistent_register peer a now s :
  consistent s →
  clients s !! peer = None → clientsByIPX s !! a = None →
  length a = 6%nat → Forall (λ b, 0 ≤ b < 0xff) a →
  consistent (register peer a now s).
Proof.
  intros [H1 H2 H3] Hp Ha Hlen Hrange.
  destruct (register_tables peer a now s) as (Hc & Hi & Hh).
  split; rewrite ?Hc, ?Hi, ?Hh.
  - intros k p Hk. destruct (decide (peer = k)) as [->|Hne].
    + rewrite lookup_insert_eq in Hk. injection Hk as <-.
      eexists. split; [apply list_lookup_middle; done|]. simpl.
      split; [done|]. apply lookup_insert_eq.
    + rewrite lookup_insert_ne in Hk by done.
      destruct (H1 k p Hk) as (c & Hpc & ? & Hic). exists c.
      split; [by apply lookup_app_l_Some|]. split; [done|].
      rewrite lookup_insert_ne; [done|]. congruence.
  - intros b p Hb. destruct (decide (a = b)) as [->|Hne].
    + rewrite lookup_insert_eq in Hb. injection Hb as <-.
      eexists. split; [apply list_lookup_middle; done|]. simpl.
      split; [done|]. apply lookup_insert_eq.
    + rewrite lookup_insert_ne in Hb by done.
      destruct (H2 b p Hb) as (c & Hpc & ? & Hic). exists c.
      split; [by apply lookup_app_l_Some|]. split; [done|].
      rewrite lookup_insert_ne; [done|]. congruence.
  - intros b p Hb. destruct (decide (a = b)) as [->|Hne]; [done|].
    rewrite lookup_insert_ne in Hb by done. eauto.
Qed.

Lemma frame_send_ack p s : frame s (send_ack p s).
Proof.
  unfold send_ack.
  eapply frame_trans; [apply frame_time_Now|].
  eapply frame_trans; [apply frame_store_lastSendTime|].
  apply frame_WriteToUDP.
Qed.

Lemma consistent_NewClient fuel header peer s s' :
  consistent s → NewClient fuel header peer s = Some s' → consistent s'.
Proof.
  intros Hs Hret. destruct (clients s !! peer) as [p|] eqn:Hp.
  - rewrite (NewClient_known _ _ _ _ p) in Hret by done.
    injection Hret as <-. eapply consistent_frame; [apply frame_send_ack|done].
  - destruct (NewAddress fuel (time_Now s).2) as [[a s1]|] eqn:Ha.
    + rewrite (NewClient_new _ _ _ _ a s1) in Hret by done.
      injection Hret as <-.
      destruct (NewAddress_spec _ _ _ _ Ha) as (Hlen & Hrange & Hfree & Hf).
      eapply consistent_frame; [apply frame_send_ack|].
      assert (Hf' : frame s s1)
        by (eapply frame_trans; [apply frame_time_Now|done]).
      apply consistent_register; try done.
      * by eapply consistent_frame.
      * by rewrite (frame_clients _ _ Hf').
      * by rewrite (frame_clientsByIPX _ _ Hf').
    + rewrite NewClient_no_fuel in Hret by done. discriminate.
Qed.

(** ** Loops over the client table, forwarding, the sweep *)

Section loops.

Variable range : gmap string nat → list (string * nat).

(** A property that every round of a [range] loop preserves holds after
    the loop, whatever the order of the visits. *)
Lemma for_range_ind (P : IPXServer → Prop) body s :
  P s →
  (∀ k p s, P s → clients s !! k = Some p → P (body k p s)) →
  P (for_range range body s).
Proof.
  intros Hs Hbody. unfold for_range.
  generalize (range (clients s)). intros l. revert s Hs.
  induction l as [|[k p0] l IH]; intros s Hs; simpl; [done|].
  apply IH. destruct (clients s !! k) as [p|] eqn:Hk; eauto.
Qed.

Lemma frame_ForwardPacket header packet s :
  frame s (ForwardPacket header packet s).
Proof.
  unfold ForwardPacket.
  destruct (clientsByIPX s !! addr (dest header)); [|apply frame_refl].
  eapply frame_trans; [apply frame_time_Now|].
  eapply frame_trans; [apply frame_store_lastSendTime|].
  apply frame_WriteToUDP.
Qed.

Lemma frame_ForwardBroadcastPacket header packet s :
  frame s (ForwardBroadcastPacket range header packet s).
Proof.
  unfold ForwardBroadcastPacket.
  apply (for_range_ind (frame s)); [apply frame_refl|].
  intros k p s' Hf _. case_bool_decide; [|done].
  eapply frame_trans; [exact Hf|].
  eapply frame_trans; [apply frame_time_Now|].
  eapply frame_trans; [apply frame_store_lastSendTime|].
  apply frame_WriteToUDP.
Qed.

Lemma frame_SendPing p s : frame s (SendPing p s).
Proof.
  unfold SendPing.
  eapply frame_trans; [apply frame_time_Now|].
  eapply frame_trans; [apply frame_store_lastSendTime|].
  apply frame_WriteToUDP.
Qed.

(** The two [delete]s of the sweep, for the client [p]. *)
Definition evict (p : nat) (s : IPXServer) : IPXServer :=
  let s := set_clients (delete (udpAddr (deref s p))) s in
  set_clientsByIPX (delete (ipxAddr (deref s p))) s.

Lemma consistent_evict s k p :
  consistent s → clients s !! k = Some p → consistent (evict p s).
Proof.
  intros Hs Hk.
  destruct (consistent_deref s k p Hs Hk) as (Hp & Hu & Hi).
  destruct Hs as [H1 H2 H3].
  unfold evict, deref; simpl. fold (deref s p). rewrite Hu.
  split; simpl.
  - intros k' p' Hk'. apply lookup_delete_Some in Hk' as [Hne Hk'].
    destruct (H1 k' p' Hk') as (c & Hpc & ? & Hic). exists c.
    split; [done|]. split; [done|].
    rewrite lookup_delete_ne; [done|]. intros Heq.
    rewrite <- Heq in Hic. assert (p' = p) as -> by congruence.
    apply Hne. rewrite Hp in Hpc. congruence.
  - intros a p' Ha. apply lookup_delete_Some in Ha as [Hne Ha].
    destruct (H2 a p' Ha) as (c & Hpc & ? & Hkc). exists c.
    split; [done|]. split; [done|].
    rewrite lookup_delete_ne; [done|]. intros Heq.
    rewrite <- Heq in Hkc. assert (p' = p) as -> by congruence.
    apply Hne. rewrite Hp in Hpc. congruence.
  - intros a p' Ha. apply lookup_delete_Some in Ha as [_ Ha]. eauto.
Qed.

Lemma CheckClientTimeouts_body_cases now p s :
  ∃ s1, frame s s1 ∧
        (CheckClientTimeouts_body now p s = s1 ∨
         CheckClientTimeouts_body now p s = evict p s1).
Proof.
  unfold CheckClientTimeouts_body.
  set (s1 := if After now _ then SendPing p s else s).
  exists s1. split.
  - subst s1. destruct (After now _); [apply frame_SendPing|apply frame_refl].
  - destruct (After now (lastReceiveTime (deref s1 p) + CLIENT_TIMEOUT));
      [right|left]; reflexivity.
Qed.

Lemma consistent_CheckClientTimeouts s :
  consistent s → consistent (CheckClientTimeouts range s).
Proof.
  intros Hs. unfold CheckClientTimeouts. simpl.
  apply (for_range_ind consistent).
  - eapply consistent_frame; [apply frame_time_Now|done].
  - intros k p s' Hs' Hk.
    destruct (CheckClientTimeouts_body_cases (clock s (now_calls s)) p s')
      as (s1 & Hf & [-> | ->]).
    + by eapply consistent_frame.
    + apply (consistent_evict _ k); [by eapply consistent_frame|].
      by rewrite (frame_clients _ _ Hf).
Qed.

Lemma consistent_ProcessPacket fuel packet peer s s' :
  consistent s → ProcessPacket range fuel packet peer s = Some s' →
  consistent s'.
Proof.
  intros Hs. unfold ProcessPacket.
  destruct (IPXHeader_Decode IPXHeader_zero packet) as [[] header]; simpl;
    [|congruence].
  destruct (IsRegistrationPacket header); [by apply consistent_NewClient|].
  destruct (clients s !! peer) as [p|]; [|congruence].
  case_bool_decide; [congruence|].
  simpl. intros Hret.
  assert (Hf : frame s (store_lastReceiveTime p (clock s (now_calls s))
                          (time_Now s).2)).
  { eapply frame_trans; [apply frame_time_Now|].
    apply frame_store_lastReceiveTime. }
  destruct (IsBroadcast header); injection Hret as <-.
  - eapply consistent_frame; [|done].
    eapply frame_trans; [exact Hf|apply frame_ForwardBroadcastPacket].
  - eapply consistent_frame; [|done].
    eapply frame_trans; [exact Hf|apply frame_ForwardPacket].
Qed.

Lemma consistent_Poll fuel r s b s' :
  consistent s → Poll range fuel r s = Some (b, s') → consistent s'.
Proof.
  intros Hs. unfold Poll.
  assert (Hafter : ∀ s1 b' s'', consistent s1 →
    (let '(t, s2) := time_Now s1 in
     if After t (timeoutCheckTime s2)
     then
       let s3 := CheckClientTimeouts range s2 in
       Some (true, set_timeoutCheckTime (timeoutCheckTime s3 + 10000000000) s3)
     else Some (true, s2)) = Some (b', s'') → consistent s'').
  { intros s1 b' s'' Hs1. simpl.
    destruct (After _ _); intros [= <- <-].
    - eapply consistent_frame; [apply frame_set_timeoutCheckTime|].
      apply consistent_CheckClientTimeouts.
      eapply consistent_frame; [apply frame_time_Now|done].
    - eapply consistent_frame; [apply frame_time_Now|done]. }
  destruct r as [datagram peer| | |]; simpl.
  - destruct (ProcessPacket range fuel (take 1500 datagram) peer s)
      as [s1|] eqn:Hpp; simpl; [|discriminate].
    apply Hafter. by eapply consistent_ProcessPacket.
  - by apply Hafter.
  - by intros [= <- <-].
  - by apply Hafter.
Qed.

End loops.

Lemma reachable_consistent s : reachable s → consistent s.
Proof.
  induction 1 as [clk rnd|range fuel r s s' _ _ IH Hpoll].
  - apply consistent_Listen.
  - by eapply consistent_Poll.
Qed.

(** C9: address allocation preserves uniqueness. [NewAddress] returns an
    address that is in the table of addresses in use under no client, and
    that no registered client holds; and in every state the server reaches,
    whatever the order of its [range] loops, the clients registered under
    two different peers have different node addresses. *)
Theorem C9_address_uniqueness :
  (∀ fuel s a s', consistent s → NewAddress fuel s = Some (a, s') →
     clientsByIPX s !! a = None ∧
     ∀ k p, clients s !! k = Some p → ipxAddr (deref s p) ≠ a) ∧
  (∀ s, reachable s →
     ∀ k1 k2 p1 p2,
       clients s !! k1 = Some p1 → clients s !! k2 = Some p2 → k1 ≠ k2 →
       ipxAddr (deref s p1) ≠ ipxAddr (deref s p2)).
Proof.
  split.
  - intros fuel s a s' Hs Hret.
    destruct (NewAddress_spec _ _ _ _ Hret) as (_ & _ & Hfree & _).
    split; [done|]. intros k p Hk Heq.
    destruct (consistent_deref s k p Hs Hk) as (_ & _ & Hi). congruence.
  - intros s Hs k1 k2 p1 p2. apply consistent_distinct.
    by apply reachable_consistent.
Qed.

(** C10: every address [NewAddress] returns has six bytes, each strictly
    below 0xFF, so it is not the broadcast address; and in every state the
    server reaches no client is registered under the broadcast address, so
    the lookup of a unicast destination never finds a client under it. *)
Theorem C10_allocated_address_below_ff :
  (∀ fuel s a s', NewAddress fuel s = Some (a, s') →
     length a = 6%nat ∧ Forall (λ b, 0 ≤ b < 0xff) a ∧ a ≠ ADDR_BROADCAST) ∧
  (∀ s, reachable s →
     clientsByIPX s !! ADDR_BROADCAST = None ∧
     ∀ k p, clients s !! k = Some p →
       Forall (λ b, 0 ≤ b < 0xff) (ipxAddr (deref s p)) ∧
       ipxAddr (deref s p) ≠ ADDR_BROADCAST).
Proof.
  assert (Hnb : ∀ a, Forall (λ b, 0 ≤ b < 0xff) a → a ≠ ADDR_BROADCAST).
  { intros a Ha ->. apply Forall_cons_1 in Ha as [? _]. lia. }
  split.
  - intros fuel s a s' Hret.
    destruct (NewAddress_spec _ _ _ _ Hret) as (Hlen & Hrange & _ & _).
    auto.
  - intros s Hs. apply reachable_consistent in Hs.
    split.
    + destruct (clientsByIPX s !! ADDR_BROADCAST) as [p|] eqn:Hb; [|done].
      destruct (byIPX_allocated _ Hs _ _ Hb) as [_ Hr].
      by apply Hnb in Hr.
    + intros k p Hk.
      destruct (consistent_deref s k p Hs Hk) as (_ & _ & Hi).
      destruct (byIPX_allocated _ Hs _ _ Hi) as [_ Hr]. auto.
Qed.

(** ** Forwarding an accepted packet *)

(** The three statements by which a datagram goes out to a client. *)
Definition send_to (packet : list Z) (client : nat)
    (s : IPXServer) : IPXServer :=
  let '(t, s) := time_Now s in
  let s := store_lastSendTime client t s in
  WriteToUDP packet (udpAddr (deref s client)) s.

(** [keeps_rx s s']: no client's [lastReceiveTime] differs. *)
Definition keeps_rx (s s' : IPXServer) : Prop :=
  ∀ p, lastReceiveTime (deref s' p) = lastReceiveTime (deref s p).

Lemma keeps_rx_send_to packet q s : keeps_rx s (send_to packet q s).
Proof.
  intros p. unfold send_to, deref; simpl.
  destruct (decide (q = p)) as [->|Hne].
  - rewrite list_lookup_alter_eq. by destruct (heap s !! p).
  - by rewrite list_lookup_alter_ne.
Qed.

Lemma frame_send_to packet q s : frame s (send_to packet q s).
Proof.
  unfold send_to.
  eapply frame_trans; [apply frame_time_Now|].
  eapply frame_trans; [apply frame_store_lastSendTime|].
  apply frame_WriteToUDP.
Qed.

Lemma sent_send_to packet k q s :
  consistent s → clients s !! k = Some q →
  sent (send_to packet q s) = sent s ++ [(packet, k)].
Proof.
  intros Hs Hk. destruct (clients_valid _ Hs k q Hk) as (c & Hq & Hu & _).
  unfold send_to, deref; simpl.
  rewrite list_lookup_alter_eq, Hq. simpl. by rewrite Hu.
Qed.

(** The state in which an accepted packet is forwarded: the sender's
    [lastReceiveTime] has just been set. *)
Definition refresh (p : nat) (s : IPXServer) : IPXServer :=
  let '(t, s) := time_Now s in store_lastReceiveTime p t s.

Lemma frame_refresh p s : frame s (refresh p s).
Proof.
  unfold refresh.
  eapply frame_trans; [apply frame_time_Now|apply frame_store_lastReceiveTime].
Qed.

Lemma refresh_lastReceiveTime p s :
  is_Some (heap s !! p) →
  lastReceiveTime (deref (refresh p s) p) = clock s (now_calls s).
Proof.
  intros [c Hc]. unfold refresh, deref; simpl.
  rewrite list_lookup_alter_eq, Hc. reflexivity.
Qed.

(** [ProcessPacket] on a datagram that decodes, is not taken for a
    registration, and comes from a registered peer under its own address. *)
Lemma ProcessPacket_accepted range fuel packet peer s header p :
  IPXHeader_Decode IPXHeader_zero packet = (true, header) →
  IsRegistrationPacket header = false →
  clients s !! peer = Some p →
  addr (src header) = ipxAddr (deref s p) →
  ProcessPacket range fuel packet peer s =
    Some (if IsBroadcast header
          then ForwardBroadcastPacket range header packet (refresh p s)
          else ForwardPacket header packet (refresh p s)).
Proof.
  intros Hd Hr Hp Hsrc. unfold ProcessPacket. rewrite Hd, Hr, Hp. simpl.
  rewrite bool_decide_eq_false_2 by (intros H; by apply H).
  unfold refresh; simpl. by destruct (IsBroadcast header).
Qed.

Section broadcast.

Variable range : gmap string nat → list (string * nat).
Hypothesis range_perm : ∀ m, range m ≡ₚ map_to_list m.

Lemma range_lookup m k p : (k, p) ∈ range m → m !! k = Some p.
Proof. rewrite range_perm. apply elem_of_map_to_list. Qed.

(** The rounds of the loop of [ForwardBroadcastPacket] over the entries
    [l]: a copy to every peer of [l] but the sender, in the order of [l]. *)
Lemma ForwardBroadcast_rounds header packet peer p l s :
  consistent s →
  clients s !! peer = Some p →
  addr (src header) = ipxAddr (deref s p) →
  (∀ kp, kp ∈ l → clients s !! kp.1 = Some kp.2) →
  let s' := foldl (λ s kp,
              match clients s !! kp.1 with
              | Some client =>
                  if bool_decide (ipxAddr (deref s client) ≠ addr (src header))
                  then send_to packet client s else s
              | None => s
              end) s l in
  frame s s' ∧ keeps_rx s s' ∧
  sent s' = sent s
            ++ ((λ kp, (packet, kp.1)) <$> filter (λ kp, kp.1 ≠ peer) l).
Proof.
  revert s. induction l as [|[k q] l IH]; intros s Hs Hp Hsrc Hl; simpl.
  - split; [apply frame_refl|]. split; [done|]. by rewrite app_nil_r.
  - assert (Hk : clients s !! k = Some q) by (apply (Hl (k, q)); left).
    rewrite Hk.
    assert (Hcase : bool_decide (ipxAddr (deref s q) ≠ addr (src header))
                    = bool_decide (k ≠ peer)).
    { apply bool_decide_ext. rewrite Hsrc. split.
      - intros Hne ->. congruence.
      - intros Hne. by eapply consistent_distinct. }
    rewrite Hcase. clear Hcase.
    set (s1 := if bool_decide (k ≠ peer) then send_to packet q s else s).
    assert (Hf1 : frame s s1).
    { subst s1. case_bool_decide; [apply frame_send_to|apply frame_refl]. }
    assert (Hrx1 : keeps_rx s s1).
    { subst s1. case_bool_decide; [apply keeps_rx_send_to|done]. }
    assert (Hsent1 : sent s1 = sent s ++
              (if bool_decide (k ≠ peer) then [(packet, k)] else [])).
    { subst s1. case_bool_decide; [by apply sent_send_to|].
      by rewrite app_nil_r. }
    destruct (consistent_deref s peer p Hs Hp) as (Hhp & _ & _).
    destruct (IH s1) as (Hf & Hrx & Hsent).
    + by eapply consistent_frame.
    + by rewrite (frame_clients _ _ Hf1).
    + destruct (frame_deref _ _ p _ Hf1 Hhp) as [_ ->]. done.
    + intros kp Hkp. rewrite (frame_clients _ _ Hf1). apply Hl. by right.
    + split; [by eapply frame_trans|].
      split; [intros x; by rewrite Hrx, Hrx1|].
      rewrite Hsent, Hsent1, <- app_assoc. f_equal.
      rewrite filter_cons. simpl. case_bool_decide.
      * rewrite decide_True by done. reflexivity.
      * rewrite decide_False by (intros ?; done). reflexivity.
Qed.

Lemma ForwardBroadcastPacket_spec header packet peer p s :
  consistent s →
  clients s !! peer = Some p →
  addr (src header) = ipxAddr (deref s p) →
  let s' := ForwardBroadcastPacket range header packet s in
  frame s s' ∧ keeps_rx s s' ∧
  ∃ out, sent s' = sent s ++ out ∧
         out ≡ₚ (λ kp, (packet, kp.1))
                 <$> filter (λ kp, kp.1 ≠ peer) (map_to_list (clients s)).
Proof.
  intros Hs Hp Hsrc.
  destruct (ForwardBroadcast_rounds header packet peer p
              (range (clients s)) s Hs Hp Hsrc) as (Hf & Hrx & Hsent).
  { intros [k q] Hkq. by apply range_lookup. }
  split; [exact Hf|]. split; [exact Hrx|].
  eexists. split; [exact Hsent|]. by rewrite range_perm.
Qed.

End broadcast.

(** How many of the datagrams [out] went to the peer [k]. *)
Definition copies_to (k : string) (out : list (list Z * string)) : nat :=
  length (filter (λ d, d.2 = k) out).

Lemma copies_to_fanout packet peer k (l : list (string * nat)) :
  NoDup l.*1 →
  copies_to k ((λ kp, (packet, kp.1)) <$> filter (λ kp, kp.1 ≠ peer) l)
  = if decide (k ≠ peer ∧ k ∈ l.*1) then 1%nat else 0%nat.
Proof.
  unfold copies_to. induction l as [|[k' q] l IH]; intros Hnd.
  - simpl. rewrite decide_False; [done|]. intros [_ H]. by apply elem_of_nil in H.
  - apply NoDup_cons in Hnd as [Hk' Hnd]. specialize (IH Hnd).
    rewrite filter_cons. simpl. destruct (decide (k' ≠ peer)) as [Hne|He].
    + rewrite fmap_cons, filter_cons. simpl.
      destruct (decide (k' = k)) as [->|Hkk].
      * simpl. rewrite IH. rewrite decide_False by (intros [_ ?]; done).
        rewrite decide_True; [done|]. split; [done|]. left.
      * rewrite IH. apply decide_ext. rewrite elem_of_cons.
        split; [tauto|]. intros [? [?|?]]; [congruence|tauto].
    + rewrite IH. apply decide_ext. rewrite elem_of_cons.
      apply dec_stable in He. subst k'.
      split; [tauto|]. intros [? [?|?]]; [congruence|tauto].
Qed.

(** C2: an accepted packet whose destination node is the broadcast address
    goes out once to every registered client other than the sender and not
    at all to the sender: the datagrams written to the socket are, in some
    order, one copy of the packet per entry of the client table whose peer
    is not the sender. *)
Theorem C2_broadcast_delivery range fuel packet peer s header p :
  (∀ m, range m ≡ₚ map_to_list m) →
  consistent s →
  IPXHeader_Decode IPXHeader_zero packet = (true, header) →
  IsRegistrationPacket header = false →
  clients s !! peer = Some p →
  addr (src header) = ipxAddr (deref s p) →
  addr (dest header) = ADDR_BROADCAST →
  ∃ s' out,
    ProcessPacket range fuel packet peer s = Some s' ∧
    sent s' = sent s ++ out ∧
    out ≡ₚ (λ kp, (packet, kp.1))
            <$> filter (λ kp, kp.1 ≠ peer) (map_to_list (clients s)) ∧
    (∀ k, is_Some (clients s !! k) → k ≠ peer → copies_to k out = 1%nat) ∧
    copies_to peer out = 0%nat.
Proof.
  intros Hrange Hs Hd Hr Hp Hsrc Hdest.
  rewrite (ProcessPacket_accepted _ _ _ _ _ header p) by done.
  unfold IsBroadcast. rewrite bool_decide_eq_true_2 by done.
  destruct (ForwardBroadcastPacket_spec range Hrange header packet peer p
              (refresh p s)) as (_ & _ & out & Hsent & Hout).
  - eapply consistent_frame; [apply frame_refresh|done].
  - by rewrite (frame_clients _ _ (frame_refresh p s)).
  - destruct (consistent_deref s peer p Hs Hp) as (Hhp & _ & _).
    destruct (frame_deref _ _ p _ (frame_refresh p s) Hhp) as [_ ->]. done.
  - rewrite (frame_clients _ _ (frame_refresh p s)) in Hout.
    exists (ForwardBroadcastPacket range header packet (refresh p s)), out.
    split; [done|]. split; [exact Hsent|]. split; [exact Hout|].
    assert (Hcount : ∀ k, copies_to k out
              = if decide (k ≠ peer ∧ k ∈ (map_to_list (clients s)).*1)
                then 1%nat else 0%nat).
    { intros k.
      rewrite <- (copies_to_fanout packet peer k)
        by apply NoDup_fst_map_to_list.
      unfold copies_to. by rewrite Hout. }
    split.
    + intros k [q Hk] Hne. rewrite Hcount, decide_True; [done|].
      split; [done|]. apply list_elem_of_fmap. exists (k, q).
      split; [done|]. by apply elem_of_map_to_list.
    + rewrite Hcount, decide_False; [done|]. by intros [? _].
Qed.

Lemma ForwardPacket_held header packet k q s :
  consistent s → clients s !! k = Some q →
  ipxAddr (deref s q) = addr (dest header) →
  ForwardPacket header packet s = send_to packet q s.
Proof.
  intros Hs Hk Ha. destruct (consistent_deref s k q Hs Hk) as (_ & _ & Hi).
  unfold ForwardPacket. rewrite <- Ha, Hi. reflexivity.
Qed.

Lemma ForwardPacket_unheld header packet s :
  consistent s →
  (∀ k q, clients s !! k = Some q →
          ipxAddr (deref s q) ≠ addr (dest header)) →
  ForwardPacket header packet s = s.
Proof.
  intros Hs Hnone. unfold ForwardPacket.
  destruct (clientsByIPX s !! addr (dest header)) as [q|] eqn:Hq; [|done].
  destruct (consistent_deref_byIPX s _ q Hs Hq) as (_ & Ha & Hk).
  by destruct (Hnone _ _ Hk).
Qed.

(** ** A run of the server *)

(** One second passes between two readings of the clock; the random
    numbers are 1, 8, 15, ... *)
Definition demo_clock (n : nat) : Z := Z.of_nat n * 1000000000.
Definition demo_entropy (n : nat) : Z := Z.of_nat n * 7 + 1.

(** A 30-byte packet from the node [from] to the node [to], both with
    socket [sock]. *)
Definition demo_packet (to from : list Z) (sock : Z) : list Z :=
  IPXHeader_Encode
    {| checksum := 0xffff; length_ := 30; transControl := 0; packetType := 0;
       dest := {| network := zeros 4; addr := to; socket := sock |};
       src := {| network := zeros 4; addr := from; socket := sock |} |}.

Definition demo_registration : list Z := demo_packet ADDR_NULL ADDR_NULL 2.

Definition after_Poll (r : ReadResult) (s : IPXServer) : IPXServer :=
  match Poll map_to_list 1 r s with
  | Some (_, s') => s'
  | None => s
  end.

(** The server after [Listen]; after the registration of a first peer,
    which gets the address 01:08:0f:16:1d:24; of a second peer, which gets
    2b:32:39:40:47:4e; and after four and five more reads that time out. *)
Definition demo0 : IPXServer := Listen demo_clock demo_entropy.
Definition demo1 : IPXServer :=
  after_Poll (ReadOk demo_registration "10.0.0.1:1001") demo0.
Definition demo2 : IPXServer :=
  after_Poll (ReadOk demo_registration "10.0.0.2:1002") demo1.
Definition demo3 : IPXServer := Nat.iter 4 (after_Poll ReadTimeout) demo2.
Definition demo4 : IPXServer := after_Poll ReadTimeout demo3.

Definition demo_addr1 : list Z := [1; 8; 15; 22; 29; 36].
Definition demo_addr2 : list Z := [43; 50; 57; 64; 71; 78].

Lemma after_Poll_reachable r s :
  reachable s →
  (∃ s', Poll map_to_list 1 r s = Some (true, s')) →
  reachable (after_Poll r s).
Proof.
  intros Hs [s' Hp]. unfold after_Poll. rewrite Hp.
  by apply (reachable_Poll map_to_list 1%nat r s s').
Qed.

Lemma demo1_reachable : reachable demo1.
Proof.
  apply after_Poll_reachable; [apply reachable_Listen|].
  eexists. vm_compute. reflexivity.
Qed.

Lemma demo2_reachable : reachable demo2.
Proof.
  apply after_Poll_reachable; [apply demo1_reachable|].
  eexists. vm_compute. reflexivity.
Qed.

(** C3, the claim as it stands fails: the first peer, registered alone with
    the address 01:08:0f:16:1d:24, sends a packet from that address to that
    same address. The packet is accepted, and the server writes it back to
    the sender instead of dropping it. *)
Lemma C3_counterexample :
  let packet := demo_packet demo_addr1 demo_addr1 0x4002 in
  reachable demo1 ∧
  clients demo1 !! "10.0.0.1:1001" = Some O ∧
  ipxAddr (deref demo1 O) = demo_addr1 ∧
  (∃ header,
     IPXHeader_Decode IPXHeader_zero packet = (true, header) ∧
     IsRegistrationPacket header = false ∧
     addr (src header) = demo_addr1 ∧ addr (dest header) = demo_addr1) ∧
  ∃ s', ProcessPacket map_to_list 1 packet "10.0.0.1:1001" demo1 = Some s' ∧
        sent s' = sent demo1 ++ [(packet, "10.0.0.1:1001")] ∧
        sent s' ≠ sent demo1.
Proof.
  split; [apply demo1_reachable|].
  split; [reflexivity|]. split; [reflexivity|].
  split; [eexists; repeat split; reflexivity|].
  eexists. split; [vm_compute; reflexivity|].
  split; [reflexivity|]. vm_compute. discriminate.
Qed.

(** ** The packet path of [ProcessPacket] *)

(** The destination node and the destination socket of a datagram as they
    lie on the wire: bytes 10 to 15, and bytes 16 and 17 with the high
    byte first. *)
Definition wire_dest_node (packet : list Z) : list Z := slice packet 10 16.
Definition wire_dest_socket (packet : list Z) : Z :=
  256 * idx packet 16 + idx packet 17.

(** A registration packet in the words of the specification: the
    destination socket is 2 and the destination node is NULL. *)
Definition wire_registration (packet : list Z) : Prop :=
  wire_dest_socket packet = 2 ∧ wire_dest_node packet = ADDR_NULL.

(** The datagrams [ProcessPacket] hands to [NewClient]: those that decode
    to a header of which [IsRegistrationPacket] holds. The header is the
    one [Decode] returns, with the high byte of each socket lost. *)
Definition taken_for_registration (packet : list Z) : Prop :=
  ∃ header, IPXHeader_Decode IPXHeader_zero packet = (true, header) ∧
            IsRegistrationPacket header = true.

Lemma taken_for_registration_iff packet header :
  IPXHeader_Decode IPXHeader_zero packet = (true, header) →
  taken_for_registration packet ↔ IsRegistrationPacket header = true.
Proof.
  intros Hd. split.
  - intros (header' & Hd' & Hr). congruence.
  - intros Hr. by exists header.
Qed.

Lemma not_taken_for_registration packet header :
  IPXHeader_Decode IPXHeader_zero packet = (true, header) →
  ¬ taken_for_registration packet →
  IsRegistrationPacket header = false.
Proof.
  intros Hd Hnt. destruct (IsRegistrationPacket header) eqn:Hr; [|done].
  destruct Hnt. by exists header.
Qed.

(** The destination of the decoded header, in terms of the bytes of the
    datagram: the node is the node on the wire, the socket is the second
    of the two socket bytes. *)
Lemma Decode_dest_node packet header :
  IPXHeader_Decode IPXHeader_zero packet = (true, header) →
  (30 ≤ length packet)%nat ∧ addr (dest header) = wire_dest_node packet.
Proof.
  intros Hd. unfold IPXHeader_Decode in Hd.
  destruct (length packet <? 30)%nat eqn:Hlen; [discriminate|].
  apply Nat.ltb_ge in Hlen. injection Hd as <-. split; [done|].
  do 30 (destruct packet as [|? packet]; [simpl in Hlen; lia|]).
  reflexivity.
Qed.

Lemma Decode_dest_socket packet header :
  Forall is_byte packet →
  IPXHeader_Decode IPXHeader_zero packet = (true, header) →
  socket (dest header) = idx packet 17.
Proof.
  intros Hb Hd. unfold IPXHeader_Decode in Hd.
  destruct (length packet <? 30)%nat eqn:Hlen; [discriminate|].
  apply Nat.ltb_ge in Hlen. injection Hd as <-.
  do 30 (destruct packet as [|? packet]; [simpl in Hlen; lia|]).
  simpl. unfold idx; simpl. apply decode_uint16.
  exact (proj1 (Forall_lookup _ _) Hb 17%nat _ eq_refl).
Qed.

(** What the test of the code comes to on the wire: 30 bytes or more, the
    destination node NULL, and the low byte of the destination socket 2.
    The high byte of the socket plays no part. *)
Lemma taken_for_registration_wire packet :
  Forall is_byte packet →
  taken_for_registration packet ↔
  (30 ≤ length packet)%nat ∧ wire_dest_node packet = ADDR_NULL ∧
  idx packet 17 = 2.
Proof.
  intros Hb. split.
  - intros (header & Hd & Hr).
    destruct (Decode_dest_node packet header Hd) as (Hlen & Ha).
    pose proof (Decode_dest_socket packet header Hb Hd) as Hsock.
    apply andb_true_iff in Hr as [H1 H2].
    apply bool_decide_eq_true in H1, H2.
    split; [done|]. split; congruence.
  - intros (Hlen & Ha & Hsock).
    assert (Hd : IPXHeader_Decode IPXHeader_zero packet
                 = (true, (IPXHeader_Decode IPXHeader_zero packet).2)).
    { unfold IPXHeader_Decode.
      by rewrite (proj2 (Nat.ltb_ge _ _) Hlen). }
    eexists. split; [exact Hd|].
    destruct (Decode_dest_node packet _ Hd) as (_ & Ha').
    pose proof (Decode_dest_socket packet _ Hb Hd) as Hsock'.
    unfold IsRegistrationPacket. rewrite Ha', Hsock', Ha, Hsock.
    reflexivity.
Qed.

(** A datagram taken for a registration is a registration packet of the
    specification only when the high byte of its destination socket is
    zero. *)
Lemma taken_wire_registration packet :
  Forall is_byte packet →
  taken_for_registration packet →
  wire_registration packet ↔ idx packet 16 = 0.
Proof.
  intros Hb Ht.
  apply (taken_for_registration_wire packet Hb) in Ht as (_ & Ha & Hsock).
  unfold wire_registration, wire_dest_socket. rewrite Hsock. split.
  - intros [H _]. lia.
  - intros ->. done.
Qed.

(** The three conditions under which [ProcessPacket] lets a datagram
    through: it decodes to [header], its UDP peer has the client record
    [p], and the source node of the header is the address of [p]. *)
Definition accepted (s : IPXServer) (packet : list Z) (peer : string)
    (header : IPXHeader) (p : nat) : Prop :=
  IPXHeader_Decode IPXHeader_zero packet = (true, header) ∧
  clients s !! peer = Some p ∧
  addr (src header) = ipxAddr (deref s p).

(** Handing an accepted packet to the forwarding code. *)
Definition forward (range : gmap string nat → list (string * nat))
    (header : IPXHeader) (packet : list Z) (s : IPXServer) : IPXServer :=
  if IsBroadcast header then ForwardBroadcastPacket range header packet s
  else ForwardPacket header packet s.

Lemma keeps_rx_ForwardPacket header packet s :
  keeps_rx s (ForwardPacket header packet s).
Proof.
  unfold ForwardPacket.
  destruct (clientsByIPX s !! addr (dest header)); [|done].
  apply keeps_rx_send_to.
Qed.

Lemma keeps_rx_ForwardBroadcastPacket range header packet s :
  keeps_rx s (ForwardBroadcastPacket range header packet s).
Proof.
  unfold ForwardBroadcastPacket.
  apply (for_range_ind range (keeps_rx s)); [done|].
  intros k p s' Hrx _ x. case_bool_decide; [|done].
  rewrite <- Hrx. apply (keeps_rx_send_to packet p s').
Qed.

Lemma keeps_rx_forward range header packet s :
  keeps_rx s (forward range header packet s).
Proof.
  unfold forward. destruct (IsBroadcast header);
    [apply keeps_rx_ForwardBroadcastPacket|apply keeps_rx_ForwardPacket].
Qed.

(** A datagram that is not taken for a registration and fails one of the
    three conditions leaves the server as it was, with nothing written to
    the socket. *)
Lemma ProcessPacket_dropped range fuel packet peer s :
  ¬ taken_for_registration packet →
  (¬ ∃ header p, accepted s packet peer header p) →
  ProcessPacket range fuel packet peer s = Some s.
Proof.
  intros Hnt Hno. unfold ProcessPacket.
  destruct (IPXHeader_Decode IPXHeader_zero packet) as [[] header] eqn:Hd;
    simpl; [|done].
  rewrite (not_taken_for_registration packet header) by done.
  destruct (clients s !! peer) as [p|] eqn:Hp; [|done].
  case_bool_decide as Hsrc; [done|].
  destruct Hno. by exists header, p.
Qed.

(** ** Registration through [ProcessPacket] *)

(** The 30 bytes of the registration ack for the address [a]. *)
Definition ack_bytes (a : list Z) : list Z :=
  [0xff; 0xff; 0x00; 0x1e; 0x00; 0x00; 0x00; 0x00; 0x00; 0x00] ++ a ++
  [0x00; 0x02; 0x00; 0x00; 0x00; 0x01;
   0xff; 0xff; 0xff; 0xff; 0xff; 0xff; 0x00; 0x02].

Lemma NewClient_reply_bytes a :
  length a = 6%nat → IPXHeader_Encode (NewClient_reply a) = ack_bytes a.
Proof.
  intros Hlen. do 7 (destruct a as [|? a]; try discriminate Hlen).
  reflexivity.
Qed.

Lemma NewClient_reply_fields a :
  length a = 6%nat →
  let reply := NewClient_reply a in
  network (dest reply) = [0; 0; 0; 0] ∧ addr (dest reply) = a ∧
  socket (dest reply) = 2 ∧
  network (src reply) = [0; 0; 0; 1] ∧
  addr (src reply) = [0xff; 0xff; 0xff; 0xff; 0xff; 0xff] ∧
  socket (src reply) = 2 ∧
  checksum reply = 0xffff ∧ length_ reply = 30 ∧ transControl reply = 0.
Proof.
  intros Hlen. do 7 (destruct a as [|? a]; try discriminate Hlen). done.
Qed.

Lemma send_ack_spec k p s :
  consistent s → clients s !! k = Some p →
  let s' := send_ack p s in
  frame s s' ∧ keeps_rx s s' ∧ rand_calls s' = rand_calls s ∧
  sent s' = sent s
            ++ [(IPXHeader_Encode (NewClient_reply (ipxAddr (deref s p))), k)].
Proof.
  intros Hs Hk.
  change (send_ack p s)
    with (send_to (IPXHeader_Encode (NewClient_reply (ipxAddr (deref s p))))
            p s).
  split; [apply frame_send_to|]. split; [apply keeps_rx_send_to|].
  split; [reflexivity|]. by apply sent_send_to.
Qed.

(** A registration from a peer with a client record: no address is drawn,
    no client object is made, both tables stay as they are, and the ack for
    the address of the record goes to the peer. *)
Lemma ProcessPacket_registration_known range fuel packet peer s header p :
  consistent s →
  IPXHeader_Decode IPXHeader_zero packet = (true, header) →
  IsRegistrationPacket header = true →
  clients s !! peer = Some p →
  ∃ s', ProcessPacket range fuel packet peer s = Some s' ∧
        clients s' = clients s ∧ clientsByIPX s' = clientsByIPX s ∧
        length (heap s') = length (heap s) ∧
        rand_calls s' = rand_calls s ∧
        ipxAddr (deref s' p) = ipxAddr (deref s p) ∧
        sent s' = sent s ++ [(ack_bytes (ipxAddr (deref s p)), peer)].
Proof.
  intros Hs Hd Hr Hp. unfold ProcessPacket. rewrite Hd, Hr. simpl.
  rewrite (NewClient_known _ _ _ _ p) by done.
  destruct (send_ack_spec peer p s Hs Hp) as (Hf & _ & Hrand & Hsent).
  destruct (consistent_deref s peer p Hs Hp) as (Hhp & _ & Hi).
  eexists. split; [reflexivity|].
  split; [exact (frame_clients _ _ Hf)|].
  split; [exact (frame_clientsByIPX _ _ Hf)|].
  split; [exact (frame_heap_length _ _ Hf)|].
  split; [done|]. split; [by destruct (frame_deref _ _ p _ Hf Hhp)|].
  rewrite Hsent, NewClient_reply_bytes; [done|].
  by destruct (byIPX_allocated _ Hs _ _ Hi).
Qed.

(** A registration from a peer without a client record, when [NewAddress]
    returns [a]: a new client object with the address [a], which no client
    held, is recorded under the peer and under [a], and the ack for [a]
    goes to the peer. *)
Lemma ProcessPacket_registration_new range fuel packet peer s header a s1 :
  consistent s →
  IPXHeader_Decode IPXHeader_zero packet = (true, header) →
  IsRegistrationPacket header = true →
  clients s !! peer = None →
  NewAddress fuel (time_Now s).2 = Some (a, s1) →
  ∃ s', ProcessPacket range fuel packet peer s = Some s' ∧
        let p := length (heap s) in
        clients s' = <[peer := p]> (clients s) ∧
        clientsByIPX s' = <[a := p]> (clientsByIPX s) ∧
        udpAddr (deref s' p) = peer ∧ ipxAddr (deref s' p) = a ∧
        lastReceiveTime (deref s' p) = clock s (now_calls s) ∧
        clientsByIPX s !! a = None ∧
        (∀ k q, clients s !! k = Some q → ipxAddr (deref s q) ≠ a) ∧
        sent s' = sent s ++ [(ack_bytes a, peer)].
Proof.
  intros Hs Hd Hr Hp Ha. unfold ProcessPacket. rewrite Hd, Hr. simpl.
  rewrite (NewClient_new _ _ _ _ a s1) by done.
  destruct (NewAddress_spec _ _ _ _ Ha) as (Hlen & Hrange & Hfree & Hf1).
  assert (Hf : frame s s1)
    by (eapply frame_trans; [apply frame_time_Now|done]).
  assert (Hsent1 : sent s1 = sent s).
  { apply NewAddress_loop_spec in Ha as (k & _ & _ & -> & _); done. }
  rewrite (frame_clientsByIPX _ _ (frame_time_Now s)) in Hfree.
  set (s2 := register peer a (clock s (now_calls s)) s1).
  set (p := length (heap s1)).
  assert (Hs2 : consistent s2).
  { apply consistent_register; try done.
    - by eapply consistent_frame.
    - by rewrite (frame_clients _ _ Hf).
    - by rewrite (frame_clientsByIPX _ _ Hf). }
  destruct (register_tables peer a (clock s (now_calls s)) s1)
    as (Hc2 & Hi2 & Hh2). fold s2 p in Hc2, Hi2, Hh2.
  assert (Hp2 : clients s2 !! peer = Some p)
    by (rewrite Hc2; apply lookup_insert_eq).
  assert (Hd2 : deref s2 p = {| udpAddr := peer; ipxAddr := a;
             lastReceiveTime := clock s (now_calls s);
             lastSendTime := Time_zero |}) by apply register_deref.
  destruct (send_ack_spec peer p s2 Hs2 Hp2) as (Hfa & Hrx & _ & Hsent).
  destruct (consistent_deref s2 peer p Hs2 Hp2) as (Hhp & _ & _).
  destruct (frame_deref _ _ p _ Hfa Hhp) as [Hu' Hi'].
  assert (Hpp : p = length (heap s)) by exact (frame_heap_length _ _ Hf).
  exists (send_ack p s2). split; [reflexivity|]. cbv zeta. rewrite <- Hpp.
  rewrite (frame_clients _ _ Hfa), (frame_clientsByIPX _ _ Hfa), Hc2, Hi2.
  rewrite (frame_clients _ _ Hf), (frame_clientsByIPX _ _ Hf).
  split; [done|]. split; [done|].
  split; [by rewrite Hu', Hd2|]. split; [by rewrite Hi', Hd2|].
  split; [by rewrite Hrx, Hd2|]. split; [done|].
  split.
  - intros k q Hk Heq.
    destruct (consistent_deref s k q Hs Hk) as (_ & _ & Hi). congruence.
  - rewrite Hsent, Hd2. simpl. rewrite NewClient_reply_bytes by done.
    f_equal. unfold s2, register. simpl. exact Hsent1.
Qed.

(** The registration is answered as soon as some candidate address is
    free: with fuel for [k + 1] draws when the [k]-th candidate is. *)
Lemma ProcessPacket_registration_returns range fuel packet peer s header k :
  IPXHeader_Decode IPXHeader_zero packet = (true, header) →
  IsRegistrationPacket header = true →
  clientsByIPX s !! candidate (time_Now s).2 k = None → (k < fuel)%nat →
  is_Some (ProcessPacket range fuel packet peer s).
Proof.
  intros Hd Hr Hk Hfuel. unfold ProcessPacket. rewrite Hd, Hr. simpl.
  destruct (clients s !! peer) as [p|] eqn:Hp.
  - rewrite (NewClient_known _ _ _ _ p) by done. eauto.
  - destruct (NewAddress_returns fuel (time_Now s).2 k Hk Hfuel)
      as [[a s1] Ha].
    rewrite (NewClient_new _ _ _ _ a s1) by done. eauto.
Qed.

(** ** Delivery of an accepted packet *)

(** An accepted packet that is not taken for a registration and is not
    addressed to the broadcast address: the sender's [lastReceiveTime]
    becomes the clock reading, and one datagram goes out, to the client
    that holds the destination address, if a registered client holds it;
    none goes out if none does. *)
Lemma ProcessPacket_unicast range fuel packet peer s header p :
  consistent s →
  accepted s packet peer header p →
  IsRegistrationPacket header = false →
  addr (dest header) ≠ ADDR_BROADCAST →
  ∃ s',
    ProcessPacket range fuel packet peer s = Some s' ∧
    lastReceiveTime (deref s' p) = clock s (now_calls s) ∧
    (∀ k q, clients s !! k = Some q →
            ipxAddr (deref s q) = addr (dest header) →
            sent s' = sent s ++ [(packet, k)]) ∧
    ((∀ k q, clients s !! k = Some q →
             ipxAddr (deref s q) ≠ addr (dest header)) →
     sent s' = sent s).
Proof.
  intros Hs (Hd & Hp & Hsrc) Hr Hdest.
  rewrite (ProcessPacket_accepted _ _ _ _ _ header p) by done.
  unfold IsBroadcast. rewrite bool_decide_eq_false_2 by done.
  eexists. split; [reflexivity|].
  pose proof (frame_refresh p s) as Hf.
  assert (Hs' : consistent (refresh p s)) by by eapply consistent_frame.
  assert (Hderef : ∀ k q, clients s !! k = Some q →
            ipxAddr (deref (refresh p s) q) = ipxAddr (deref s q)).
  { intros k q Hk. destruct (consistent_deref s k q Hs Hk) as (Hq & _ & _).
    by destruct (frame_deref _ _ q _ Hf Hq) as [_ ->]. }
  split; [|split].
  - rewrite keeps_rx_ForwardPacket. apply refresh_lastReceiveTime.
    destruct (consistent_deref s peer p Hs Hp) as (Hhp & _). eauto.
  - intros k q Hk Ha.
    rewrite (ForwardPacket_held header packet k q).
    + rewrite (sent_send_to packet k q); [done|done|].
      by rewrite (frame_clients _ _ Hf).
    + done.
    + by rewrite (frame_clients _ _ Hf).
    + by rewrite (Hderef k q).
  - intros Hnone. rewrite ForwardPacket_unheld; [done|done|].
    intros k q Hk. rewrite (frame_clients _ _ Hf) in Hk.
    rewrite (Hderef k q) by done. by eapply Hnone.
Qed.

(** The same for a packet addressed to the broadcast address: the
    datagrams that go out are, in some order, one copy of the packet per
    entry of the client table whose peer is not the sender. *)
Lemma ProcessPacket_broadcast range fuel packet peer s header p :
  (∀ m, range m ≡ₚ map_to_list m) →
  consistent s →
  accepted s packet peer header p →
  IsRegistrationPacket header = false →
  addr (dest header) = ADDR_BROADCAST →
  ∃ s' out,
    ProcessPacket range fuel packet peer s = Some s' ∧
    lastReceiveTime (deref s' p) = clock s (now_calls s) ∧
    sent s' = sent s ++ out ∧
    out ≡ₚ (λ kp, (packet, kp.1))
            <$> filter (λ kp, kp.1 ≠ peer) (map_to_list (clients s)).
Proof.
  intros Hrange Hs (Hd & Hp & Hsrc) Hr Hdest.
  rewrite (ProcessPacket_accepted _ _ _ _ _ header p) by done.
  unfold IsBroadcast. rewrite bool_decide_eq_true_2 by done.
  destruct (consistent_deref s peer p Hs Hp) as (Hhp & _ & _).
  destruct (ForwardBroadcastPacket_spec range Hrange header packet peer p
              (refresh p s)) as (_ & Hrx & out & Hsent & Hout).
  - eapply consistent_frame; [apply frame_refresh|done].
  - by rewrite (frame_clients _ _ (frame_refresh p s)).
  - destruct (frame_deref _ _ p _ (frame_refresh p s) Hhp) as [_ ->]. done.
  - rewrite (frame_clients _ _ (frame_refresh p s)) in Hout.
    exists (ForwardBroadcastPacket range header packet (refresh p s)), out.
    split; [done|]. split; [|split; [exact Hsent|exact Hout]].
    rewrite Hrx. apply refresh_lastReceiveTime. eauto.
Qed.

(** A datagram taken for a registration, from a peer with a client
    record: whatever its source node, it is answered with the ack for the
    address of the record, it is forwarded to nobody, and no client's
    [lastReceiveTime] changes. *)
Lemma ProcessPacket_taken_known range fuel packet peer s p :
  consistent s →
  taken_for_registration packet →
  clients s !! peer = Some p →
  ∃ s', ProcessPacket range fuel packet peer s = Some s' ∧
        clients s' = clients s ∧
        sent s' = sent s ++ [(ack_bytes (ipxAddr (deref s p)), peer)] ∧
        ∀ q, lastReceiveTime (deref s' q) = lastReceiveTime (deref s q).
Proof.
  intros Hs (header & Hd & Hr) Hp. unfold ProcessPacket.
  rewrite Hd, Hr. simpl.
  rewrite (NewClient_known _ _ _ _ p) by done.
  destruct (send_ack_spec peer p s Hs Hp) as (Hf & Hrx & _ & Hsent).
  destruct (consistent_deref s peer p Hs Hp) as (Hhp & _ & Hi).
  eexists. split; [reflexivity|].
  split; [exact (frame_clients _ _ Hf)|]. split; [|exact Hrx].
  rewrite Hsent, NewClient_reply_bytes; [done|].
  by destruct (byIPX_allocated _ Hs _ _ Hi).
Qed.

(** A datagram taken for a registration, from a peer without a client
    record: [ProcessPacket] returns as soon as one of the candidate
    addresses it has fuel for is free, and when it returns the peer has a
    new client record and has been sent an ack. *)
Lemma ProcessPacket_taken_unknown range fuel packet peer s :
  consistent s →
  taken_for_registration packet →
  clients s !! peer = None →
  (∀ k, clientsByIPX s !! candidate (time_Now s).2 k = None →
        (k < fuel)%nat →
        is_Some (ProcessPacket range fuel packet peer s)) ∧
  (∀ s', ProcessPacket range fuel packet peer s = Some s' →
         clients s' !! peer = Some (length (heap s)) ∧
         ∃ a, sent s' = sent s ++ [(ack_bytes a, peer)]).
Proof.
  intros Hs (header & Hd & Hr) Hp. split.
  - intros k Hk Hfuel.
    by apply (ProcessPacket_registration_returns range fuel packet peer s
                header k).
  - intros s' Hpp.
    destruct (NewAddress fuel (time_Now s).2) as [[a s1]|] eqn:Ha.
    + destruct (ProcessPacket_registration_new range fuel packet peer s
                  header a s1 Hs Hd Hr Hp Ha)
        as (s'' & Hpp' & Hc & _ & _ & _ & _ & _ & _ & Hsent).
      rewrite Hpp in Hpp'. injection Hpp' as <-.
      split; [rewrite Hc; apply lookup_insert_eq|]. by exists a.
    + unfold ProcessPacket in Hpp. rewrite Hd, Hr in Hpp. simpl in Hpp.
      rewrite NewClient_no_fuel in Hpp by done. discriminate.
Qed.

(** A datagram that is not taken for a registration is delivered, with
    the sender's [lastReceiveTime] set to the clock reading, when it is
    accepted: to every other client when its destination node is the
    broadcast address, and otherwise to the client that holds its
    destination address, if there is one. When it is not accepted, the
    server is left as it was, with nothing written to the socket. *)
Lemma ProcessPacket_data_path range fuel packet peer s :
  (∀ m, range m ≡ₚ map_to_list m) →
  consistent s →
  ¬ taken_for_registration packet →
  (∀ header p, accepted s packet peer header p →
     ∃ s', ProcessPacket range fuel packet peer s = Some s' ∧
           lastReceiveTime (deref s' p) = clock s (now_calls s) ∧
           (addr (dest header) = ADDR_BROADCAST →
              ∃ out, sent s' = sent s ++ out ∧
                     out ≡ₚ (λ kp, (packet, kp.1))
                             <$> filter (λ kp, kp.1 ≠ peer)
                                   (map_to_list (clients s))) ∧
           (addr (dest header) ≠ ADDR_BROADCAST →
              (∀ k q, clients s !! k = Some q →
                      ipxAddr (deref s q) = addr (dest header) →
                      sent s' = sent s ++ [(packet, k)]) ∧
              ((∀ k q, clients s !! k = Some q →
                       ipxAddr (deref s q) ≠ addr (dest header)) →
               sent s' = sent s))) ∧
  ((¬ ∃ header p, accepted s packet peer header p) →
     ProcessPacket range fuel packet peer s = Some s).
Proof.
  intros Hrange Hs Hnt. split; [|by apply ProcessPacket_dropped].
  intros header p Hacc.
  assert (Hr : IsRegistrationPacket header = false)
    by (apply (not_taken_for_registration packet); [apply Hacc|done]).
  destruct (decide (addr (dest header) = ADDR_BROADCAST)) as [Hb|Hb].
  - destruct (ProcessPacket_broadcast range fuel packet peer s header p
                Hrange Hs Hacc Hr Hb) as (s' & out & Hpp & Hrx & Hsent & Hout).
    exists s'. split; [exact Hpp|]. split; [exact Hrx|].
    split; [|done]. intros _. by exists out.
  - destruct (ProcessPacket_unicast range fuel packet peer s header p
                Hs Hacc Hr Hb) as (s' & Hpp & Hrx & Hheld & Hunheld).
    exists s'. split; [exact Hpp|]. split; [exact Hrx|].
    split; [done|]. intros _. by split.
Qed.

(** The other datagrams: one taken for a registration that is none on
    the wire. From a peer with a client record it is answered with an
    ack, it reaches no client, and no [lastReceiveTime] changes, also
    when its source node is the address of the record; from a peer
    without a record it creates one, as soon as a candidate address is
    free. *)
Lemma ProcessPacket_taken range fuel packet peer s :
  consistent s →
  ¬ wire_registration packet →
  taken_for_registration packet →
  (∀ p, clients s !! peer = Some p →
     ∃ s', ProcessPacket range fuel packet peer s = Some s' ∧
           sent s' = sent s ++ [(ack_bytes (ipxAddr (deref s p)), peer)] ∧
           ∀ q, lastReceiveTime (deref s' q) = lastReceiveTime (deref s q)) ∧
  (clients s !! peer = None →
     (∀ k, clientsByIPX s !! candidate (time_Now s).2 k = None →
           (k < fuel)%nat →
           is_Some (ProcessPacket range fuel packet peer s)) ∧
     (∀ s', ProcessPacket range fuel packet peer s = Some s' →
            clients s' !! peer = Some (length (heap s)) ∧
            ∃ a, sent s' = sent s ++ [(ack_bytes a, peer)])).
Proof.
  intros Hs _ Ht. split.
  - intros p Hp.
    destruct (ProcessPacket_taken_known range fuel packet peer s p Hs Ht Hp)
      as (s' & Hpp & _ & Hsent & Hrx).
    by exists s'.
  - intros Hp.
    by apply (ProcessPacket_taken_unknown range fuel packet peer s).
Qed.

(** C3: an accepted packet whose destination node is not the broadcast
    address. When it is not taken for a registration, and a registered
    client other than the sender holds the destination address, exactly
    one datagram goes out, the packet, to that client; when no registered
    client holds the address, nothing goes out. So far the claim. But
    when the destination address is the sender's own, the packet does not
    stop at the server: [ForwardPacket] has no test for the sender, and
    the packet goes back to the peer it came from. And when the packet is
    taken for a registration, which happens to every packet for the node
    00:00:00:00:00:00 whose destination socket has the low byte 2, it is
    forwarded to nobody and the sender is sent a registration ack. *)
Theorem C3_unicast_delivery range fuel packet peer s header p :
  consistent s →
  accepted s packet peer header p →
  addr (dest header) ≠ ADDR_BROADCAST →
  ∃ s',
    ProcessPacket range fuel packet peer s = Some s' ∧
    (¬ taken_for_registration packet →
       (∀ k q, clients s !! k = Some q → k ≠ peer →
               ipxAddr (deref s q) = addr (dest header) →
               sent s' = sent s ++ [(packet, k)]) ∧
       ((∀ k q, clients s !! k = Some q →
                ipxAddr (deref s q) ≠ addr (dest header)) →
        sent s' = sent s) ∧
       (addr (dest header) = addr (src header) →
        sent s' = sent s ++ [(packet, peer)])) ∧
    (taken_for_registration packet →
       sent s' = sent s ++ [(ack_bytes (ipxAddr (deref s p)), peer)]).
Proof.
  intros Hs Hacc Hdest. pose proof Hacc as (Hd & Hp & Hsrc).
  destruct (IsRegistrationPacket header) eqn:Hr.
  - apply (taken_for_registration_iff packet header Hd) in Hr.
    destruct (ProcessPacket_taken_known range fuel packet peer s p Hs Hr Hp)
      as (s' & Hpp & _ & Hsent & _).
    exists s'. split; [exact Hpp|]. split; [done|]. intros _. exact Hsent.
  - destruct (ProcessPacket_unicast range fuel packet peer s header p
                Hs Hacc Hr Hdest) as (s' & Hpp & _ & Hheld & Hunheld).
    exists s'. split; [exact Hpp|]. split.
    + intros _. split; [|split; [exact Hunheld|]].
      * intros k q Hk _ Ha. by apply (Hheld k q).
      * intros Hself. apply (Hheld peer p Hp). congruence.
    + intros Ht.
      apply (taken_for_registration_iff packet header Hd) in Ht. congruence.
Qed.

(** ** Keepalive pings *)

(** The 30 bytes [SendPing] writes. *)
Definition ping_bytes : list Z :=
  [0x00; 0x00; 0x00; 0x00; 0x00; 0x00;
   0x00; 0x00; 0x00; 0x00; 0xff; 0xff; 0xff; 0xff; 0xff; 0xff; 0x00; 0x02;
   0x00; 0x00; 0x00; 0x00; 0xff; 0xff; 0xff; 0xff; 0x00; 0x00; 0x00; 0x00].

Lemma SendPing_send_to p s : SendPing p s = send_to ping_bytes p s.
Proof. reflexivity. Qed.

(** [keeps_objects s s']: every client object has in [s'] the peer, the
    address and the [lastReceiveTime] it has in [s]. *)
Definition keeps_objects (s s' : IPXServer) : Prop :=
  ∀ p, udpAddr (deref s' p) = udpAddr (deref s p) ∧
       ipxAddr (deref s' p) = ipxAddr (deref s p) ∧
       lastReceiveTime (deref s' p) = lastReceiveTime (deref s p).

Lemma keeps_objects_send_to packet q s : keeps_objects s (send_to packet q s).
Proof.
  intros p. unfold send_to, deref; simpl.
  destruct (decide (q = p)) as [->|Hne].
  - rewrite list_lookup_alter_eq. by destruct (heap s !! p).
  - by rewrite list_lookup_alter_ne.
Qed.

Lemma keeps_objects_trans s1 s2 s3 :
  keeps_objects s1 s2 → keeps_objects s2 s3 → keeps_objects s1 s3.
Proof.
  intros H12 H23 p. destruct (H12 p) as (? & ? & ?), (H23 p) as (? & ? & ?).
  repeat split; congruence.
Qed.

(** A ping is one datagram of [ping_bytes] to the client's peer. *)
Lemma SendPing_sent p s :
  sent (SendPing p s) = sent s ++ [(ping_bytes, udpAddr (deref s p))].
Proof.
  rewrite SendPing_send_to. unfold send_to, deref; simpl.
  rewrite list_lookup_alter_eq. by destruct (heap s !! p).
Qed.

(** ** The timeout sweep *)

Lemma CheckClientTimeouts_body_spec now k p s :
  consistent s → clients s !! k = Some p →
  let s1 := CheckClientTimeouts_body now p s in
  consistent s1 ∧ keeps_objects s s1 ∧
  clients s1 = if bool_decide (lastReceiveTime (deref s p) + CLIENT_TIMEOUT
                               < now)
               then delete k (clients s) else clients s.
Proof.
  intros Hs Hk. unfold CheckClientTimeouts_body.
  set (s0 := if After now _ then SendPing p s else s).
  assert (Hf : frame s s0).
  { subst s0. destruct (After now _); [apply frame_SendPing|apply frame_refl]. }
  assert (Hko : keeps_objects s s0).
  { subst s0. destruct (After now _); [|done].
    rewrite SendPing_send_to. apply keeps_objects_send_to. }
  destruct (Hko p) as (Hu & _ & Hrx).
  destruct (consistent_deref s k p Hs Hk) as (_ & Hkk & _).
  assert (Hs0 : consistent s0) by by eapply consistent_frame.
  assert (Hk0 : clients s0 !! k = Some p) by by rewrite (frame_clients _ _ Hf).
  unfold After. rewrite Hrx. case_bool_decide.
  - split; [by apply (consistent_evict _ k)|]. split; [exact Hko|].
    simpl. by rewrite Hu, Hkk, (frame_clients _ _ Hf).
  - split; [done|]. split; [done|]. exact (frame_clients _ _ Hf).
Qed.

(** The rounds of the sweep over the entries [l] of the table: of the
    clients of [l], exactly those not heard of for more than
    [CLIENT_TIMEOUT] leave the table; the others stay, and so do the
    clients that are not in [l]. *)
Lemma CheckClientTimeouts_rounds now l s :
  consistent s → NoDup l.*1 →
  (∀ kp, kp ∈ l → clients s !! kp.1 = Some kp.2) →
  let s' := foldl (λ s kp,
              match clients s !! kp.1 with
              | Some client => CheckClientTimeouts_body now client s
              | None => s
              end) s l in
  consistent s' ∧ keeps_objects s s' ∧
  (∀ k, clients s !! k = None → clients s' !! k = None) ∧
  (∀ k p, clients s !! k = Some p →
     clients s' !! k =
       if bool_decide (k ∈ l.*1 ∧
                       lastReceiveTime (deref s p) + CLIENT_TIMEOUT < now)
       then None else Some p).
Proof.
  revert s. induction l as [|[k0 q0] l IH]; intros s Hs Hnd Hl;
    cbn [foldl fst snd].
  - split; [done|]. split; [done|]. split; [done|].
    intros k p Hk. rewrite bool_decide_eq_false_2; [done|].
    intros [H _]. by apply elem_of_nil in H.
  - apply NoDup_cons in Hnd as [Hk0 Hnd].
    assert (Hq0 : clients s !! k0 = Some q0) by (apply (Hl (k0, q0)); left).
    rewrite Hq0.
    destruct (CheckClientTimeouts_body_spec now k0 q0 s Hs Hq0)
      as (Hs1 & Hko1 & Hc1).
    set (s1 := CheckClientTimeouts_body now q0 s) in *.
    assert (Hother : ∀ k, k ≠ k0 → clients s1 !! k = clients s !! k).
    { intros k Hne. rewrite Hc1. case_bool_decide; [|done].
      by rewrite lookup_delete_ne. }
    destruct (IH s1 Hs1 Hnd) as (Hs' & Hko & Hnone & Hsome).
    { intros [k q] Hkq. simpl. rewrite Hother.
      - apply (Hl (k, q)). by right.
      - intros ->. apply Hk0. apply list_elem_of_fmap. by exists (k0, q). }
    split; [done|]. split; [by eapply keeps_objects_trans|].
    split.
    + intros k Hk. apply Hnone. rewrite Hc1.
      case_bool_decide; [|done]. apply lookup_delete_None. by right.
    + intros k p Hk. destruct (decide (k = k0)) as [->|Hne].
      * assert (p = q0) as -> by congruence.
        rewrite Hc1 in Hnone, Hsome. case_bool_decide as Hto.
        -- rewrite Hnone by apply lookup_delete_eq.
           rewrite bool_decide_eq_true_2; [done|]. split; [left|done].
        -- rewrite (Hsome k0 q0) by done.
           rewrite !bool_decide_eq_false_2; [done|by intros [_ ?]|].
           by intros [? _].
      * rewrite (Hsome k p) by by rewrite Hother.
        destruct (Hko1 p) as (_ & _ & ->).
        assert (Hiff :
          k ∈ l.*1 ∧ lastReceiveTime (deref s p) + CLIENT_TIMEOUT < now ↔
          k ∈ ((k0, q0) :: l).*1 ∧
          lastReceiveTime (deref s p) + CLIENT_TIMEOUT < now).
        { rewrite fmap_cons, elem_of_cons. simpl. tauto. }
        by rewrite (bool_decide_ext _ _ Hiff).
Qed.

Section sweep.

Variable range : gmap string nat → list (string * nat).
Hypothesis range_perm : ∀ m, range m ≡ₚ map_to_list m.

(** The sweep of the standalone server: a client leaves both tables when
    [now] is after its [lastReceiveTime] plus [CLIENT_TIMEOUT], and stays
    in both otherwise. *)
Lemma CheckClientTimeouts_spec s :
  consistent s →
  let now := clock s (now_calls s) in
  let s' := CheckClientTimeouts range s in
  ∀ k p, clients s !! k = Some p →
    (lastReceiveTime (deref s p) + CLIENT_TIMEOUT < now →
       clients s' !! k = None ∧
       clientsByIPX s' !! ipxAddr (deref s p) = None) ∧
    (now ≤ lastReceiveTime (deref s p) + CLIENT_TIMEOUT →
       clients s' !! k = Some p ∧
       clientsByIPX s' !! ipxAddr (deref s p) = Some p).
Proof.
  intros Hs now s' k p Hk.
  assert (Hrounds :
    consistent s' ∧ keeps_objects s s' ∧
    (∀ k, clients s !! k = None → clients s' !! k = None) ∧
    (∀ k p, clients s !! k = Some p →
       clients s' !! k =
         if bool_decide (k ∈ (range (clients s)).*1 ∧
                         lastReceiveTime (deref s p) + CLIENT_TIMEOUT < now)
         then None else Some p)).
  { apply (CheckClientTimeouts_rounds now (range (clients s)) (time_Now s).2).
    - eapply consistent_frame; [apply frame_time_Now|done].
    - rewrite range_perm. apply NoDup_fst_map_to_list.
    - intros [k' q] Hkq. by apply (range_lookup range range_perm). }
  clearbody s'. destruct Hrounds as (Hs' & Hko & Hnone & Hsome).
  assert (Hin : k ∈ (range (clients s)).*1).
  { rewrite range_perm. apply list_elem_of_fmap. exists (k, p).
    split; [done|]. by apply elem_of_map_to_list. }
  specialize (Hsome k p Hk) as Hkp.
  destruct (Hko p) as (_ & Hi & _).
  destruct (consistent_deref s k p Hs Hk) as (_ & _ & Hbyipx).
  split; intros Hto.
  - rewrite bool_decide_eq_true_2 in Hkp by done. split; [done|].
    destruct (clientsByIPX s' !! ipxAddr (deref s p)) as [q|] eqn:Hq; [|done].
    destruct (consistent_deref_byIPX s' _ q Hs' Hq) as (_ & Hiq & Hkq).
    destruct (clients s !! udpAddr (deref s' q)) as [q'|] eqn:Hq'.
    + pose proof (Hsome _ _ Hq') as Hsq. rewrite Hkq in Hsq.
      case_bool_decide; [done|]. injection Hsq as <-.
      destruct (Hko q) as (_ & Hiq' & _). rewrite Hiq' in Hiq.
      destruct (decide (udpAddr (deref s' q) = k)) as [Heq|Hne].
      * congruence.
      * by destruct (consistent_distinct s _ _ _ _ Hs Hq' Hk Hne).
    + rewrite (Hnone _ Hq') in Hkq. done.
  - rewrite bool_decide_eq_false_2 in Hkp by (intros [_ ?]; lia).
    split; [done|].
    destruct (consistent_deref s' k p Hs' Hkp) as (_ & _ & Hb).
    by rewrite Hi in Hb.
Qed.

End sweep.

(** The lost high byte reaches the dispatch of [ProcessPacket]: a datagram
    whose destination socket is 0x0102 and whose destination node is
    all-zero decodes to a header with the destination socket 2, and is
    handled as a registration. *)
Example ProcessPacket_socket_0x0102 :
  let packet := demo_packet ADDR_NULL ADDR_NULL 0x0102 in
  slice packet 16 18 = [0x01; 0x02] ∧
  IsRegistrationPacket (IPXHeader_Decode IPXHeader_zero packet).2 = true ∧
  ProcessPacket map_to_list 1 packet "10.0.0.1:1001" demo0
  = ProcessPacket map_to_list 1 demo_registration "10.0.0.1:1001" demo0.
Proof. repeat split. Qed.

End main_spec.

(** * Properties of the server of package server *)

Module server_spec.
Import server.

(** [steady s s']: the configuration and the oracles are those of [s], the
    clock has not been read fewer times, and every client object has the
    peer, the node and the [lastReceiveTime] it has in [s]. *)
Record steady (s s' : Server) : Prop := {
  steady_config : config s' = config s;
  steady_clock : clock s' = clock s;
  steady_now_calls : (now_calls s ≤ now_calls s')%nat;
  steady_net : net s' = net s;
  steady_nodes_made : nodes_made s' = nodes_made s;
  steady_heap_length : length (heap s') = length (heap s);
  steady_deref : ∀ c, addr (deref s' c) = addr (deref s c) ∧
                      node (deref s' c) = node (deref s c) ∧
                      lastReceiveTime (deref s' c)
                        = lastReceiveTime (deref s c);
}.

Lemma steady_refl s : steady s s.
Proof. split; auto. Qed.

Lemma steady_trans s1 s2 s3 : steady s1 s2 → steady s2 s3 → steady s1 s3.
Proof.
  intros [A1 B1 C1 D1 E1 F1 G1] [A2 B2 C2 D2 E2 F2 G2].
  split; try congruence; try lia.
  intros c. destruct (G1 c) as (? & ? & ?), (G2 c) as (? & ? & ?).
  repeat split; congruence.
Qed.

Lemma steady_time_Now s : steady s (time_Now s).2.
Proof. split; simpl; auto. Qed.

Lemma steady_emit e s : steady s (emit e s).
Proof. split; simpl; auto. Qed.

Lemma steady_set_clients f s : steady s (set_clients f s).
Proof. split; simpl; auto. Qed.

Lemma steady_set_timeoutCheckTime t s : steady s (set_timeoutCheckTime t s).
Proof. split; simpl; auto. Qed.

Lemma deref_store_lastSendTime c t s c' :
  deref (store_lastSendTime c t s) c' =
    if decide (c = c') then
      {| addr := addr (deref s c); node := node (deref s c);
         lastReceiveTime := lastReceiveTime (deref s c);
         lastSendTime := match heap s !! c with
                         | Some _ => t
                         | None => lastSendTime (deref s c)
                         end |}
    else deref s c'.
Proof.
  unfold deref, store_lastSendTime; simpl.
  destruct (decide (c = c')) as [->|Hne].
  - rewrite list_lookup_alter_eq. by destruct (heap s !! c').
  - by rewrite list_lookup_alter_ne.
Qed.

Lemma steady_store_lastSendTime c t s : steady s (store_lastSendTime c t s).
Proof.
  split; simpl; auto.
  - apply length_alter.
  - intros c'. rewrite deref_store_lastSendTime.
    destruct (decide (c = c')) as [->|]; done.
Qed.

(** ** The client table *)

(** [inv s]: every entry of the client table points to a client object of
    its own peer, and two entries never share a node. *)
Record inv (s : Server) : Prop := {
  clients_valid : ∀ k c, clients s !! k = Some c →
    ∃ x, heap s !! c = Some x ∧ addr x = k;
  nodes_distinct : ∀ k1 k2 c1 c2,
    clients s !! k1 = Some c1 → clients s !! k2 = Some c2 →
    node (deref s c1) = node (deref s c2) → k1 = k2;
}.

Lemma inv_deref s k c :
  inv s → clients s !! k = Some c →
  is_Some (heap s !! c) ∧ addr (deref s c) = k.
Proof.
  intros Hs Hk. destruct (clients_valid _ Hs k c Hk) as (x & Hx & Ha).
  unfold deref. rewrite Hx. eauto.
Qed.

(** Two entries never share a client object. *)
Lemma inv_pointers s k1 k2 c :
  inv s → clients s !! k1 = Some c → clients s !! k2 = Some c → k1 = k2.
Proof.
  intros Hs H1 H2.
  destruct (inv_deref s k1 c Hs H1) as [_ <-].
  by destruct (inv_deref s k2 c Hs H2) as [_ <-].
Qed.

Lemma inv_steady s s' :
  steady s s' → clients s' = clients s → inv s → inv s'.
Proof.
  intros Hst Hc [H1 H2]. split; rewrite Hc.
  - intros k c Hk. destruct (H1 k c Hk) as (x & Hx & Ha).
    assert (Hlt : (c < length (heap s'))%nat).
    { rewrite (steady_heap_length _ _ Hst). by eapply lookup_lt_Some. }
    destruct (lookup_lt_is_Some_2 _ _ Hlt) as [x' Hx'].
    exists x'. split; [done|].
    destruct (steady_deref _ _ Hst c) as (Ha' & _).
    unfold deref in Ha'. rewrite Hx, Hx' in Ha'. simpl in Ha'. congruence.
  - intros k1 k2 c1 c2 Hk1 Hk2 Hn. apply (H2 k1 k2 c1 c2 Hk1 Hk2).
    destruct (steady_deref _ _ Hst c1) as (_ & <- & _).
    by destruct (steady_deref _ _ Hst c2) as (_ & <- & _).
Qed.

Lemma inv_delete s k :
  inv s → inv (set_clients (delete k) s).
Proof.
  intros [H1 H2]. split; simpl.
  - intros k' c Hk. apply lookup_delete_Some in Hk as [_ Hk]. eauto.
  - intros k1 k2 c1 c2 Hk1 Hk2.
    apply lookup_delete_Some in Hk1 as [_ Hk1].
    apply lookup_delete_Some in Hk2 as [_ Hk2]. eauto.
Qed.

(** ** Keepalive pings and the sweep *)

Section sweep.

Variable MarshalBinary : ipx.Header → option (list Z).

(** What a ping to the peer [to] does to the outside. *)
Definition ping_effects (to : string) : list effect :=
  match MarshalBinary sendPing_header with
  | Some encodedHeader => [WriteToUDP encodedHeader to]
  | None => []
  end.

Lemma sendPing_spec c s :
  is_Some (heap s !! c) →
  let s' := sendPing MarshalBinary c s in
  steady s s' ∧ clients s' = clients s ∧
  trace s' = trace s ++ ping_effects (addr (deref s c)) ∧
  lastSendTime (deref s' c) = clock s (now_calls s) ∧
  (∀ c', c' ≠ c → deref s' c' = deref s c').
Proof.
  intros [x Hx]. unfold ping_effects.
  set (s1 := store_lastSendTime c (clock s (now_calls s)) (time_Now s).2).
  change (sendPing MarshalBinary c s)
    with (match MarshalBinary sendPing_header with
          | Some e => emit (WriteToUDP e (addr (deref s1 c))) s1
          | None => s1
          end).
  assert (Hst : steady s s1).
  { eapply steady_trans; [apply steady_time_Now|].
    apply steady_store_lastSendTime. }
  assert (Hc : deref s1 c = {| addr := addr x; node := node x;
            lastReceiveTime := lastReceiveTime x;
            lastSendTime := clock s (now_calls s) |}).
  { unfold s1. rewrite deref_store_lastSendTime, decide_True by done.
    unfold deref. simpl. rewrite Hx. reflexivity. }
  assert (Ho : ∀ c', c' ≠ c → deref s1 c' = deref s c').
  { intros c' Hne. unfold s1.
    rewrite deref_store_lastSendTime, decide_False by done. reflexivity. }
  assert (Ha : addr (deref s1 c) = addr (deref s c)).
  { rewrite Hc. unfold deref. rewrite Hx. reflexivity. }
  destruct (MarshalBinary sendPing_header) as [e|].
  - split; [eapply steady_trans; [exact Hst|apply steady_emit]|].
    split; [reflexivity|]. split; [simpl; by rewrite Ha|].
    split; [|exact Ho].
    change (deref (emit _ s1) c) with (deref s1 c). by rewrite Hc.
  - split; [exact Hst|]. split; [reflexivity|].
    split; [by rewrite app_nil_r|].
    split; [by rewrite Hc|exact Ho].
Qed.

(** One round of the sweep, for the entry [k] of the table that points to
    [c]: a ping when the keepalive is due, the eviction when the timeout
    has passed, and the next check time lowered to the two deadlines of
    the client, evicted or not. *)
Lemma checkClientTimeouts_body_spec now k c next s :
  inv s → clients s !! k = Some c →
  let due := bool_decide
    (lastSendTime (deref s c) + KeepaliveTime (config s) < now) in
  let dead := bool_decide
    (lastReceiveTime (deref s c) + ClientTimeout (config s) < now) in
  let st := checkClientTimeouts_body MarshalBinary now c (next, s) in
  inv st.2 ∧ steady s st.2 ∧
  clients st.2 = (if dead then delete k (clients s) else clients s) ∧
  trace st.2 = trace s ++ (if due then ping_effects k else [])
                       ++ (if dead then [NodeClose (node (deref s c))]
                           else []) ∧
  lastSendTime (deref st.2 c)
    = (if due then clock s (now_calls s) else lastSendTime (deref s c)) ∧
  (∀ c', c' ≠ c → deref st.2 c' = deref s c') ∧
  st.1 = Z.min (Z.min next (lastSendTime (deref st.2 c)
                            + KeepaliveTime (config s)))
               (lastReceiveTime (deref s c) + ClientTimeout (config s)).
Proof.
  intros Hs Hk due dead.
  destruct (inv_deref s k c Hs Hk) as [Hx Ha].
  destruct (sendPing_spec c s Hx) as (Hst & Hcl & Htr & Hls & Ho).
  set (s0 := if due then sendPing MarshalBinary c s else s).
  assert (Hst0 : steady s s0).
  { unfold s0. destruct due; [done|apply steady_refl]. }
  assert (Hcl0 : clients s0 = clients s) by (unfold s0; by destruct due).
  assert (Htr0 : trace s0 = trace s ++ (if due then ping_effects k else [])).
  { unfold s0. destruct due; [by rewrite Htr, Ha|by rewrite app_nil_r]. }
  assert (Hls0 : lastSendTime (deref s0 c)
            = if due then clock s (now_calls s) else lastSendTime (deref s c)).
  { unfold s0. by destruct due. }
  assert (Ho0 : ∀ c', c' ≠ c → deref s0 c' = deref s c').
  { unfold s0. destruct due; [done|]. done. }
  destruct (steady_deref _ _ Hst0 c) as (Ha0 & Hn0 & Hr0).
  set (s1 := if dead
             then emit (NodeClose (node (deref s0 c)))
                    (set_clients (delete (addr (deref s0 c))) s0)
             else s0).
  set (kt := lastSendTime (deref s0 c) + KeepaliveTime (config s0)).
  set (tt := lastReceiveTime (deref s0 c) + ClientTimeout (config s0)).
  assert (Hbody : checkClientTimeouts_body MarshalBinary now c (next, s) =
    (let n1 := if Before kt next then kt else next in
     if Before tt n1 then tt else n1, s1)).
  { assert (Hdead0 : bool_decide (tt < now) = dead).
    { unfold tt, dead. by rewrite Hr0, (steady_config _ _ Hst0). }
    unfold checkClientTimeouts_body, After. cbv zeta. fold due.
    unfold s1, kt, tt in *. unfold s0 in *.
    destruct due; cbv beta iota; rewrite Hdead0; reflexivity. }
  intros st. unfold st. rewrite Hbody. clear st Hbody. simpl.
  assert (Hd1 : ∀ c', deref s1 c' = deref s0 c').
  { intros c'. unfold s1. by destruct dead. }
  split; [|split; [|split; [|split; [|split; [|split]]]]].
  - unfold s1. destruct dead.
    + apply (inv_steady (set_clients (delete (addr (deref s0 c))) s0));
        [apply steady_emit|reflexivity|].
      apply inv_delete. by apply (inv_steady s).
    + by apply (inv_steady s).
  - unfold s1. destruct dead; [|done].
    eapply steady_trans; [exact Hst0|].
    eapply steady_trans; [apply steady_set_clients|apply steady_emit].
  - unfold s1. destruct dead; simpl; [|done]. by rewrite Ha0, Ha, Hcl0.
  - unfold s1. destruct dead; simpl.
    + by rewrite Htr0, Hn0, <- app_assoc.
    + by rewrite Htr0, app_nil_r.
  - by rewrite Hd1.
  - intros c' Hne. rewrite Hd1. by apply Ho0.
  - rewrite Hd1. unfold kt, tt, Before.
    rewrite (steady_config _ _ Hst0), Hr0.
    repeat case_bool_decide; lia.
Qed.

(** The keepalive of the client [c] is due, the client [c] has timed out:
    the two tests of the sweep, at the time [now]. *)
Definition due (now : Z) (s : Server) (c : nat) : Prop :=
  lastSendTime (deref s c) + KeepaliveTime (config s) < now.
Definition dead (now : Z) (s : Server) (c : nat) : Prop :=
  lastReceiveTime (deref s c) + ClientTimeout (config s) < now.

#[local] Instance due_dec now s c : Decision (due now s c).
Proof. unfold due. apply _. Defined.

#[local] Instance dead_dec now s c : Decision (dead now s c).
Proof. unfold dead. apply _. Defined.

(** What the rounds of the sweep over the entries [l] make of the state
    [s] and of the next check time [next]. *)
Record swept (now : Z) (l : list (string * nat)) (next : Z) (s : Server)
    (st : Z * Server) : Prop := {
  swept_inv : inv st.2;
  swept_steady : steady s st.2;
  swept_absent : ∀ k, clients s !! k = None → clients st.2 !! k = None;
  swept_table : ∀ k c, clients s !! k = Some c →
    clients st.2 !! k =
      if bool_decide (k ∈ l.*1 ∧ dead now s c) then None else Some c;
  swept_trace : ∃ es, trace st.2 = trace s ++ es ∧
    ∀ n, NodeClose n ∈ es ↔
         ∃ k c, (k, c) ∈ l ∧ dead now s c ∧ node (deref s c) = n;
  swept_others : ∀ c, (∀ kp, kp ∈ l → kp.2 ≠ c) → deref st.2 c = deref s c;
  swept_lastSendTime : ∀ k c, (k, c) ∈ l →
    (¬ due now s c → lastSendTime (deref st.2 c) = lastSendTime (deref s c)) ∧
    (due now s c → ∃ i, (now_calls s ≤ i)%nat ∧
                        lastSendTime (deref st.2 c) = clock s i);
  swept_le : st.1 ≤ next;
  swept_bound : ∀ k c, (k, c) ∈ l →
    st.1 ≤ lastSendTime (deref st.2 c) + KeepaliveTime (config s) ∧
    st.1 ≤ lastReceiveTime (deref s c) + ClientTimeout (config s);
  swept_attained : st.1 = next ∨
    ∃ k c, (k, c) ∈ l ∧
      (st.1 = lastSendTime (deref st.2 c) + KeepaliveTime (config s) ∨
       st.1 = lastReceiveTime (deref s c) + ClientTimeout (config s));
}.

Lemma ping_effects_no_close k n : NodeClose n ∉ ping_effects k.
Proof.
  unfold ping_effects. destruct (MarshalBinary sendPing_header).
  - intros H. apply list_elem_of_singleton in H. discriminate.
  - apply not_elem_of_nil.
Qed.

Lemma checkClientTimeouts_rounds now l next s :
  inv s → NoDup l.*1 →
  (∀ kp, kp ∈ l → clients s !! kp.1 = Some kp.2) →
  swept now l next s (checkClientTimeouts_loop MarshalBinary now (next, s) l).
Proof.
  revert next s. induction l as [|[k0 c0] l IH]; intros next s Hs Hnd Hl.
  - unfold checkClientTimeouts_loop. cbn [foldl]. split; cbn [fst snd].
    + done.
    + apply steady_refl.
    + done.
    + intros k c Hk. rewrite bool_decide_eq_false_2; [done|].
      intros [H _]. by apply elem_of_nil in H.
    + exists []. split; [by rewrite app_nil_r|]. intros n. split.
      * intros H. by apply elem_of_nil in H.
      * intros (k & c & H & _). by apply elem_of_nil in H.
    + done.
    + intros k c H. by apply elem_of_nil in H.
    + lia.
    + intros k c H. by apply elem_of_nil in H.
    + by left.
  - apply NoDup_cons in Hnd as [Hk0 Hnd].
    assert (Hc0 : clients s !! k0 = Some c0) by (apply (Hl (k0, c0)); left).
    unfold checkClientTimeouts_loop. cbn [foldl fst snd]. rewrite Hc0.
    destruct (checkClientTimeouts_body_spec now k0 c0 next s Hs Hc0)
      as (Hs1 & Hst1 & Hcl1 & Htr1 & Hls1 & Ho1 & Hn1).
    destruct (checkClientTimeouts_body MarshalBinary now c0 (next, s))
      as [next1 s1]. simpl in Hs1, Hst1, Hcl1, Htr1, Hls1, Ho1, Hn1.
    fold (checkClientTimeouts_loop MarshalBinary now (next1, s1) l).
    fold (due now s c0) in Htr1, Hls1. fold (dead now s c0) in Hcl1, Htr1.
    assert (Htr1' : ∃ es1, trace s1 = trace s ++ es1 ∧
              ∀ n, NodeClose n ∈ es1 ↔ dead now s c0 ∧ node (deref s c0) = n).
    { eexists. split; [exact Htr1|]. intros n. rewrite elem_of_app. split.
      - intros [Hp|Hc].
        + destruct (bool_decide (due now s c0));
            [by apply ping_effects_no_close in Hp|by apply elem_of_nil in Hp].
        + destruct (decide (dead now s c0)) as [Hd|Hd].
          * rewrite bool_decide_eq_true_2 in Hc by done.
            apply list_elem_of_singleton in Hc. by injection Hc as ->.
          * rewrite bool_decide_eq_false_2 in Hc by done.
            by apply elem_of_nil in Hc.
      - intros [Hd <-]. right. rewrite bool_decide_eq_true_2 by done.
        by apply list_elem_of_singleton. }
    clear Htr1. destruct Htr1' as (es1 & Htr1 & Hes1).
    (* the entries of [l] are other entries, with other client objects *)
    assert (Hne : ∀ k c, (k, c) ∈ l → k ≠ k0 ∧ c ≠ c0).
    { intros k c Hkc.
      assert (k ≠ k0).
      { intros ->. apply Hk0. apply list_elem_of_fmap. by exists (k0, c). }
      split; [done|]. intros ->.
      assert (clients s !! k = Some c0) by (apply (Hl (k, c0)); by right).
      by pose proof (inv_pointers s k k0 c0 Hs ltac:(done) Hc0). }
    assert (Hother : ∀ k, k ≠ k0 → clients s1 !! k = clients s !! k).
    { intros k Hk. rewrite Hcl1.
      destruct (bool_decide (dead now s c0)); [|done].
      by rewrite lookup_delete_ne. }
    assert (Hl1 : ∀ kp, kp ∈ l → clients s1 !! kp.1 = Some kp.2).
    { intros [k c] Hkc. simpl. destruct (Hne k c Hkc) as [? _].
      rewrite Hother by done. apply (Hl (k, c)). by right. }
    destruct (IH next1 s1 Hs1 Hnd Hl1)
      as [Ji Jst Jabs Jtab (es & Jtr & Jcl) Joth Jls Jle Jbd Jat].
    set (st := checkClientTimeouts_loop MarshalBinary now (next1, s1) l) in *.
    assert (Hcfg : config s1 = config s) by apply Hst1.
    assert (Hdead : ∀ c, dead now s1 c ↔ dead now s c).
    { intros c. unfold dead. rewrite Hcfg.
      by destruct (steady_deref _ _ Hst1 c) as (_ & _ & ->). }
    assert (Hdue : ∀ c, c ≠ c0 → due now s1 c ↔ due now s c).
    { intros c Hc. unfold due. by rewrite Hcfg, Ho1. }
    assert (Hc0' : deref st.2 c0 = deref s1 c0).
    { apply Joth. intros [k c] Hkc. simpl. by destruct (Hne k c Hkc). }
    split.
    + done.
    + by eapply steady_trans.
    + intros k Hk. apply Jabs. rewrite Hcl1.
      destruct (bool_decide (dead now s c0)); [|done].
      apply lookup_delete_None. by right.
    + intros k c Hk. destruct (decide (k = k0)) as [->|Hk'].
      * assert (c = c0) as -> by congruence.
        destruct (decide (dead now s c0)) as [Hto|Hto].
        -- rewrite bool_decide_eq_true_2 in Hcl1 by done.
           rewrite Jabs by (rewrite Hcl1; apply lookup_delete_eq).
           rewrite bool_decide_eq_true_2; [done|]. split; [left|done].
        -- rewrite bool_decide_eq_false_2 in Hcl1 by done.
           rewrite (Jtab k0 c0) by (by rewrite Hcl1).
           rewrite (bool_decide_eq_false_2 (k0 ∈ l.*1 ∧ _))
             by (by intros [? _]).
           rewrite bool_decide_eq_false_2; [done|]. by intros [_ ?].
      * rewrite (Jtab k c) by by rewrite Hother.
        assert (Hiff : k ∈ l.*1 ∧ dead now s1 c ↔
                       k ∈ ((k0, c0) :: l).*1 ∧ dead now s c).
        { rewrite fmap_cons, elem_of_cons, Hdead. simpl. tauto. }
        by rewrite (bool_decide_ext _ _ Hiff).
    + exists (es1 ++ es). split; [by rewrite Jtr, Htr1, <- app_assoc|].
      intros n. rewrite elem_of_app, Jcl, Hes1. split.
      * intros [[Hd Hn]|(k & c & Hkc & Hd & Hn)].
        -- exists k0, c0. split; [left|done].
        -- exists k, c. split; [by right|]. split; [by apply Hdead|].
           by destruct (steady_deref _ _ Hst1 c) as (_ & <- & _).
      * intros (k & c & Hkc & Hd & Hn). apply elem_of_cons in Hkc as [Heq|Hkc].
        -- injection Heq as -> ->. by left.
        -- right. exists k, c. split; [done|].
           split; [by apply Hdead|].
           by destruct (steady_deref _ _ Hst1 c) as (_ & -> & _).
    + intros c Hc. rewrite Joth, Ho1; [done| |].
      * intros ->. apply (Hc (k0, c0)); [left|done].
      * intros kp Hkp. apply Hc. by right.
    + intros k c Hkc. apply elem_of_cons in Hkc as [Heq|Hkc].
      * injection Heq as -> ->. rewrite Hc0', Hls1.
        split; intros Hd.
        -- by rewrite bool_decide_eq_false_2.
        -- rewrite bool_decide_eq_true_2 by done. exists (now_calls s).
           split; [lia|done].
      * destruct (Hne k c Hkc) as [_ Hc]. destruct (Jls k c Hkc) as [J1 J2].
        rewrite Hdue, Ho1 in J1 by done. split; [done|].
        intros Hd. rewrite Hdue in J2 by done.
        destruct (J2 Hd) as (i & Hi & ->). exists i.
        rewrite (steady_clock _ _ Hst1). split; [|done].
        pose proof (steady_now_calls _ _ Hst1). lia.
    + simpl in *. lia.
    + intros k c Hkc. apply elem_of_cons in Hkc as [Heq|Hkc].
      * injection Heq as -> ->. rewrite Hc0'. simpl in *. lia.
      * destruct (Jbd k c Hkc) as [J1 J2]. rewrite Hcfg in J1, J2.
        destruct (steady_deref _ _ Hst1 c) as (_ & _ & Hr).
        rewrite Hr in J2. done.
    + assert (Hcases : next1 = next ∨
                next1 = lastSendTime (deref s1 c0) + KeepaliveTime (config s) ∨
                next1 = lastReceiveTime (deref s c0) + ClientTimeout (config s))
        by lia.
      destruct Jat as [Jat|(k & c & Hkc & Jat)].
      * simpl in Jat. rewrite Jat.
        destruct Hcases as [?|Hcases]; [by left|].
        right. exists k0, c0. split; [left|]. by rewrite Hc0'.
      * right. exists k, c. split; [by right|]. rewrite Hcfg in Jat.
        destruct (steady_deref _ _ Hst1 c) as (_ & _ & Hr).
        by rewrite Hr in Jat.
Qed.

Variable range : gmap string nat → list (string * nat).
Hypothesis range_perm : ∀ m, range m ≡ₚ map_to_list m.

Lemma range_entries m k c : (k, c) ∈ range m ↔ m !! k = Some c.
Proof. rewrite range_perm. apply elem_of_map_to_list. Qed.

Lemma dead_time_Now now s c :
  dead now (time_Now s).2 c ↔
  lastReceiveTime (deref s c) + ClientTimeout (config s) < now.
Proof. reflexivity. Qed.


(** The sweep as a whole, whatever the order in which it visits the
    table. *)
Lemma checkClientTimeouts_swept s :
  inv s →
  swept (clock s (now_calls s)) (range (clients s))
    (clock s (now_calls s) + 10 * 1000000000) (time_Now s).2
    (checkClientTimeouts MarshalBinary range s).
Proof.
  intros Hs. apply checkClientTimeouts_rounds.
  - apply (inv_steady s); [apply steady_time_Now|reflexivity|done].
  - rewrite range_perm. apply NoDup_fst_map_to_list.
  - intros [k c] Hkc. by apply range_entries.
Qed.

(** The sweep evicts the clients from which nothing has been received for
    more than [ClientTimeout], closing their nodes, and no others. *)
Lemma checkClientTimeouts_evicts s :
  inv s →
  let now := clock s (now_calls s) in
  let st := checkClientTimeouts MarshalBinary range s in
  inv st.2 ∧
  ∃ es, trace st.2 = trace s ++ es ∧
    ∀ k c, clients s !! k = Some c →
      (lastReceiveTime (deref s c) + ClientTimeout (config s) < now →
         clients st.2 !! k = None ∧ NodeClose (node (deref s c)) ∈ es) ∧
      (now ≤ lastReceiveTime (deref s c) + ClientTimeout (config s) →
         clients st.2 !! k = Some c ∧ NodeClose (node (deref s c)) ∉ es).
Proof.
  intros Hs now st.
  destruct (checkClientTimeouts_swept s Hs)
    as [Ji _ _ Jtab (es & Jtr & Jcl) _ _ _ _ _].
  fold st in Ji, Jtab, Jtr, Jcl. fold now in Jtab, Jcl.
  split; [done|]. exists es. split; [exact Jtr|].
  intros k c Hk. specialize (Jtab k c Hk).
  assert (Hin : k ∈ (range (clients s)).*1).
  { apply list_elem_of_fmap. exists (k, c). split; [done|].
    by apply range_entries. }
  split; intros Hto.
  - rewrite bool_decide_eq_true_2 in Jtab
      by (split; [done|exact (proj2 (dead_time_Now _ _ _) Hto)]).
    split; [done|].
    apply Jcl. exists k, c. split; [by apply range_entries|].
    split; [exact (proj2 (dead_time_Now _ _ _) Hto)|done].
  - rewrite bool_decide_eq_false_2 in Jtab
      by (intros [_ Hd]; apply (proj1 (dead_time_Now _ _ _)) in Hd; lia).
    split; [done|]. rewrite Jcl. intros (k' & c' & Hkc' & Hd & Hn).
    apply range_entries in Hkc'. simpl in Hkc'.
    assert (k' = k) as -> by by eapply (nodes_distinct _ Hs).
    assert (c' = c) as -> by congruence.
    apply (proj1 (dead_time_Now _ _ _)) in Hd. lia.
Qed.


End sweep.

(** ** Registration and the packet path *)

Section packets.

Variable Address : Node → list Z.
Variable UnmarshalBinary : list Z → option ipx.Header.
Variable MarshalBinary : ipx.Header → option (list Z).

(** What the reply of [newClient] to the peer [to], for a client whose
    node has the address [a], does to the outside. *)
Definition ack_effects (a : list Z) (to : string) : list effect :=
  match MarshalBinary (newClient_reply a) with
  | Some encodedReply => [WriteToUDP encodedReply to]
  | None => []
  end.

(** The part of [newClient] that records a new client. *)
Definition register (peer : string) (s : Server) : Server :=
  let '(now, s) := time_Now s in
  let '(n, s) := NewNode s in
  let c := length (heap s) in
  let s := set_heap (λ h, h ++ [{| addr := peer; node := n;
                                   lastReceiveTime := now;
                                   lastSendTime := 0 |}]) s in
  let s := set_clients <[peer := c]> s in
  emit (GoRunClient c) s.

(** The part of [newClient] that replies. *)
Definition send_ack (c : nat) (s : Server) : Server :=
  let reply := newClient_reply (Address (node (deref s c))) in
  let '(t, s) := time_Now s in
  let s := store_lastSendTime c t s in
  match MarshalBinary reply with
  | Some encodedReply => emit (WriteToUDP encodedReply (addr (deref s c))) s
  | None => s
  end.

Lemma newClient_known header peer s c :
  clients s !! peer = Some c →
  newClient Address MarshalBinary header peer s = send_ack c s.
Proof. intros Hc. unfold newClient. rewrite Hc. reflexivity. Qed.

Lemma newClient_new header peer s :
  clients s !! peer = None →
  newClient Address MarshalBinary header peer s
  = send_ack (length (heap s)) (register peer s).
Proof. intros Hc. unfold newClient. rewrite Hc. reflexivity. Qed.

Lemma send_ack_effects c s :
  let s' := send_ack c s in
  steady s s' ∧ clients s' = clients s ∧
  timeoutCheckTime s' = timeoutCheckTime s ∧
  trace s' = trace s
             ++ ack_effects (Address (node (deref s c))) (addr (deref s c)).
Proof.
  unfold ack_effects.
  set (s1 := store_lastSendTime c (clock s (now_calls s)) (time_Now s).2).
  change (send_ack c s)
    with (match MarshalBinary (newClient_reply (Address (node (deref s c))))
          with
          | Some e => emit (WriteToUDP e (addr (deref s1 c))) s1
          | None => s1
          end).
  assert (Hst : steady s s1).
  { eapply steady_trans; [apply steady_time_Now|].
    apply steady_store_lastSendTime. }
  destruct (steady_deref _ _ Hst c) as (Ha & _ & _).
  destruct (MarshalBinary _) as [e|]; simpl.
  - split; [eapply steady_trans; [exact Hst|apply steady_emit]|].
    by rewrite Ha.
  - split; [exact Hst|]. by rewrite app_nil_r.
Qed.

Lemma register_spec peer s :
  let c := length (heap s) in
  let s' := register peer s in
  clients s' = <[peer := c]> (clients s) ∧
  heap s' = heap s ++ [{| addr := peer; node := net s (nodes_made s);
                          lastReceiveTime := clock s (now_calls s);
                          lastSendTime := 0 |}] ∧
  nodes_made s' = S (nodes_made s) ∧ net s' = net s ∧
  config s' = config s ∧ clock s' = clock s ∧
  timeoutCheckTime s' = timeoutCheckTime s ∧
  trace s' = trace s ++ [GoRunClient c].
Proof. repeat split. Qed.

Lemma register_deref_new peer s :
  deref (register peer s) (length (heap s))
  = {| addr := peer; node := net s (nodes_made s);
       lastReceiveTime := clock s (now_calls s); lastSendTime := 0 |}.
Proof.
  unfold deref. destruct (register_spec peer s) as (_ & -> & _).
  rewrite lookup_app_r, Nat.sub_diag by lia. reflexivity.
Qed.

Lemma register_deref_old peer s c :
  (c < length (heap s))%nat → deref (register peer s) c = deref s c.
Proof.
  intros Hc. unfold deref. destruct (register_spec peer s) as (_ & -> & _).
  by rewrite lookup_app_l.
Qed.

(** A datagram is a non-registration datagram unless it decodes to a
    header that [IsRegistrationPacket] recognises. *)
Definition non_registration (packet : list Z) : Prop :=
  ∀ header, UnmarshalBinary packet = Some header →
            ipx.IsRegistrationPacket header = false.

(** The three conditions under which [processPacket] lets a datagram
    through. *)
Definition accepted (s : Server) (packet : list Z) (peer : string)
    (header : ipx.Header) (c : nat) : Prop :=
  UnmarshalBinary packet = Some header ∧
  clients s !! peer = Some c ∧
  ipx.Addr (ipx.Src header) = Address (node (deref s c)).

(** A non-registration datagram is written into the sender's node, with
    the sender's [lastReceiveTime] set to the time of the write, when it is
    accepted; the server is left as it was when it is not. *)
Lemma processPacket_data_path packet peer s :
  inv s →
  non_registration packet →
  let s' := processPacket Address UnmarshalBinary MarshalBinary packet peer s
  in
  (∀ header c, accepted s packet peer header c →
     trace s' = trace s ++ [NodeWrite (node (deref s c)) packet] ∧
     lastReceiveTime (deref s' c) = clock s (now_calls s) ∧
     clients s' = clients s) ∧
  ((¬ ∃ header c, accepted s packet peer header c) → s' = s).
Proof.
  intros Hs Hnr s'. unfold s', processPacket. split.
  - intros header c (Hd & Hc & Hsrc). rewrite Hd, (Hnr header Hd), Hc.
    rewrite bool_decide_eq_false_2 by (intros H; by apply H).
    destruct (inv_deref s peer c Hs Hc) as [[x Hx] _].
    simpl. unfold deref; simpl. rewrite list_lookup_alter_eq, Hx. done.
  - intros Hno. destruct (UnmarshalBinary packet) as [header|] eqn:Hd; [|done].
    rewrite (Hnr header) by done.
    destruct (clients s !! peer) as [c|] eqn:Hc; [|done].
    case_bool_decide as Hsrc; [done|]. destruct Hno. by exists header, c.
Qed.

(** A registration from a peer with a client record: no node is made, the
    table stays as it is, and the ack for the address of the node of the
    record goes to the peer. *)
Lemma processPacket_registration_known packet peer s header c :
  inv s →
  UnmarshalBinary packet = Some header →
  ipx.IsRegistrationPacket header = true →
  clients s !! peer = Some c →
  let s' := processPacket Address UnmarshalBinary MarshalBinary packet peer s
  in
  clients s' = clients s ∧ nodes_made s' = nodes_made s ∧
  length (heap s') = length (heap s) ∧
  node (deref s' c) = node (deref s c) ∧
  trace s' = trace s ++ ack_effects (Address (node (deref s c))) peer.
Proof.
  intros Hs Hd Hr Hc s'. unfold s', processPacket. rewrite Hd, Hr.
  rewrite (newClient_known _ _ _ c) by done.
  destruct (send_ack_effects c s) as (Hst & Hcl & _ & Htr).
  destruct (inv_deref s peer c Hs Hc) as [_ Ha]. rewrite Ha in Htr.
  split; [done|]. split; [apply Hst|]. split; [apply Hst|].
  split; [|done]. by destruct (steady_deref _ _ Hst c) as (_ & -> & _).
Qed.

(** A registration from a peer without a client record: the network is
    asked for one new node, a client object with this node is recorded
    under the peer, its [runClient] is started, and the ack for the address
    of the node goes to the peer. *)
Lemma processPacket_registration_new packet peer s header :
  UnmarshalBinary packet = Some header →
  ipx.IsRegistrationPacket header = true →
  clients s !! peer = None →
  let s' := processPacket Address UnmarshalBinary MarshalBinary packet peer s
  in
  let c := length (heap s) in
  let n := net s (nodes_made s) in
  clients s' = <[peer := c]> (clients s) ∧
  nodes_made s' = S (nodes_made s) ∧
  addr (deref s' c) = peer ∧ node (deref s' c) = n ∧
  lastReceiveTime (deref s' c) = clock s (now_calls s) ∧
  trace s' = trace s ++ [GoRunClient c] ++ ack_effects (Address n) peer.
Proof.
  intros Hd Hr Hc s' c n. unfold s', processPacket. rewrite Hd, Hr.
  rewrite newClient_new by done. fold c.
  destruct (send_ack_effects c (register peer s)) as (Hst & Hcl & _ & Htr).
  destruct (register_spec peer s) as (Hcl2 & _ & Hnm & _ & _ & _ & _ & Htr2).
  pose proof (register_deref_new peer s) as Hdr. fold c in Hdr, Hcl2, Htr2.
  rewrite Hdr in Htr. cbn [addr node] in Htr.
  destruct (steady_deref _ _ Hst c) as (Ha & Hn & Hrx).
  rewrite Hdr in Ha, Hn, Hrx. cbn [addr node lastReceiveTime] in Ha, Hn, Hrx.
  split; [by rewrite Hcl|].
  split; [by rewrite (steady_nodes_made _ _ Hst)|].
  split; [done|]. split; [done|]. split; [done|].
  by rewrite Htr, Htr2, <- app_assoc.
Qed.

(** The reply header, field by field. *)
Lemma newClient_reply_fields a :
  let reply := newClient_reply a in
  ipx.Network (ipx.Dest reply) = [0; 0; 0; 0] ∧
  ipx.Addr (ipx.Dest reply) = a ∧ ipx.Socket (ipx.Dest reply) = 2 ∧
  ipx.Network (ipx.Src reply) = [0; 0; 0; 1] ∧
  ipx.Addr (ipx.Src reply) = [0xff; 0xff; 0xff; 0xff; 0xff; 0xff] ∧
  ipx.Socket (ipx.Src reply) = 2 ∧
  ipx.Checksum reply = 0xffff ∧ ipx.Length reply = 30 ∧
  ipx.TransControl reply = 0.
Proof. repeat split. Qed.

End packets.

(** ** The states the server reaches *)

(** [stable s s']: the network oracle is that of [s] and every client
    object has the peer and the node it has in [s]. *)
Record stable (s s' : Server) : Prop := {
  stable_net : net s' = net s;
  stable_nodes_made : nodes_made s' = nodes_made s;
  stable_heap_length : length (heap s') = length (heap s);
  stable_deref : ∀ c, addr (deref s' c) = addr (deref s c) ∧
                      node (deref s' c) = node (deref s c);
}.

Lemma steady_stable s s' : steady s s' → stable s s'.
Proof.
  intros [_ _ _ A B C D]. split; auto.
  intros c. destruct (D c) as (? & ? & _). done.
Qed.

Lemma stable_trans s1 s2 s3 : stable s1 s2 → stable s2 s3 → stable s1 s3.
Proof.
  intros [A1 B1 C1 D1] [A2 B2 C2 D2]. split; try congruence.
  intros c. destruct (D1 c), (D2 c). split; congruence.
Qed.

Lemma stable_store_lastReceiveTime c t s :
  stable s (store_lastReceiveTime c t s).
Proof.
  split; simpl; auto.
  - apply length_alter.
  - intros c'. unfold deref; simpl. destruct (decide (c = c')) as [->|Hne].
    + rewrite list_lookup_alter_eq. by destruct (heap s !! c').
    + by rewrite list_lookup_alter_ne.
Qed.

(** [wf s]: the client table is as [inv] says, every client has a node the
    network has handed out, and the network hands out a new node each
    time. *)
Record wf (s : Server) : Prop := {
  wf_inv : inv s;
  wf_nodes : ∀ k c, clients s !! k = Some c →
    ∃ i, (i < nodes_made s)%nat ∧ node (deref s c) = net s i;
  wf_net : Inj (=) (=) (net s);
}.

Lemma wf_stable s s' :
  stable s s' →
  (∀ k c, clients s' !! k = Some c → clients s !! k = Some c) →
  wf s → wf s'.
Proof.
  intros [Hnet Hnm Hlen Hd] Hsub [[H1 H2] H3 H4]. split; [split|..].
  - intros k c Hk. destruct (H1 k c (Hsub _ _ Hk)) as (x & Hx & Ha).
    assert (Hlt : (c < length (heap s'))%nat).
    { rewrite Hlen. by eapply lookup_lt_Some. }
    destruct (lookup_lt_is_Some_2 _ _ Hlt) as [x' Hx'].
    exists x'. split; [done|]. destruct (Hd c) as [Ha' _].
    unfold deref in Ha'. rewrite Hx, Hx' in Ha'. simpl in Ha'. congruence.
  - intros k1 k2 c1 c2 Hk1 Hk2 Hn.
    apply (H2 k1 k2 c1 c2); [by apply Hsub|by apply Hsub|].
    destruct (Hd c1) as [_ <-]. by destruct (Hd c2) as [_ <-].
  - intros k c Hk. destruct (H3 k c (Hsub _ _ Hk)) as (i & Hi & Hn).
    exists i. rewrite Hnm, Hnet. split; [done|].
    by destruct (Hd c) as [_ ->].
  - by rewrite Hnet.
Qed.

Lemma wf_New c clk nodes : Inj (=) (=) nodes → wf (New c clk nodes).
Proof.
  intros Hinj. split; [split|..]; simpl; try done;
    intros; by rewrite lookup_empty in *.
Qed.

Lemma wf_register peer s :
  wf s → clients s !! peer = None → wf (register peer s).
Proof.
  intros [[H1 H2] H3 H4] Hp.
  destruct (register_spec peer s) as (Hcl & Hh & Hnm & Hnet & _).
  pose proof (register_deref_new peer s) as Hnew.
  assert (Hold : ∀ k c, clients s !! k = Some c →
            deref (register peer s) c = deref s c).
  { intros k c Hk. apply register_deref_old.
    destruct (H1 k c Hk) as (x & Hx & _). by eapply lookup_lt_Some. }
  assert (Hfresh : ∀ k c, clients s !! k = Some c →
            node (deref s c) ≠ net s (nodes_made s)).
  { intros k c Hk Heq. destruct (H3 k c Hk) as (i & Hi & Hn).
    rewrite Hn in Heq. apply H4 in Heq. lia. }
  split; [split|..]; rewrite ?Hcl, ?Hnm, ?Hnet.
  - intros k c Hk. destruct (decide (peer = k)) as [->|Hne].
    + rewrite lookup_insert_eq in Hk. injection Hk as <-.
      rewrite Hh. eexists. split; [by apply list_lookup_middle|done].
    + rewrite lookup_insert_ne in Hk by done.
      destruct (H1 k c Hk) as (x & Hx & Ha). exists x.
      split; [|done]. rewrite Hh. by apply lookup_app_l_Some.
  - intros k1 k2 c1 c2 Hk1 Hk2 Hn.
    destruct (decide (peer = k1)) as [->|Hne1];
      destruct (decide (k1 = k2)) as [->|Hne2]; try done.
    + rewrite lookup_insert_eq in Hk1. injection Hk1 as <-.
      rewrite lookup_insert_ne in Hk2 by done.
      rewrite Hnew, (Hold k2 c2) in Hn by done. simpl in Hn.
      by destruct (Hfresh k2 c2).
    + rewrite lookup_insert_ne in Hk1 by done.
      destruct (decide (peer = k2)) as [->|Hne3].
      * rewrite lookup_insert_eq in Hk2. injection Hk2 as <-.
        rewrite Hnew, (Hold k1 c1) in Hn by done. simpl in Hn.
        by destruct (Hfresh k1 c1).
      * rewrite lookup_insert_ne in Hk2 by done.
        rewrite (Hold k1 c1), (Hold k2 c2) in Hn by done. eauto.
  - intros k c Hk. destruct (decide (peer = k)) as [->|Hne].
    + rewrite lookup_insert_eq in Hk. injection Hk as <-.
      exists (nodes_made s). rewrite Hnew. split; [lia|done].
    + rewrite lookup_insert_ne in Hk by done.
      destruct (H3 k c Hk) as (i & Hi & Hn). exists i.
      rewrite (Hold k c) by done. split; [lia|done].
  - done.
Qed.

Section reach.

Variable Address : Node → list Z.
Variable UnmarshalBinary : list Z → option ipx.Header.
Variable MarshalBinary : ipx.Header → option (list Z).
Variable range : gmap string nat → list (string * nat).
Hypothesis range_perm : ∀ m, range m ≡ₚ map_to_list m.

Lemma wf_processPacket packet peer s :
  wf s →
  wf (processPacket Address UnmarshalBinary MarshalBinary packet peer s).
Proof.
  intros Hs. unfold processPacket.
  destruct (UnmarshalBinary packet) as [header|]; [|done].
  destruct (ipx.IsRegistrationPacket header).
  - destruct (clients s !! peer) as [c|] eqn:Hc.
    + rewrite (newClient_known _ _ _ _ _ c) by done.
      destruct (send_ack_effects Address MarshalBinary c s) as (Hst & Hcl & _).
      apply (wf_stable s); [by apply steady_stable|by rewrite Hcl|done].
    + rewrite newClient_new by done.
      destruct (send_ack_effects Address MarshalBinary (length (heap s))
                  (register peer s)) as (Hst & Hcl & _).
      apply (wf_stable (register peer s));
        [by apply steady_stable|by rewrite Hcl|by apply wf_register].
  - destruct (clients s !! peer) as [c|]; [|done].
    case_bool_decide; [done|]. simpl.
    apply (wf_stable s); [|done|done].
    eapply stable_trans; [apply steady_stable, steady_time_Now|].
    eapply stable_trans; [apply stable_store_lastReceiveTime|].
    apply steady_stable, steady_emit.
Qed.

Lemma wf_checkClientTimeouts s :
  wf s → wf (checkClientTimeouts MarshalBinary range s).2.
Proof.
  intros Hs.
  destruct (checkClientTimeouts_swept MarshalBinary range range_perm s
              (wf_inv _ Hs)) as [_ Jst Jabs Jtab _ _ _ _ _ _].
  apply (wf_stable s); [| |done].
  - eapply stable_trans; [apply steady_stable, steady_time_Now|].
    by apply steady_stable.
  - intros k c Hk.
    destruct (clients s !! k) as [c'|] eqn:Hk'.
    + rewrite (Jtab k c' Hk') in Hk. by destruct (bool_decide _).
    + by rewrite (Jabs k Hk') in Hk.
Qed.

(** [poll] once the datagram, if any, has been processed. *)
Definition received (r : ReadResult) (s : Server) : Server :=
  let s := emit (SetReadDeadline (timeoutCheckTime s)) s in
  match r with
  | ReadOk datagram peer =>
      processPacket Address UnmarshalBinary MarshalBinary
        (take 1500 datagram) peer s
  | _ => s
  end.

(** The state in which [poll] decides whether to sweep, and in which it
    sweeps. *)
Definition at_sweep (r : ReadResult) (s : Server) : Server :=
  (time_Now (received r s)).2.

Lemma poll_unfold r s :
  poll Address UnmarshalBinary MarshalBinary range r s =
    match r with
    | ReadNetError => (false, received r s)
    | _ =>
        if After (clock (received r s) (now_calls (received r s)))
                 (timeoutCheckTime (at_sweep r s))
        then
          let st := checkClientTimeouts MarshalBinary range (at_sweep r s) in
          (true, set_timeoutCheckTime st.1 st.2)
        else (true, at_sweep r s)
    end.
Proof.
  unfold poll, at_sweep, received.
  destruct r; simpl; try reflexivity;
    destruct (After _ _); try reflexivity;
    destruct (checkClientTimeouts _ _ _); reflexivity.
Qed.

Lemma wf_poll r s b s' :
  wf s →
  poll Address UnmarshalBinary MarshalBinary range r s = (b, s') → wf s'.
Proof.
  intros Hs. rewrite poll_unfold.
  assert (Hr : wf (received r s)).
  { unfold received.
    assert (wf (emit (SetReadDeadline (timeoutCheckTime s)) s))
      by (apply (wf_stable s); [apply steady_stable, steady_emit|done|done]).
    destruct r; try done. by apply wf_processPacket. }
  assert (Ha : wf (at_sweep r s)).
  { apply (wf_stable (received r s));
      [apply steady_stable, steady_time_Now|done|done]. }
  assert (Hsw : ∀ b s', (if After (clock (received r s)
                               (now_calls (received r s)))
                        (timeoutCheckTime (at_sweep r s))
     then
       let st := checkClientTimeouts MarshalBinary range (at_sweep r s) in
       (true, set_timeoutCheckTime st.1 st.2)
     else (true, at_sweep r s)) = (b, s') → wf s').
  { intros b0 s0. destruct (After _ _); intros [= <- <-]; [|done].
    apply (wf_stable (checkClientTimeouts MarshalBinary range
                        (at_sweep r s)).2);
      [apply steady_stable, steady_set_timeoutCheckTime|done|].
    by apply wf_checkClientTimeouts. }
  destruct r; try apply Hsw. by intros [= <- <-].
Qed.

End reach.

Section runs.

Variable Address : Node → list Z.
Variable UnmarshalBinary : list Z → option ipx.Header.
Variable MarshalBinary : ipx.Header → option (list Z).

(** The states of a run: [New], then [poll] for as long as it returns no
    error; each [poll] may visit the client table in an order of its own.
    The network hands out a new node on every [NewNode()]. *)
Inductive reachable : Server → Prop :=
  | reachable_New c clk nodes :
      Inj (=) (=) nodes → reachable (New c clk nodes)
  | reachable_poll range r s s' :
      (∀ m, range m ≡ₚ map_to_list m) →
      reachable s →
      poll Address UnmarshalBinary MarshalBinary range r s = (true, s') →
      reachable s'.

Lemma reachable_wf s : reachable s → wf s.
Proof.
  induction 1 as [c clk nodes Hinj|range r s s' Hrange _ IH Hpoll].
  - by apply wf_New.
  - by eapply wf_poll.
Qed.

End runs.

(** ** The trace only grows *)






Section growth.

Variable Address : Node → list Z.
Variable UnmarshalBinary : list Z → option ipx.Header.
Variable MarshalBinary : ipx.Header → option (list Z).
Variable range : gmap string nat → list (string * nat).










End growth.

(** ** The least of a set of deadlines *)





End server_spec.

(** * The two servers side by side *)

(** ** A codec and a network for the runs of package server *)

(** For the runs below the ipx codec is the codec of the standalone
    server, node [n] has the address 02:00:00:00:00:n, and the network
    hands out the nodes 0, 1, 2, ... *)
Definition of_main_addr (a : main.IPXHeaderAddr) : ipx.HeaderAddr :=
  {| ipx.Network := main.network a; ipx.Addr := main.addr a;
     ipx.Socket := main.socket a |}.

Definition of_main (h : main.IPXHeader) : ipx.Header :=
  {| ipx.Checksum := main.checksum h; ipx.Length := main.length_ h;
     ipx.TransControl := main.transControl h;
     ipx.PacketType := main.packetType h;
     ipx.Dest := of_main_addr (main.dest h);
     ipx.Src := of_main_addr (main.src h) |}.

Definition to_main_addr (a : ipx.HeaderAddr) : main.IPXHeaderAddr :=
  {| main.network := ipx.Network a; main.addr := ipx.Addr a;
     main.socket := ipx.Socket a |}.

Definition to_main (h : ipx.Header) : main.IPXHeader :=
  {| main.checksum := ipx.Checksum h; main.length_ := ipx.Length h;
     main.transControl := ipx.TransControl h;
     main.packetType := ipx.PacketType h;
     main.dest := to_main_addr (ipx.Dest h);
     main.src := to_main_addr (ipx.Src h) |}.

Definition demo_UnmarshalBinary (packet : list Z) : option ipx.Header :=
  let '(ok, h) := main.IPXHeader_Decode main.IPXHeader_zero packet in
  if ok then Some (of_main h) else None.

Definition demo_MarshalBinary (h : ipx.Header) : option (list Z) :=
  Some (main.IPXHeader_Encode (to_main h)).

Definition demo_Address (n : server.Node) : list Z :=
  [0x02; 0; 0; 0; 0; Z.of_nat n].

Definition demo_poll (r : server.ReadResult) (s : server.Server)
    : server.Server :=
  (server.poll demo_Address demo_UnmarshalBinary demo_MarshalBinary
     map_to_list r s).2.

(** A server with the timeouts of [c]; after the registration of a first
    peer, whose node is node 0; after seven reads that time out; and after
    one more, in which the server sweeps for the first time, with
    [now] = 12 s, the client last heard at 1 s. *)
Definition run0 (c : server.Config) : server.Server :=
  server.New c main_spec.demo_clock (λ i, i).
Definition run1 (c : server.Config) : server.Server :=
  demo_poll (server.ReadOk main_spec.demo_registration "10.0.0.1:1001")
    (run0 c).
Definition run2 (c : server.Config) : server.Server :=
  Nat.iter 7 (demo_poll server.ReadTimeout) (run1 c).
Definition run3 (c : server.Config) : server.Server :=
  demo_poll server.ReadTimeout (run2 c).

Definition demo_reachable : server.Server → Prop :=
  server_spec.reachable demo_Address demo_UnmarshalBinary demo_MarshalBinary.

Lemma demo_poll_reachable r s :
  demo_reachable s →
  (server.poll demo_Address demo_UnmarshalBinary demo_MarshalBinary
     map_to_list r s).1 = true →
  demo_reachable (demo_poll r s).
Proof.
  intros Hs Hok.
  apply (server_spec.reachable_poll _ _ _ map_to_list r s);
    [done|exact Hs|].
  unfold demo_poll. destruct (server.poll _ _ _ _ r s) as [b s'].
  simpl in *. by subst b.
Qed.

Lemma run0_reachable c : demo_reachable (run0 c).
Proof. apply server_spec.reachable_New. intros i j Hij. exact Hij. Qed.

Lemma run1_reachable c : demo_reachable (run1 c).
Proof.
  apply demo_poll_reachable; [apply run0_reachable|]. reflexivity.
Qed.

Lemma run2_reachable c : demo_reachable (run2 c).
Proof.
  unfold run2. generalize 7%nat. intros n.
  induction n as [|n IH]; simpl; [apply run1_reachable|].
  apply demo_poll_reachable; [done|].
  rewrite server_spec.poll_unfold. simpl. by destruct (server.After _ _).
Qed.

Lemma demo_reachable_inv s : demo_reachable s → server_spec.inv s.
Proof.
  intros Hs. apply server_spec.wf_inv.
  eapply server_spec.reachable_wf. exact Hs.
Qed.

(** ** The packet path *)

(** C1: a non-registration datagram is delivered exactly when it decodes,
    its UDP peer has a client record, and its source node is the address
    of that client. In package server this holds: such a datagram is
    written into the sender's node, and the sender's [lastReceiveTime]
    becomes the time of the write; any other non-registration datagram
    leaves the server as it was, with no effect on the outside. In the
    standalone server it holds of the datagrams that the server does not
    take for a registration: such a datagram goes out to every other
    client, or to the client that holds its destination address, with the
    sender's [lastReceiveTime] set to the clock reading, when the three
    conditions hold, and leaves the server as it was, with nothing written
    to the socket, when one fails. It fails for the datagrams that are no
    registration on the wire and are taken for one all the same (the
    destination node is 00:00:00:00:00:00, the low byte of the destination
    socket is 2 and the high byte is not 0, see
    [main_spec.taken_for_registration_wire]): from a peer with a client
    record such a datagram is answered with a registration ack, reaches
    no client and refreshes no [lastReceiveTime], even when all three
    conditions hold; from a peer without a record it is not dropped but
    registers the peer, as soon as one of the candidate addresses is
    free. *)
Theorem C1_ingress_acceptance :
  (∀ Address UnmarshalBinary MarshalBinary packet peer s,
     server_spec.inv s →
     server_spec.non_registration UnmarshalBinary packet →
     let s' := server.processPacket Address UnmarshalBinary MarshalBinary
                 packet peer s in
     (∀ header c,
        server_spec.accepted Address UnmarshalBinary s packet peer header c →
        server.trace s' = server.trace s
          ++ [server.NodeWrite (server.node (server.deref s c)) packet] ∧
        server.lastReceiveTime (server.deref s' c)
          = server.clock s (server.now_calls s) ∧
        server.clients s' = server.clients s) ∧
     ((¬ ∃ header c,
           server_spec.accepted Address UnmarshalBinary s packet peer header c)
      → s' = s)) ∧
  (∀ range fuel packet peer s,
     (∀ m, range m ≡ₚ map_to_list m) →
     main_spec.consistent s →
     ¬ main_spec.taken_for_registration packet →
     (∀ header p, main_spec.accepted s packet peer header p →
        ∃ s', main.ProcessPacket range fuel packet peer s = Some s' ∧
              main.lastReceiveTime (main.deref s' p)
                = main.clock s (main.now_calls s) ∧
              (main.addr (main.dest header) = main.ADDR_BROADCAST →
                 ∃ out, main.sent s' = main.sent s ++ out ∧
                        out ≡ₚ (λ kp, (packet, kp.1))
                                <$> filter (λ kp, kp.1 ≠ peer)
                                      (map_to_list (main.clients s))) ∧
              (main.addr (main.dest header) ≠ main.ADDR_BROADCAST →
                 (∀ k q, main.clients s !! k = Some q →
                         main.ipxAddr (main.deref s q)
                           = main.addr (main.dest header) →
                         main.sent s' = main.sent s ++ [(packet, k)]) ∧
                 ((∀ k q, main.clients s !! k = Some q →
                          main.ipxAddr (main.deref s q)
                            ≠ main.addr (main.dest header)) →
                  main.sent s' = main.sent s))) ∧
     ((¬ ∃ header p, main_spec.accepted s packet peer header p) →
        main.ProcessPacket range fuel packet peer s = Some s)) ∧
  (∀ range fuel packet peer s,
     main_spec.consistent s →
     ¬ main_spec.wire_registration packet →
     main_spec.taken_for_registration packet →
     (∀ p, main.clients s !! peer = Some p →
        ∃ s', main.ProcessPacket range fuel packet peer s = Some s' ∧
              main.sent s' = main.sent s
                ++ [(main_spec.ack_bytes (main.ipxAddr (main.deref s p)),
                     peer)] ∧
              ∀ q, main.lastReceiveTime (main.deref s' q)
                   = main.lastReceiveTime (main.deref s q)) ∧
     (main.clients s !! peer = None →
        (∀ k, main.clientsByIPX s
                !! main_spec.candidate (main.time_Now s).2 k = None →
              (k < fuel)%nat →
              is_Some (main.ProcessPacket range fuel packet peer s)) ∧
        (∀ s', main.ProcessPacket range fuel packet peer s = Some s' →
               main.clients s' !! peer = Some (length (main.heap s)) ∧
               ∃ a, main.sent s' = main.sent s
                      ++ [(main_spec.ack_bytes a, peer)]))).
Proof.
  split; [|split].
  - apply server_spec.processPacket_data_path.
  - apply main_spec.ProcessPacket_data_path.
  - apply main_spec.ProcessPacket_taken.
Qed.

(** A packet of the first peer of the run, from its own address to the
    broadcast address, and the same packet with the source address of
    another node. *)
Definition honest_packet : list Z :=
  main_spec.demo_packet main.ADDR_BROADCAST (demo_Address 0%nat) 0x4002.
Definition spoofed_packet : list Z :=
  main_spec.demo_packet main.ADDR_BROADCAST (demo_Address 1%nat) 0x4002.

(** A packet of the first peer of the standalone run for the second, and
    one of the first peer for the node 00:00:00:00:00:00, socket 0x0102. *)
Definition unicast_packet : list Z :=
  main_spec.demo_packet main_spec.demo_addr2 main_spec.demo_addr1 0x4002.
Definition socket_0x0102_packet : list Z :=
  main_spec.demo_packet main.ADDR_NULL main_spec.demo_addr1 0x0102.

Lemma socket_0x0102_packet_taken :
  Forall main.is_byte socket_0x0102_packet ∧
  main_spec.wire_dest_socket socket_0x0102_packet = 0x0102 ∧
  ¬ main_spec.wire_registration socket_0x0102_packet ∧
  main_spec.taken_for_registration socket_0x0102_packet.
Proof.
  split; [|split; [reflexivity|split]].
  - vm_compute. repeat constructor; discriminate.
  - intros [H _]. vm_compute in H. discriminate.
  - eexists. split; reflexivity.
Qed.

(** C1, the claim fails in the standalone server: the first peer of the
    run, registered with the address 01:08:0f:16:1d:24, sends from that
    address a datagram for the node 00:00:00:00:00:00, socket 0x0102. The
    datagram is no registration packet, it decodes, its peer has a client
    record and its source node is the address of that record. The server
    answers with the registration ack and leaves the sender's
    [lastReceiveTime] at the time of the registration. *)
Lemma C1_counterexample :
  let s := main_spec.demo1 in
  let peer := "10.0.0.1:1001" in
  main.reachable s ∧
  main_spec.wire_dest_socket socket_0x0102_packet = 0x0102 ∧
  ¬ main_spec.wire_registration socket_0x0102_packet ∧
  (∃ header, main_spec.accepted s socket_0x0102_packet peer header 0%nat) ∧
  ∃ s', main.ProcessPacket map_to_list 1 socket_0x0102_packet peer s
        = Some s' ∧
        main.sent s' = main.sent s
          ++ [(main_spec.ack_bytes main_spec.demo_addr1, peer)] ∧
        main.lastReceiveTime (main.deref s' 0%nat)
          = main.lastReceiveTime (main.deref s 0%nat) ∧
        main.lastReceiveTime (main.deref s' 0%nat)
          ≠ main.clock s (main.now_calls s).
Proof.
  intros s peer.
  split; [apply main_spec.demo1_reachable|].
  split; [reflexivity|].
  split; [apply socket_0x0102_packet_taken|].
  split; [eexists; repeat split; reflexivity|].
  eexists. split; [vm_compute; reflexivity|].
  split; [reflexivity|]. split; [reflexivity|].
  vm_compute. discriminate.
Qed.

(** The first peer of the run of package server sends [honest_packet]: it
    is written into its node. It sends [spoofed_packet]: nothing happens;
    nor in the standalone server. There the first of two registered peers
    sends [unicast_packet]: its [lastReceiveTime] becomes the clock
    reading and the packet goes out to the second peer. The first peer
    sends [socket_0x0102_packet]: it is sent an ack. *)
Lemma C1_witness :
  let s := run1 server.DefaultConfig in
  let deliver p :=
    server.processPacket demo_Address demo_UnmarshalBinary demo_MarshalBinary
      p "10.0.0.1:1001" s in
  server.trace (deliver honest_packet)
    = server.trace s ++ [server.NodeWrite 0%nat honest_packet] ∧
  deliver spoofed_packet = s ∧
  main.ProcessPacket map_to_list 1 spoofed_packet "10.0.0.1:1001"
    main_spec.demo1 = Some main_spec.demo1 ∧
  (∃ s', main.ProcessPacket map_to_list 1 unicast_packet "10.0.0.1:1001"
           main_spec.demo2 = Some s' ∧
         main.lastReceiveTime (main.deref s' 0%nat)
           = main.clock main_spec.demo2 (main.now_calls main_spec.demo2) ∧
         main.sent s'
           = main.sent main_spec.demo2 ++ [(unicast_packet, "10.0.0.2:1002")]) ∧
  (∃ s', main.ProcessPacket map_to_list 1 socket_0x0102_packet
           "10.0.0.1:1001" main_spec.demo1 = Some s' ∧
         main.sent s' = main.sent main_spec.demo1
           ++ [(main_spec.ack_bytes main_spec.demo_addr1, "10.0.0.1:1001")]).
Proof.
  intros s deliver.
  assert (Hs : server_spec.inv s)
    by apply demo_reachable_inv, run1_reachable.
  assert (Hnr : ∀ p, p = honest_packet ∨ p = spoofed_packet →
            server_spec.non_registration demo_UnmarshalBinary p).
  { intros p [-> | ->] h Hh; vm_compute in Hh; injection Hh as <-;
      reflexivity. }
  assert (Hnt : ∀ p, p = spoofed_packet ∨ p = unicast_packet →
            ¬ main_spec.taken_for_registration p).
  { intros p [-> | ->] (h & Hh & Hr); vm_compute in Hh; injection Hh as <-;
      vm_compute in Hr; discriminate. }
  destruct C1_ingress_acceptance as (Hserver & Hmain & Htaken).
  split; [|split; [|split; [|split]]].
  - destruct (Hserver demo_Address demo_UnmarshalBinary demo_MarshalBinary
                honest_packet "10.0.0.1:1001" s Hs (Hnr _ (or_introl eq_refl)))
      as [Hacc _].
    destruct (Hacc (of_main (main.IPXHeader_Decode main.IPXHeader_zero
                               honest_packet).2) 0%nat) as (Htr & _).
    + repeat split.
    + exact Htr.
  - destruct (Hserver demo_Address demo_UnmarshalBinary demo_MarshalBinary
                spoofed_packet "10.0.0.1:1001" s Hs (Hnr _ (or_intror eq_refl)))
      as [_ Hrej].
    apply Hrej. intros (h & c & Hd & Hc & Hsrc).
    vm_compute in Hd. injection Hd as <-.
    vm_compute in Hc. injection Hc as <-. vm_compute in Hsrc. discriminate.
  - destruct (Hmain map_to_list 1%nat spoofed_packet "10.0.0.1:1001"
                main_spec.demo1) as [_ Hrej].
    + done.
    + eapply main_spec.reachable_consistent, main_spec.demo1_reachable.
    + apply Hnt. by left.
    + apply Hrej. intros (h & p & Hd & Hp & Hsrc).
      vm_compute in Hd. injection Hd as <-.
      vm_compute in Hp. injection Hp as <-. vm_compute in Hsrc. discriminate.
  - destruct (Hmain map_to_list 1%nat unicast_packet "10.0.0.1:1001"
                main_spec.demo2) as [Hacc _].
    + done.
    + eapply main_spec.reachable_consistent, main_spec.demo2_reachable.
    + apply Hnt. by right.
    + destruct (Hacc (main.IPXHeader_Decode main.IPXHeader_zero
                        unicast_packet).2 0%nat)
        as (s' & Hpp & Hrx & _ & Huni).
      * repeat split.
      * exists s'. split; [exact Hpp|]. split; [exact Hrx|].
        destruct Huni as [Hheld _]; [vm_compute; discriminate|].
        apply (Hheld "10.0.0.2:1002" 1%nat); reflexivity.
  - destruct (Htaken map_to_list 1%nat socket_0x0102_packet "10.0.0.1:1001"
                main_spec.demo1) as [Hknown _].
    + eapply main_spec.reachable_consistent, main_spec.demo1_reachable.
    + apply socket_0x0102_packet_taken.
    + apply socket_0x0102_packet_taken.
    + destruct (Hknown 0%nat eq_refl) as (s' & Hpp & Hsent & _).
      exists s'. split; [exact Hpp|exact Hsent].
Defined.

(** ** Registration *)

(** C4: a registration packet (destination socket 2, destination node
    all-zero) from a peer without a client record makes the server
    allocate and record a new client, and one from a peer with a record
    reuses the record and allocates nothing; either way the server replies
    to the peer with the ack whose destination is network 00:00:00:00, the
    client's address, socket 2, whose source is network 00:00:00:01, node
    ff:ff:ff:ff:ff:ff, socket 2, with checksum 0xFFFF, length 30 and
    transport control 0. In package server the new client gets a new node
    of the network and the ack carries the address of the client's node; in
    the standalone server the new client gets the address [NewAddress]
    returns, which no client holds, and the registration is answered as
    soon as a candidate address is free. *)
Theorem C4_registration :
  (∀ Address UnmarshalBinary MarshalBinary packet peer s header,
     server_spec.inv s →
     UnmarshalBinary packet = Some header →
     ipx.Socket (ipx.Dest header) = 2 →
     ipx.Addr (ipx.Dest header) = ipx.AddrNull →
     let s' := server.processPacket Address UnmarshalBinary MarshalBinary
                 packet peer s in
     let ack n := server_spec.ack_effects MarshalBinary (Address n) peer in
     (∀ c, server.clients s !! peer = Some c →
        server.clients s' = server.clients s ∧
        server.nodes_made s' = server.nodes_made s ∧
        length (server.heap s') = length (server.heap s) ∧
        server.node (server.deref s' c) = server.node (server.deref s c) ∧
        server.trace s'
          = server.trace s ++ ack (server.node (server.deref s c))) ∧
     (server.clients s !! peer = None →
        let c := length (server.heap s) in
        let n := server.net s (server.nodes_made s) in
        server.clients s' = <[peer := c]> (server.clients s) ∧
        server.nodes_made s' = S (server.nodes_made s) ∧
        server.addr (server.deref s' c) = peer ∧
        server.node (server.deref s' c) = n ∧
        server.lastReceiveTime (server.deref s' c)
          = server.clock s (server.now_calls s) ∧
        server.trace s' = server.trace s ++ [server.GoRunClient c] ++ ack n)) ∧
  (∀ MarshalBinary a to,
     server_spec.ack_effects MarshalBinary a to
       = match MarshalBinary (server.newClient_reply a) with
         | Some encodedReply => [server.WriteToUDP encodedReply to]
         | None => []
         end ∧
     let reply := server.newClient_reply a in
     ipx.Network (ipx.Dest reply) = [0; 0; 0; 0] ∧
     ipx.Addr (ipx.Dest reply) = a ∧ ipx.Socket (ipx.Dest reply) = 2 ∧
     ipx.Network (ipx.Src reply) = [0; 0; 0; 1] ∧
     ipx.Addr (ipx.Src reply) = [0xff; 0xff; 0xff; 0xff; 0xff; 0xff] ∧
     ipx.Socket (ipx.Src reply) = 2 ∧
     ipx.Checksum reply = 0xffff ∧ ipx.Length reply = 30 ∧
     ipx.TransControl reply = 0) ∧
  (∀ range fuel packet peer s header,
     main_spec.consistent s →
     main.IPXHeader_Decode main.IPXHeader_zero packet = (true, header) →
     main.socket (main.dest header) = 2 →
     main.addr (main.dest header) = main.ADDR_NULL →
     (∀ p, main.clients s !! peer = Some p →
        ∃ s', main.ProcessPacket range fuel packet peer s = Some s' ∧
              main.clients s' = main.clients s ∧
              main.clientsByIPX s' = main.clientsByIPX s ∧
              length (main.heap s') = length (main.heap s) ∧
              main.rand_calls s' = main.rand_calls s ∧
              main.ipxAddr (main.deref s' p) = main.ipxAddr (main.deref s p) ∧
              main.sent s' = main.sent s
                ++ [(main_spec.ack_bytes (main.ipxAddr (main.deref s p)),
                     peer)]) ∧
     (main.clients s !! peer = None →
        (∀ a s1, main.NewAddress fuel (main.time_Now s).2 = Some (a, s1) →
           ∃ s', main.ProcessPacket range fuel packet peer s = Some s' ∧
                 let p := length (main.heap s) in
                 main.clients s' = <[peer := p]> (main.clients s) ∧
                 main.clientsByIPX s' = <[a := p]> (main.clientsByIPX s) ∧
                 main.udpAddr (main.deref s' p) = peer ∧
                 main.ipxAddr (main.deref s' p) = a ∧
                 main.lastReceiveTime (main.deref s' p)
                   = main.clock s (main.now_calls s) ∧
                 main.clientsByIPX s !! a = None ∧
                 (∀ k q, main.clients s !! k = Some q →
                         main.ipxAddr (main.deref s q) ≠ a) ∧
                 main.sent s' = main.sent s ++ [(main_spec.ack_bytes a, peer)]) ∧
        (∀ k, main.clientsByIPX s
                !! main_spec.candidate (main.time_Now s).2 k = None →
              (k < fuel)%nat →
              is_Some (main.ProcessPacket range fuel packet peer s)))) ∧
  (∀ a, length a = 6%nat →
     main_spec.ack_bytes a = main.IPXHeader_Encode (main.NewClient_reply a) ∧
     main_spec.ack_bytes a =
       [0xff; 0xff; 0x00; 0x1e; 0x00; 0x00; 0x00; 0x00; 0x00; 0x00] ++ a ++
       [0x00; 0x02; 0x00; 0x00; 0x00; 0x01;
        0xff; 0xff; 0xff; 0xff; 0xff; 0xff; 0x00; 0x02] ∧
     let reply := main.NewClient_reply a in
     main.network (main.dest reply) = [0; 0; 0; 0] ∧
     main.addr (main.dest reply) = a ∧ main.socket (main.dest reply) = 2 ∧
     main.network (main.src reply) = [0; 0; 0; 1] ∧
     main.addr (main.src reply) = [0xff; 0xff; 0xff; 0xff; 0xff; 0xff] ∧
     main.socket (main.src reply) = 2 ∧
     main.checksum reply = 0xffff ∧ main.length_ reply = 30 ∧
     main.transControl reply = 0).
Proof.
  split; [|split; [|split]].
  - intros Address UnmarshalBinary MarshalBinary packet peer s header
      Hs Hd Hsock Hnull s' ack.
    assert (Hr : ipx.IsRegistrationPacket header = true).
    { unfold ipx.IsRegistrationPacket.
      by rewrite !bool_decide_eq_true_2 by done. }
    split.
    + intros c Hc.
      by apply (server_spec.processPacket_registration_known
                  Address UnmarshalBinary MarshalBinary packet peer s header).
    + intros Hc.
      by apply (server_spec.processPacket_registration_new
                  Address UnmarshalBinary MarshalBinary packet peer s header).
  - intros MarshalBinary a to. split; [reflexivity|].
    apply server_spec.newClient_reply_fields.
  - intros range fuel packet peer s header Hs Hd Hsock Hnull.
    assert (Hr : main.IsRegistrationPacket header = true).
    { unfold main.IsRegistrationPacket.
      by rewrite !bool_decide_eq_true_2 by done. }
    split; [|intros Hc; split].
    + intros p Hp. by eapply main_spec.ProcessPacket_registration_known.
    + intros a s1 Ha.
      by eapply main_spec.ProcessPacket_registration_new.
    + intros k Hk Hfuel.
      by eapply main_spec.ProcessPacket_registration_returns.
  - intros a Hlen. split; [by rewrite main_spec.NewClient_reply_bytes|].
    split; [reflexivity|]. by apply main_spec.NewClient_reply_fields.
Qed.

(** The registration of the first peer of the runs, and the same
    registration once more. *)
Lemma C4_witness :
  (* package server: a first registration, then the same peer again *)
  server.clients
    (server.processPacket demo_Address demo_UnmarshalBinary
       demo_MarshalBinary main_spec.demo_registration "10.0.0.1:1001"
       (run0 server.DefaultConfig))
    = <["10.0.0.1:1001" := 0%nat]> (server.clients (run0 server.DefaultConfig))
  ∧
  (let s := run1 server.DefaultConfig in
   let s' := server.processPacket demo_Address demo_UnmarshalBinary
               demo_MarshalBinary main_spec.demo_registration
               "10.0.0.1:1001" s in
   server.nodes_made s' = server.nodes_made s ∧
   server.trace s' = server.trace s
     ++ [server.WriteToUDP (main_spec.ack_bytes (demo_Address 0%nat))
           "10.0.0.1:1001"]) ∧
  (* the standalone server: likewise *)
  (∃ s', main.ProcessPacket map_to_list 1 main_spec.demo_registration
           "10.0.0.1:1001" main_spec.demo0 = Some s' ∧
         main.ipxAddr (main.deref s' 0%nat) = main_spec.demo_addr1 ∧
         main.sent s' = [(main_spec.ack_bytes main_spec.demo_addr1,
                          "10.0.0.1:1001")]) ∧
  (∃ s', main.ProcessPacket map_to_list 1 main_spec.demo_registration
           "10.0.0.1:1001" main_spec.demo1 = Some s' ∧
         main.rand_calls s' = main.rand_calls main_spec.demo1 ∧
         main.sent s' = main.sent main_spec.demo1
           ++ [(main_spec.ack_bytes main_spec.demo_addr1, "10.0.0.1:1001")]).
Proof.
  destruct C4_registration as (Hserver & _ & Hmain & _).
  assert (Hhdr : main.IPXHeader_Decode main.IPXHeader_zero
                   main_spec.demo_registration
                 = (true, (main.IPXHeader_Decode main.IPXHeader_zero
                             main_spec.demo_registration).2))
    by reflexivity.
  split; [|split; [|split]].
  - pose proof (Hserver demo_Address demo_UnmarshalBinary demo_MarshalBinary
                  main_spec.demo_registration "10.0.0.1:1001"
                  (run0 server.DefaultConfig)
                  _ (demo_reachable_inv _ (run0_reachable _))
                  eq_refl eq_refl eq_refl) as [_ Hnew].
    destruct (Hnew eq_refl) as (Hcl & _). exact Hcl.
  - intros s s'.
    pose proof (Hserver demo_Address demo_UnmarshalBinary demo_MarshalBinary
                  main_spec.demo_registration "10.0.0.1:1001" s
                  _ (demo_reachable_inv _ (run1_reachable _))
                  eq_refl eq_refl eq_refl) as [Hknown _].
    destruct (Hknown 0%nat eq_refl) as (_ & Hnm & _ & _ & Htr).
    split; [exact Hnm|exact Htr].
  - destruct (Hmain map_to_list 1%nat main_spec.demo_registration
                "10.0.0.1:1001" main_spec.demo0 _
                (main_spec.consistent_Listen _ _) Hhdr eq_refl eq_refl)
      as [_ Hnew].
    destruct (Hnew eq_refl) as [Hnew' _].
    destruct (Hnew' main_spec.demo_addr1
                (main_spec.advance 6 (main.time_Now main_spec.demo0).2)
                eq_refl) as (s' & Hs' & _ & _ & _ & Ha & _ & _ & _ & Hsent).
    exists s'. split; [exact Hs'|]. split; [exact Ha|exact Hsent].
  - destruct (Hmain map_to_list 1%nat main_spec.demo_registration
                "10.0.0.1:1001" main_spec.demo1 _
                (main_spec.reachable_consistent _ main_spec.demo1_reachable)
                Hhdr eq_refl eq_refl) as [Hknown _].
    destruct (Hknown 0%nat eq_refl)
      as (s' & Hs' & _ & _ & _ & Hrand & _ & Hsent).
    exists s'. split; [exact Hs'|]. split; [exact Hrand|exact Hsent].
Defined.

(** ** Keepalive pings *)

(** C6: what a keepalive ping is on the wire. Both servers build the ping
    header with the destination node ff:ff:ff:ff:ff:ff and socket 2 and
    the source socket 0, and leave its checksum and its length at zero:
    unlike the registration ack, the ping does not carry the checksum
    0xFFFF nor the length 30. The standalone server writes the 30 bytes
    [ping_bytes], which begin 00 00 00 00 and have the source node
    ff:ff:ff:ff:00:00; package server marshals a header whose checksum and
    length fields are 0 and whose source node is 02:ff:ff:ff:00:00. In the
    run of package server with the default timeouts, the first sweep sends
    the first peer such a ping. *)
Theorem C6_ping_datagram :
  (∀ client s,
     main.sent (main.SendPing client s)
     = main.sent s
       ++ [(main_spec.ping_bytes, main.udpAddr (main.deref s client))]) ∧
  (length main_spec.ping_bytes = 30%nat ∧
   slice main_spec.ping_bytes 0 2 = [0x00; 0x00] ∧
   slice main_spec.ping_bytes 2 4 = [0x00; 0x00] ∧
   slice main_spec.ping_bytes 10 18
     = [0xff; 0xff; 0xff; 0xff; 0xff; 0xff; 0x00; 0x02] ∧
   slice main_spec.ping_bytes 22 30
     = [0xff; 0xff; 0xff; 0xff; 0x00; 0x00; 0x00; 0x00]) ∧
  (∀ MarshalBinary c s,
     server.trace (server.sendPing MarshalBinary c s)
     = server.trace s
       ++ match MarshalBinary server.sendPing_header with
          | Some encodedHeader =>
              [server.WriteToUDP encodedHeader
                 (server.addr (server.deref s c))]
          | None => []
          end) ∧
  (ipx.Checksum server.sendPing_header = 0 ∧
   ipx.Length server.sendPing_header = 0 ∧
   ipx.Addr (ipx.Dest server.sendPing_header)
     = [0xff; 0xff; 0xff; 0xff; 0xff; 0xff] ∧
   ipx.Socket (ipx.Dest server.sendPing_header) = 2 ∧
   ipx.Addr (ipx.Src server.sendPing_header)
     = [0x02; 0xff; 0xff; 0xff; 0x00; 0x00] ∧
   ipx.Socket (ipx.Src server.sendPing_header) = 0) ∧
  server.trace (run3 server.DefaultConfig)
  = server.trace (run2 server.DefaultConfig)
    ++ [server.SetReadDeadline 10000000000;
        server.WriteToUDP
          [0x00; 0x00; 0x00; 0x00; 0x00; 0x00;
           0x00; 0x00; 0x00; 0x00; 0xff; 0xff; 0xff; 0xff; 0xff; 0xff;
           0x00; 0x02;
           0x00; 0x00; 0x00; 0x00; 0x02; 0xff; 0xff; 0xff; 0x00; 0x00;
           0x00; 0x00]
          "10.0.0.1:1001"].
Proof.
  split; [apply main_spec.SendPing_sent|].
  split; [repeat split|].
  split; [|split; [repeat split|vm_compute; reflexivity]].
  intros MarshalBinary c s. unfold server.sendPing. simpl.
  destruct (server_spec.steady_deref _ _
              (server_spec.steady_store_lastSendTime c
                 (server.clock s (server.now_calls s)) (server.time_Now s).2)
              c) as (Ha & _).
  destruct (MarshalBinary server.sendPing_header); simpl.
  - f_equal. f_equal. f_equal. exact Ha.
  - by rewrite app_nil_r.
Qed.

(** ** The timeout sweep *)

(** C7, as the code has it: a sweep removes from the client table, and
    closes the node of, every client whose [lastReceiveTime] is more than
    [ClientTimeout] before the sweep's [now]; every client whose
    [lastReceiveTime] is [ClientTimeout] or less before [now] stays in the
    table, and the sweep does not close its node. The standalone server
    removes the same clients from both its tables. *)
Theorem C7_timeout_sweep :
  (∀ MarshalBinary range s,
     (∀ m, range m ≡ₚ map_to_list m) →
     server_spec.inv s →
     let now := server.clock s (server.now_calls s) in
     let st := server.checkClientTimeouts MarshalBinary range s in
     ∃ es, server.trace st.2 = server.trace s ++ es ∧
       ∀ k c, server.clients s !! k = Some c →
         (server.lastReceiveTime (server.deref s c)
            + server.ClientTimeout (server.config s) < now →
            server.clients st.2 !! k = None ∧
            server.NodeClose (server.node (server.deref s c)) ∈ es) ∧
         (now ≤ server.lastReceiveTime (server.deref s c)
                + server.ClientTimeout (server.config s) →
            server.clients st.2 !! k = Some c ∧
            server.NodeClose (server.node (server.deref s c)) ∉ es)) ∧
  (∀ range s,
     (∀ m, range m ≡ₚ map_to_list m) →
     main_spec.consistent s →
     let now := main.clock s (main.now_calls s) in
     let s' := main.CheckClientTimeouts range s in
     ∀ k p, main.clients s !! k = Some p →
       (main.lastReceiveTime (main.deref s p) + main.CLIENT_TIMEOUT < now →
          main.clients s' !! k = None ∧
          main.clientsByIPX s' !! main.ipxAddr (main.deref s p) = None) ∧
       (now ≤ main.lastReceiveTime (main.deref s p) + main.CLIENT_TIMEOUT →
          main.clients s' !! k = Some p ∧
          main.clientsByIPX s' !! main.ipxAddr (main.deref s p) = Some p)).
Proof.
  split.
  - intros MarshalBinary range s Hrange Hs now st.
    by destruct (server_spec.checkClientTimeouts_evicts MarshalBinary range
                   Hrange s Hs) as [_ H].
  - intros range s Hrange Hs. by apply main_spec.CheckClientTimeouts_spec.
Qed.

(** Timeouts under which the client of the run is, at the first sweep,
    exactly [ClientTimeout] old (11 s), and timeouts under which it has
    timed out (5 s) while its keepalive is not due. *)
Definition config_11s : server.Config :=
  {| server.ClientTimeout := 11 * 1000000000;
     server.KeepaliveTime := 5 * 1000000000 |}.
Definition config_5s : server.Config :=
  {| server.ClientTimeout := 5 * 1000000000;
     server.KeepaliveTime := 60 * 1000000000 |}.

(** The state in which the first sweep of the run starts. *)
Definition first_sweep (c : server.Config) : server.Server :=
  server_spec.at_sweep demo_Address demo_UnmarshalBinary demo_MarshalBinary
    server.ReadTimeout (run2 c).

Lemma first_sweep_inv c : server_spec.inv (first_sweep c).
Proof.
  pose proof (demo_reachable_inv _ (run2_reachable c)) as Hs.
  unfold first_sweep, server_spec.at_sweep, server_spec.received.
  revert Hs. generalize (run2 c). intros s Hs.
  apply (server_spec.inv_steady s); [|reflexivity|exact Hs].
  eapply server_spec.steady_trans;
    [apply server_spec.steady_emit|apply server_spec.steady_time_Now].
Qed.

(** C7, the claim as it stands fails: in the run with [ClientTimeout] = 11 s
    the first sweep happens at [now] = 12 s, when the [lastReceiveTime] of
    the client, 1 s, is exactly [ClientTimeout] in the past; the client is
    at least [ClientTimeout] old, and the sweep neither removes it nor
    closes its node. *)
Lemma C7_counterexample :
  let s := first_sweep config_11s in
  let now := server.clock s (server.now_calls s) in
  let st := server.checkClientTimeouts demo_MarshalBinary map_to_list s in
  run3 config_11s = server.set_timeoutCheckTime st.1 st.2 ∧
  server.clients s !! "10.0.0.1:1001" = Some 0%nat ∧
  now = 12000000000 ∧
  server.lastReceiveTime (server.deref s 0%nat) = 1000000000 ∧
  server.ClientTimeout (server.config s)
    ≤ now - server.lastReceiveTime (server.deref s 0%nat) ∧
  server.clients st.2 !! "10.0.0.1:1001" = Some 0%nat ∧
  server.NodeClose (server.node (server.deref s 0%nat)) ∉ server.trace st.2.
Proof.
  split; [vm_compute; reflexivity|].
  split; [reflexivity|]. split; [reflexivity|]. split; [reflexivity|].
  split; [vm_compute; discriminate|]. split; [reflexivity|].
  vm_compute. intros H.
  repeat (apply elem_of_cons in H as [H|H]; [discriminate H|]).
  by apply elem_of_nil in H.
Qed.

(** With [ClientTimeout] = 5 s the first sweep of the run evicts the
    client; the sweep of the standalone server after two registrations
    keeps the first client. *)
Lemma C7_witness :
  (let s := first_sweep config_5s in
   let st := server.checkClientTimeouts demo_MarshalBinary map_to_list s in
   server.clients st.2 !! "10.0.0.1:1001" = None) ∧
  main.clients (main.CheckClientTimeouts map_to_list main_spec.demo2)
    !! "10.0.0.1:1001" = Some 0%nat.
Proof.
  destruct C7_timeout_sweep as [Hserver Hmain]. split.
  - intros s st.
    destruct (Hserver demo_MarshalBinary map_to_list s (λ m, reflexivity _)
                (first_sweep_inv _)) as (es & _ & Hes).
    destruct (Hes "10.0.0.1:1001" 0%nat eq_refl) as [Hdead _].
    apply Hdead. vm_compute. reflexivity.
  - destruct (Hmain map_to_list main_spec.demo2 (λ m, reflexivity _)
                (main_spec.reachable_consistent _ main_spec.demo2_reachable)
                "10.0.0.1:1001" 0%nat eq_refl) as [_ Halive].
    apply Halive. vm_compute. discriminate.
Defined.

(** ** The next check time *)








(** ** Instances for the standalone server *)

(** The first of two registered peers broadcasts: one copy to the second
    peer, none to the first. *)
Lemma C2_witness :
  let packet :=
    main_spec.demo_packet main.ADDR_BROADCAST main_spec.demo_addr1 0x4002 in
  ∃ s' out,
    main.ProcessPacket map_to_list 1 packet "10.0.0.1:1001" main_spec.demo2
      = Some s' ∧
    main.sent s' = main.sent main_spec.demo2 ++ out ∧
    main_spec.copies_to "10.0.0.2:1002" out = 1%nat ∧
    main_spec.copies_to "10.0.0.1:1001" out = 0%nat.
Proof.
  intros packet.
  destruct (main_spec.C2_broadcast_delivery map_to_list 1%nat packet
              "10.0.0.1:1001" main_spec.demo2
              (main.IPXHeader_Decode main.IPXHeader_zero packet).2 0%nat)
    as (s' & out & Hs' & Hsent & _ & Hothers & Hself).
  - intros m. reflexivity.
  - eapply main_spec.reachable_consistent, main_spec.demo2_reachable.
  - reflexivity.
  - reflexivity.
  - reflexivity.
  - reflexivity.
  - reflexivity.
  - exists s', out. split; [exact Hs'|]. split; [exact Hsent|].
    split; [|exact Hself]. apply Hothers; [|discriminate].
    exists 1%nat. reflexivity.
Defined.

(** The first of two registered peers sends to the address of the second:
    one copy to the second peer. *)
Lemma C3_witness :
  let packet :=
    main_spec.demo_packet main_spec.demo_addr2 main_spec.demo_addr1 0x4002 in
  ∃ s',
    main.ProcessPacket map_to_list 1 packet "10.0.0.1:1001" main_spec.demo2
      = Some s' ∧
    main.sent s' = main.sent main_spec.demo2 ++ [(packet, "10.0.0.2:1002")].
Proof.
  intros packet.
  destruct (main_spec.C3_unicast_delivery map_to_list 1%nat packet
              "10.0.0.1:1001" main_spec.demo2
              (main.IPXHeader_Decode main.IPXHeader_zero packet).2 0%nat)
    as (s' & Hs' & Hdata & _).
  - eapply main_spec.reachable_consistent, main_spec.demo2_reachable.
  - repeat split.
  - vm_compute. discriminate.
  - exists s'. split; [exact Hs'|].
    destruct Hdata as (Hheld & _).
    + intros (h & Hh & Hr). vm_compute in Hh. injection Hh as <-.
      vm_compute in Hr. discriminate.
    + apply (Hheld "10.0.0.2:1002" 1%nat);
        [reflexivity|discriminate|reflexivity].
Defined.

(** The address drawn for the second peer of the run is free, and the two
    registered clients have different addresses. *)
Lemma C9_witness :
  main.clientsByIPX main_spec.demo1 !! main_spec.demo_addr2 = None ∧
  main.ipxAddr (main.deref main_spec.demo2 0%nat)
    ≠ main.ipxAddr (main.deref main_spec.demo2 1%nat).
Proof.
  destruct main_spec.C9_address_uniqueness as [Hnew Hreach]. split.
  - destruct (Hnew 1%nat main_spec.demo1 main_spec.demo_addr2
                (main_spec.advance 6 main_spec.demo1)) as [Hfree _].
    + eapply main_spec.reachable_consistent, main_spec.demo1_reachable.
    + reflexivity.
    + exact Hfree.
  - apply (Hreach main_spec.demo2 main_spec.demo2_reachable
             "10.0.0.1:1001" "10.0.0.2:1002" 0%nat 1%nat);
      [reflexivity|reflexivity|discriminate].
Defined.

(** The address drawn for the second peer of the run has its bytes below
    0xFF, and no client of the run is registered under the broadcast
    address. *)
Lemma C10_witness :
  Forall (λ b, 0 ≤ b < 0xff) main_spec.demo_addr2 ∧
  main.clientsByIPX main_spec.demo2 !! main.ADDR_BROADCAST = None.
Proof.
  destruct main_spec.C10_allocated_address_below_ff as [Hnew Hreach]. split.
  - destruct (Hnew 1%nat main_spec.demo1 main_spec.demo_addr2
                (main_spec.advance 6 main_spec.demo1) eq_refl)
      as (_ & Hrange & _).
    exact Hrange.
  - by destruct (Hreach main_spec.demo2 main_spec.demo2_reachable) as [H _].
Defined.


(** * More of the standalone server *)

Module main_more.
Import main main_spec.

(** ** The codec *)

(** X1: [IPXHeader.Encode] returns 30 bytes for every header value. *)
Theorem X1_Encode_30_bytes h : length (IPXHeader_Encode h) = 30%nat.
Proof. apply Encode_length. Qed.

Lemma low_bytes_id h :
  wf_header h →
  (low_bytes h = h ↔
   checksum h < 256 ∧ length_ h < 256 ∧
   socket (dest h) < 256 ∧ socket (src h) < 256).
Proof.
  intros [[] [] _ _ [_ _ _ _ []] [_ _ _ _ []]].
  destruct h as [c l t p [dn da ds] [sn sa ss]]; simpl in *.
  unfold low_bytes, low_bytes_addr; simpl. split.
  - intros [= Hc Hl Hd Hs].
    repeat split; match goal with
                  | H : ?x mod 256 = ?x |- ?x < 256 =>
                      rewrite <- H; apply Z.mod_pos_bound; lia
                  end.
  - intros (? & ? & ? & ?). rewrite !Z.mod_small by lia. reflexivity.
Qed.

(** X2: decoding the encoding of a header value succeeds and gives back the
    header with each 16-bit field (checksum, length, the two sockets)
    reduced modulo 256 and every other field unchanged; so the round trip
    is exact precisely for the headers whose four 16-bit fields are below
    256. *)
Theorem X2_Decode_Encode h :
  wf_header h →
  IPXHeader_Decode IPXHeader_zero (IPXHeader_Encode h) = (true, low_bytes h) ∧
  (IPXHeader_Decode IPXHeader_zero (IPXHeader_Encode h) = (true, h) ↔
   checksum h < 256 ∧ length_ h < 256 ∧
   socket (dest h) < 256 ∧ socket (src h) < 256).
Proof.
  intros Hwf. rewrite Decode_Encode by done. split; [done|].
  rewrite <- (low_bytes_id h Hwf). split; [by intros [= ->]|by intros ->].
Qed.

(** A header with small 16-bit fields: the one of a packet to socket 2 of
    the node 01:02:03:04:05:06, of length 30. *)
Definition small_header : IPXHeader :=
  {| checksum := 0x00ff; length_ := 30; transControl := 1; packetType := 4;
     dest := {| network := [0; 0; 0; 0]; addr := [1; 2; 3; 4; 5; 6];
                socket := 2 |};
     src := {| network := [0; 0; 0; 1]; addr := [6; 5; 4; 3; 2; 1];
               socket := 0x00fe |} |}.

Lemma small_header_wf : wf_header small_header.
Proof.
  split; simpl; try (unfold is_uint16, is_byte; lia);
    split; simpl; try reflexivity; try (unfold is_uint16; lia);
    repeat constructor; unfold is_byte; lia.
Qed.

Lemma X2_witness :
  IPXHeader_Decode IPXHeader_zero (IPXHeader_Encode small_header)
  = (true, small_header).
Proof.
  apply (X2_Decode_Encode small_header small_header_wf).
  simpl. lia.
Defined.

(** The first 30 bytes of a packet with the high byte of each 16-bit field
    of the header (offsets 0, 2, 16 and 28) set to zero. *)
Definition clear_high_bytes (packet : list Z) : list Z :=
  <[28%nat := 0]> (<[16%nat := 0]> (<[2%nat := 0]> (<[0%nat := 0]>
    (take 30 packet)))).

(** X3: encoding the header decoded from a datagram of at least 30 bytes
    gives back the first 30 bytes of the datagram, except that the high
    byte of each 16-bit field is zero. *)
Theorem X3_Encode_Decode packet :
  (30 ≤ length packet)%nat → Forall is_byte packet →
  (IPXHeader_Decode IPXHeader_zero packet).1 = true ∧
  IPXHeader_Encode (IPXHeader_Decode IPXHeader_zero packet).2
  = clear_high_bytes packet.
Proof.
  intros Hlen Hbytes.
  do 30 (destruct packet as [|? packet]; [simpl in Hlen; lia|]).
  repeat match goal with
         | H : Forall _ (_ :: _) |- _ => apply Forall_cons_1 in H as [? H]
         end.
  split; [reflexivity|].
  unfold IPXHeader_Decode. cbn [length Nat.ltb Nat.leb].
  unfold IPXHeader_Encode, with_slice, IPXHeaderAddr_Encode, with_slice,
    IPXHeaderAddr_Decode, clear_high_bytes. simpl.
  unfold idx; simpl.
  rewrite !byte_shl_8, !Z.lor_0_l. unfold to_uint16, is_byte in *.
  rewrite !(Z.mod_small _ 65536) by lia.
  rewrite !to_byte_land_ff, !(Z.mod_small _ 256) by lia.
  unfold to_byte. rewrite !Z.shiftr_div_pow2 by lia. change (2 ^ 8) with 256.
  rewrite !(Z.div_small _ 256) by lia. reflexivity.
Qed.

Lemma X3_witness :
  IPXHeader_Encode
    (IPXHeader_Decode IPXHeader_zero (demo_registration ++ [7; 7; 7])).2
  = clear_high_bytes (demo_registration ++ [7; 7; 7]).
Proof.
  apply (X3_Encode_Decode (demo_registration ++ [7; 7; 7])).
  - vm_compute. lia.
  - set (l := demo_registration ++ [7; 7; 7]). vm_compute in l. subst l.
    repeat constructor; unfold is_byte; lia.
Defined.

(** X4: [IPXHeader.Decode] succeeds exactly on the datagrams of at least 30
    bytes; a shorter datagram leaves the header as it was; and the header
    decoded from a longer one is that of its first 30 bytes: the payload
    has no part in it. *)
Theorem X4_Decode_length header packet :
  ((IPXHeader_Decode header packet).1 = true ↔ (30 ≤ length packet)%nat) ∧
  ((length packet < 30)%nat →
     IPXHeader_Decode header packet = (false, header)) ∧
  IPXHeader_Decode header (take 30 packet ++ drop 30 packet)
  = IPXHeader_Decode header packet ∧
  ((30 ≤ length packet)%nat →
     ∀ payload, IPXHeader_Decode header (take 30 packet ++ payload)
                = IPXHeader_Decode header packet).
Proof.
  split; [|split; [|split]].
  - unfold IPXHeader_Decode. destruct (Nat.ltb_spec (length packet) 30);
      simpl; split; intros; try done; lia.
  - intros Hlen. unfold IPXHeader_Decode.
    destruct (Nat.ltb_spec (length packet) 30); [done|lia].
  - by rewrite take_drop.
  - intros Hlen payload.
    do 30 (destruct packet as [|? packet]; [simpl in Hlen; lia|]).
    reflexivity.
Qed.

Lemma X4_witness :
  IPXHeader_Decode IPXHeader_zero (take 30 demo_registration ++ [9; 9])
  = IPXHeader_Decode IPXHeader_zero demo_registration.
Proof.
  apply (X4_Decode_length IPXHeader_zero demo_registration).
  vm_compute. lia.
Defined.

(** ** Address allocation *)

Lemma NewAddress_loop_first_free k : ∀ fuel result s,
  length result = 6%nat →
  (∀ j, (j < k)%nat → is_Some (clientsByIPX s !! candidate s j)) →
  clientsByIPX s !! candidate s k = None →
  (k < fuel)%nat →
  NewAddress_loop fuel result s = Some (candidate s k, advance (6 * S k) s).
Proof.
  induction k as [|k IH]; intros fuel result s Hlen Hheld Hfree Hfuel;
    destruct fuel as [|fuel]; try lia; rewrite NewAddress_loop_S by done.
  - by rewrite Hfree.
  - destruct (Hheld O) as [p Hp]; [lia|]. rewrite Hp.
    rewrite (IH fuel (candidate s 0) (advance 6 s)).
    + rewrite candidate_advance, advance_advance. do 3 f_equal. lia.
    + apply draws_length.
    + intros j Hj. rewrite candidate_advance. apply Hheld. lia.
    + by rewrite candidate_advance.
    + lia.
Qed.

(** X5: [NewAddress] draws six random bytes per attempt and returns the
    first candidate that is not in [clientsByIPX]: when the candidates
    before the [k]-th are all in use and the [k]-th is free, it returns the
    [k]-th, having called [rand.Intn] exactly 6 (k + 1) times and changed
    nothing else. *)
Theorem X5_NewAddress_first_free fuel s k :
  (∀ j, (j < k)%nat → is_Some (clientsByIPX s !! candidate s j)) →
  clientsByIPX s !! candidate s k = None →
  (k < fuel)%nat →
  NewAddress fuel s = Some (candidate s k, advance (6 * S k) s).
Proof. intros. by apply NewAddress_loop_first_free. Qed.

(** A source of random numbers that repeats its first six numbers once. *)
Definition stutter (n : nat) : Z :=
  if (n <? 6)%nat then Z.of_nat n * 7 + 1
  else if (n <? 12)%nat then Z.of_nat (n - 6) * 7 + 1
  else Z.of_nat n.

(** The server after the first registration, with that source. *)
Definition stutter1 : IPXServer :=
  match ProcessPacket map_to_list 1 demo_registration "10.0.0.1:1001"
          (Listen demo_clock stutter) with
  | Some s => s
  | None => Listen demo_clock stutter
  end.

Lemma X5_witness :
  NewAddress 2 stutter1 = Some ([12; 13; 14; 15; 16; 17], advance 12 stutter1).
Proof.
  apply (X5_NewAddress_first_free 2 stutter1 1).
  - intros j Hj. assert (j = O) as -> by lia. exists O. reflexivity.
  - reflexivity.
  - lia.
Defined.

(** ** The two tables *)

(** X6: in every state the server reaches, the table by peer and the table
    by address index the same client objects: an entry of [clients] points
    to an object whose peer is the key and whose address is a key of
    [clientsByIPX] for the same object, and an entry of [clientsByIPX]
    points to an object whose address is the key and whose peer is a key
    of [clients] for the same object. *)
Theorem X6_tables_agree s :
  reachable s →
  (∀ k p, clients s !! k = Some p →
     ∃ c, heap s !! p = Some c ∧ udpAddr c = k ∧
          clientsByIPX s !! ipxAddr c = Some p) ∧
  (∀ a p, clientsByIPX s !! a = Some p →
     ∃ c, heap s !! p = Some c ∧ ipxAddr c = a ∧
          clients s !! udpAddr c = Some p).
Proof.
  intros Hs. apply reachable_consistent in Hs as [H1 H2 _]. by split.
Qed.

Lemma X6_witness :
  ∃ c, heap demo2 !! 1%nat = Some c ∧ udpAddr c = "10.0.0.2:1002" ∧
       clientsByIPX demo2 !! ipxAddr c = Some 1%nat.
Proof.
  apply (proj1 (X6_tables_agree demo2 demo2_reachable) "10.0.0.2:1002" 1%nat).
  reflexivity.
Defined.

(** ** Keepalives of the sweep *)

(** [stale now s p]: at the time [now], the last datagram to the client [p]
    is more than [CLIENT_KEEPALIVE] old. *)
Definition stale (now : Z) (s : IPXServer) (p : nat) : Prop :=
  lastSendTime (deref s p) + CLIENT_KEEPALIVE < now.

#[local] Instance stale_dec now s p : Decision (stale now s p).
Proof. unfold stale. apply _. Defined.

Lemma filter_agree {A} (P Q : A → Prop) `{!∀ x, Decision (P x)}
    `{!∀ x, Decision (Q x)} (l : list A) :
  (∀ x, x ∈ l → P x ↔ Q x) → filter P l = filter Q l.
Proof.
  induction l as [|x l IH]; intros Hl; [done|].
  rewrite !filter_cons.
  assert (P x ↔ Q x) as Hx by (apply Hl; left).
  rewrite IH by (intros y Hy; apply Hl; by right).
  destruct (decide (P x)), (decide (Q x)); tauto.
Qed.

Lemma send_to_lastSendTime packet p s :
  is_Some (heap s !! p) →
  lastSendTime (deref (send_to packet p s) p) = clock s (now_calls s) ∧
  ∀ q, q ≠ p →
    lastSendTime (deref (send_to packet p s) q) = lastSendTime (deref s q).
Proof.
  intros [c Hc]. unfold send_to, deref; simpl. split.
  - by rewrite list_lookup_alter_eq, Hc.
  - intros q Hq. by rewrite list_lookup_alter_ne.
Qed.

(** One round of the sweep, as far as the socket and the clock go. *)
Lemma CheckClientTimeouts_body_ping now k p s :
  consistent s → clients s !! k = Some p →
  let s1 := CheckClientTimeouts_body now p s in
  clock s1 = clock s ∧
  (∀ q, q ≠ p → lastSendTime (deref s1 q) = lastSendTime (deref s q)) ∧
  if decide (stale now s p)
  then sent s1 = sent s ++ [(ping_bytes, k)] ∧
       now_calls s1 = S (now_calls s) ∧
       lastSendTime (deref s1 p) = clock s (now_calls s)
  else sent s1 = sent s ∧ now_calls s1 = now_calls s ∧
       lastSendTime (deref s1 p) = lastSendTime (deref s p).
Proof.
  intros Hs Hk. destruct (consistent_deref s k p Hs Hk) as (Hp & _ & _).
  unfold CheckClientTimeouts_body, After.
  destruct (decide (stale now s p)) as [Hst|Hst].
  - rewrite (bool_decide_eq_true_2 _ Hst). rewrite SendPing_send_to.
    destruct (send_to_lastSendTime ping_bytes p s) as [Hl Hq]; [by eexists|].
    pose proof (sent_send_to ping_bytes k p s Hs Hk) as Hsent.
    destruct (bool_decide _); simpl; repeat split; done.
  - rewrite (bool_decide_eq_false_2 _ Hst).
    destruct (bool_decide _); simpl; repeat split; done.
Qed.

(** The rounds of the sweep over the entries [l] of the table: one ping
    goes to each stale client of [l], in the order of [l], each after one
    reading of the clock. *)
Lemma CheckClientTimeouts_pings now l : ∀ s,
  consistent s → NoDup l.*1 →
  (∀ kp, kp ∈ l → clients s !! kp.1 = Some kp.2) →
  let s' := foldl (λ s kp,
              match clients s !! kp.1 with
              | Some client => CheckClientTimeouts_body now client s
              | None => s
              end) s l in
  let pinged := filter (λ kp, stale now s kp.2) l in
  sent s' = sent s ++ ((λ kp, (ping_bytes, kp.1)) <$> pinged) ∧
  clock s' = clock s ∧
  now_calls s' = (now_calls s + length pinged)%nat ∧
  (∀ q, (∀ kp, kp ∈ l → kp.2 ≠ q) →
     lastSendTime (deref s' q) = lastSendTime (deref s q)) ∧
  (∀ kp, kp ∈ l →
     if decide (stale now s kp.2)
     then ∃ i, (now_calls s ≤ i < now_calls s')%nat ∧
               lastSendTime (deref s' kp.2) = clock s i
     else lastSendTime (deref s' kp.2) = lastSendTime (deref s kp.2)).
Proof.
  induction l as [|[k0 p0] l IH]; intros s Hs Hnd Hl; cbn [foldl fst snd].
  - cbn zeta. rewrite filter_nil. simpl. rewrite app_nil_r.
    repeat split; try done; try lia.
    intros kp H. by apply elem_of_nil in H.
  - apply NoDup_cons in Hnd as [Hk0 Hnd].
    assert (Hp0 : clients s !! k0 = Some p0) by (apply (Hl (k0, p0)); left).
    rewrite Hp0.
    destruct (CheckClientTimeouts_body_spec now k0 p0 s Hs Hp0)
      as (Hs1 & Hko1 & Hc1).
    destruct (CheckClientTimeouts_body_ping now k0 p0 s Hs Hp0)
      as (Hclk1 & Hoth1 & Hping1).
    set (s1 := CheckClientTimeouts_body now p0 s) in *.
    assert (Hne : ∀ kp, kp ∈ l → kp.1 ≠ k0 ∧ kp.2 ≠ p0).
    { intros [k p] Hkp. simpl.
      assert (k ≠ k0) as Hk.
      { intros ->. apply Hk0. apply list_elem_of_fmap. by exists (k0, p). }
      split; [done|]. intros ->.
      assert (clients s !! k = Some p0) as Hkp0 by (apply (Hl (k, p0)); by right).
      destruct (consistent_deref s k p0 Hs Hkp0) as (_ & Hu & _).
      destruct (consistent_deref s k0 p0 Hs Hp0) as (_ & Hu0 & _).
      congruence. }
    assert (Hl1 : ∀ kp, kp ∈ l → clients s1 !! kp.1 = Some kp.2).
    { intros kp Hkp. destruct (Hne kp Hkp) as [Hk _]. rewrite Hc1.
      case_bool_decide; [rewrite lookup_delete_ne by done|];
        apply Hl; by right. }
    assert (Hst1 : ∀ kp, kp ∈ l → stale now s1 kp.2 ↔ stale now s kp.2).
    { intros kp Hkp. destruct (Hne kp Hkp) as [_ Hp]. unfold stale.
      by rewrite Hoth1. }
    specialize (IH s1 Hs1 Hnd Hl1). cbn zeta in IH.
    rewrite (filter_agree _ (λ kp, stale now s kp.2) l Hst1) in IH.
    destruct IH as (Hsent & Hclk & Hcalls & Hoth & Hin).
    cbn zeta. rewrite filter_cons. cbn [snd].
    split; [|split; [|split; [|split]]].
    + rewrite Hsent. destruct (decide (stale now s p0)).
      * destruct Hping1 as (-> & _). by rewrite <- app_assoc.
      * by destruct Hping1 as (-> & _).
    + congruence.
    + rewrite Hcalls. destruct (decide (stale now s p0)).
      * destruct Hping1 as (_ & -> & _). simpl. lia.
      * by destruct Hping1 as (_ & -> & _).
    + intros q Hq. rewrite Hoth by (intros kp Hkp; apply Hq; by right).
      apply Hoth1. intros ->. by apply (Hq (k0, p0)); [left|].
    + intros kp Hkp. apply elem_of_cons in Hkp as [->|Hkp].
      * cbn [snd]. rewrite Hoth by (intros kp Hkp; by apply Hne).
        destruct (decide (stale now s p0)) as [Hst|Hst].
        -- destruct Hping1 as (_ & Hn1 & ->). exists (now_calls s).
           split; [|done]. rewrite Hcalls, Hn1. lia.
        -- by destruct Hping1 as (_ & _ & ->).
      * specialize (Hin kp Hkp).
        destruct (decide (stale now s1 kp.2)) as [Hst|Hst];
          destruct (decide (stale now s kp.2)) as [Hst'|Hst'];
          try (apply Hst1 in Hst; done); try (apply Hst1 in Hst'; done).
        -- destruct Hin as (i & Hi & Hlast). exists i. rewrite <- Hclk1.
           split; [|done].
           assert (now_calls s ≤ now_calls s1)%nat.
           { destruct (decide (stale now s p0));
               [destruct Hping1 as (_ & -> & _)|destruct Hping1 as (_ & -> & _)];
               lia. }
           lia.
        -- rewrite Hin. destruct (Hne kp Hkp) as [_ Hp]. by apply Hoth1.
Qed.

(** X7: the keepalives of a sweep.  [CheckClientTimeouts] reads the clock
    once and then sends one ping -- the 30 bytes [ping_bytes] -- to each
    client whose [lastSendTime] plus [CLIENT_KEEPALIVE] is before that
    reading, and nothing to anyone else; it reads the clock once more per
    ping, and a pinged client's [lastSendTime] becomes one of these later
    readings while every other client's stays as it is.  A client that the
    same sweep evicts is pinged all the same. *)
Theorem X7_sweep_keepalives range s :
  (∀ m, range m ≡ₚ map_to_list m) →
  consistent s →
  let now := clock s (now_calls s) in
  let s' := CheckClientTimeouts range s in
  (∃ out,
     sent s' = sent s ++ out ∧
     out ≡ₚ (λ kp, (ping_bytes, kp.1))
             <$> filter (λ kp, stale now s kp.2) (map_to_list (clients s)) ∧
     now_calls s' = (S (now_calls s) + length out)%nat) ∧
  (∀ k p, clients s !! k = Some p →
     (stale now s p →
        ∃ i, (now_calls s < i < now_calls s')%nat ∧
             lastSendTime (deref s' p) = clock s i) ∧
     (¬ stale now s p →
        lastSendTime (deref s' p) = lastSendTime (deref s p))).
Proof.
  intros range_perm Hs now s'.
  pose proof (CheckClientTimeouts_pings now (range (clients s))
                (time_Now s).2) as H.
  cbn zeta in H. destruct H as (Hsent & _ & Hcalls & _ & Hin).
  { eapply consistent_frame; [apply frame_time_Now|done]. }
  { rewrite range_perm. apply NoDup_fst_map_to_list. }
  { intros [k' q] Hkq. by apply (range_lookup range range_perm). }
  change (foldl _ _ _) with s' in Hsent, Hcalls, Hin.
  split.
  - eexists. split; [exact Hsent|]. split.
    + apply fmap_Permutation.
      change (filter (λ kp, stale now s kp.2) (range (clients s))
              ≡ₚ filter (λ kp, stale now s kp.2) (map_to_list (clients s))).
      by rewrite range_perm.
    + rewrite Hcalls, length_fmap. simpl. lia.
  - intros k p Hk.
    assert (Hkp : (k, p) ∈ range (clients s)).
    { rewrite range_perm. by apply elem_of_map_to_list. }
    specialize (Hin (k, p) Hkp). cbn [snd] in Hin.
    change (stale now (time_Now s).2 p) with (stale now s p) in Hin.
    destruct (decide (stale now s p)) as [Hst|Hst]; split; done.
Qed.

(** The two registered peers one read timeout later. *)
Definition demo2a : IPXServer := after_Poll ReadTimeout demo2.

Lemma demo2a_reachable : reachable demo2a.
Proof.
  apply after_Poll_reachable; [apply demo2_reachable|].
  eexists. vm_compute. reflexivity.
Qed.

Lemma X7_witness :
  ∃ out,
    sent (CheckClientTimeouts map_to_list demo2a) = sent demo2a ++ out ∧
    out ≡ₚ (λ kp, (ping_bytes, kp.1))
            <$> filter (λ kp, stale (clock demo2a (now_calls demo2a))
                                demo2a kp.2)
                  (map_to_list (clients demo2a)) ∧
    now_calls (CheckClientTimeouts map_to_list demo2a)
    = (S (now_calls demo2a) + length out)%nat.
Proof.
  apply (X7_sweep_keepalives map_to_list demo2a).
  - done.
  - apply reachable_consistent, demo2a_reachable.
Defined.
(** ** What the steps of the server preserve *)

Section preserved.

(** A relation between the state before and the state after, kept by the
    elementary steps the code is made of. *)
Variable R : IPXServer → IPXServer → Prop.
Hypothesis R_refl : ∀ s, R s s.
Hypothesis R_trans : ∀ s1 s2 s3, R s1 s2 → R s2 s3 → R s1 s3.
Hypothesis R_time_Now : ∀ s, R s (time_Now s).2.
Hypothesis R_lastSendTime : ∀ p t s, R s (store_lastSendTime p t s).
Hypothesis R_lastReceiveTime : ∀ p t s, R s (store_lastReceiveTime p t s).
Hypothesis R_WriteToUDP : ∀ data to s, R s (WriteToUDP data to s).
Hypothesis R_advance : ∀ n s, R s (advance n s).
Hypothesis R_register : ∀ peer a now s,
  clients s !! peer = None → R s (register peer a now s).
Hypothesis R_evict : ∀ p s, R s (evict p s).

Variable range : gmap string nat → list (string * nat).

Lemma preserved_send_to packet p s : R s (send_to packet p s).
Proof.
  unfold send_to.
  eapply R_trans; [apply R_time_Now|].
  eapply R_trans; [apply R_lastSendTime|]. apply R_WriteToUDP.
Qed.

Lemma preserved_NewClient fuel header peer s s' :
  NewClient fuel header peer s = Some s' → R s s'.
Proof.
  intros Hret. destruct (clients s !! peer) as [p|] eqn:Hp.
  - rewrite (NewClient_known _ _ _ _ p) in Hret by done.
    injection Hret as <-. apply (preserved_send_to _ p s).
  - destruct (NewAddress fuel (time_Now s).2) as [[a s1]|] eqn:Ha.
    + rewrite (NewClient_new _ _ _ _ a s1) in Hret by done.
      injection Hret as <-.
      apply NewAddress_loop_spec in Ha as (k & _ & _ & -> & _); [|done].
      eapply R_trans; [apply R_time_Now|].
      eapply R_trans; [apply R_advance|].
      eapply R_trans; [apply R_register; exact Hp|].
      apply (preserved_send_to _ _ _).
    + rewrite NewClient_no_fuel in Hret by done. discriminate.
Qed.

Lemma preserved_ForwardPacket header packet s :
  R s (ForwardPacket header packet s).
Proof.
  unfold ForwardPacket.
  destruct (clientsByIPX s !! addr (dest header)) as [q|]; [|apply R_refl].
  apply (preserved_send_to packet q s).
Qed.

Lemma preserved_ForwardBroadcastPacket header packet s :
  R s (ForwardBroadcastPacket range header packet s).
Proof.
  unfold ForwardBroadcastPacket.
  apply (for_range_ind range (R s)); [apply R_refl|].
  intros k p s' Hs' _. case_bool_decide; [|done].
  eapply R_trans; [exact Hs'|]. apply (preserved_send_to packet p s').
Qed.

Lemma preserved_ProcessPacket fuel packet peer s s' :
  ProcessPacket range fuel packet peer s = Some s' → R s s'.
Proof.
  unfold ProcessPacket.
  destruct (IPXHeader_Decode IPXHeader_zero packet) as [[] header]; simpl;
    [|by intros [= <-]].
  destruct (IsRegistrationPacket header); [by apply preserved_NewClient|].
  destruct (clients s !! peer) as [p|]; [|by intros [= <-]].
  case_bool_decide; [by intros [= <-]|].
  simpl. intros Hret.
  assert (Hr : R s (store_lastReceiveTime p (clock s (now_calls s))
                      (time_Now s).2)).
  { eapply R_trans; [apply R_time_Now|]. apply R_lastReceiveTime. }
  destruct (IsBroadcast header); injection Hret as <-.
  - eapply R_trans; [exact Hr|apply preserved_ForwardBroadcastPacket].
  - eapply R_trans; [exact Hr|apply preserved_ForwardPacket].
Qed.

Lemma preserved_CheckClientTimeouts_body now p s :
  R s (CheckClientTimeouts_body now p s).
Proof.
  unfold CheckClientTimeouts_body.
  set (s1 := if After now _ then SendPing p s else s).
  assert (R s s1) as H1.
  { subst s1. destruct (After now _); [|apply R_refl].
    rewrite SendPing_send_to. apply preserved_send_to. }
  destruct (After now (lastReceiveTime (deref s1 p) + CLIENT_TIMEOUT));
    [|done].
  eapply R_trans; [exact H1|]. apply (R_evict p s1).
Qed.

Lemma preserved_CheckClientTimeouts s : R s (CheckClientTimeouts range s).
Proof.
  unfold CheckClientTimeouts. simpl.
  apply (for_range_ind range (R s)); [apply R_time_Now|].
  intros k p s' Hs' _.
  eapply R_trans; [exact Hs'|apply preserved_CheckClientTimeouts_body].
Qed.

End preserved.

(** ** The schedule of the sweeps *)

(** [ticks s s']: the clock is the same and has not been read fewer
    times, and the deadline of the next sweep is the same. *)
Record ticks (s s' : IPXServer) : Prop := {
  ticks_clock : clock s' = clock s;
  ticks_calls : (now_calls s ≤ now_calls s')%nat;
  ticks_deadline : timeoutCheckTime s' = timeoutCheckTime s;
}.

Lemma ticks_refl s : ticks s s.
Proof. by split. Qed.

Lemma ticks_trans s1 s2 s3 : ticks s1 s2 → ticks s2 s3 → ticks s1 s3.
Proof. intros [] []. split; [congruence|lia|congruence]. Qed.

Lemma ticks_ProcessPacket range fuel packet peer s s' :
  ProcessPacket range fuel packet peer s = Some s' → ticks s s'.
Proof.
  apply (preserved_ProcessPacket ticks ticks_refl ticks_trans);
    intros; split; simpl; done || lia.
Qed.

Lemma ticks_CheckClientTimeouts range s :
  ticks s (CheckClientTimeouts range s).
Proof.
  apply (preserved_CheckClientTimeouts ticks ticks_refl ticks_trans);
    intros; split; simpl; done || lia.
Qed.

Lemma Poll_ticks range fuel r s b s' :
  Poll range fuel r s = Some (b, s') →
  (b = false ↔ r = ReadNetError) ∧
  (r = ReadNetError → s' = s) ∧
  (r ≠ ReadNetError →
     clock s' = clock s ∧
     ∃ i, (now_calls s ≤ i < now_calls s')%nat ∧
          timeoutCheckTime s' =
            if bool_decide (timeoutCheckTime s < clock s i)
            then timeoutCheckTime s + 10000000000 else timeoutCheckTime s).
Proof.
  unfold Poll.
  assert (Hafter : ∀ s1 b' s'', ticks s s1 →
    (if After (clock s1 (now_calls s1)) (timeoutCheckTime s1)
     then
       Some (true,
             set_timeoutCheckTime
               (timeoutCheckTime (CheckClientTimeouts range (time_Now s1).2)
                + 10000000000)
               (CheckClientTimeouts range (time_Now s1).2))
     else Some (true, (time_Now s1).2)) = Some (b', s'') →
    b' = true ∧ clock s'' = clock s ∧
    ∃ i, (now_calls s ≤ i < now_calls s'')%nat ∧
         timeoutCheckTime s'' =
           if bool_decide (timeoutCheckTime s < clock s i)
           then timeoutCheckTime s + 10000000000 else timeoutCheckTime s).
  { intros s1 b' s'' [Hc Hn Hd]. unfold After. rewrite Hc, Hd.
    case_bool_decide as Hlate; intros [= <- <-].
    - destruct (ticks_CheckClientTimeouts range (time_Now s1).2)
        as [Hc3 Hn3 Hd3].
      set (s3 := CheckClientTimeouts range (time_Now s1).2) in *.
      change (clock (time_Now s1).2) with (clock s1) in Hc3.
      change (now_calls (time_Now s1).2) with (S (now_calls s1)) in Hn3.
      change (timeoutCheckTime (time_Now s1).2)
        with (timeoutCheckTime s1) in Hd3.
      split; [done|]. split; [change (clock s3 = clock s); congruence|].
      exists (now_calls s1).
      split; [change (now_calls s ≤ now_calls s1 < now_calls s3)%nat; lia|].
      rewrite bool_decide_eq_true_2 by done.
      change (timeoutCheckTime s3 + 10000000000
              = timeoutCheckTime s + 10000000000). congruence.
    - split; [done|]. split; [done|].
      exists (now_calls s1).
      split; [change (now_calls s ≤ now_calls s1 < S (now_calls s1))%nat; lia|].
      by rewrite bool_decide_eq_false_2. }
  destruct r as [datagram peer| | |]; simpl.
  - destruct (ProcessPacket range fuel (take 1500 datagram) peer s)
      as [s1|] eqn:Hpp; simpl; [|discriminate].
    intros H. apply Hafter in H as (-> & ? & ?);
      [|by eapply ticks_ProcessPacket].
    repeat split; done.
  - intros H. apply Hafter in H as (-> & ? & ?); [|apply ticks_refl].
    repeat split; done.
  - intros [= <- <-]. repeat split; done.
  - intros H. apply Hafter in H as (-> & ? & ?); [|apply ticks_refl].
    repeat split; done.
Qed.

(** X8: one call of [Poll].  It returns false exactly when the read failed
    with a [net.Error] that is no timeout, and has then changed nothing.
    Otherwise it reads the clock once after the datagram, if any, has been
    processed, and moves the deadline of the sweep by exactly ten seconds
    if that reading is after the deadline, and not at all if it is not:
    however late the sweep runs, the deadline advances by one period. *)
Theorem X8_Poll_schedule range fuel r s b s' :
  Poll range fuel r s = Some (b, s') →
  (b = false ↔ r = ReadNetError) ∧
  (r = ReadNetError → s' = s) ∧
  (r ≠ ReadNetError →
     clock s' = clock s ∧
     ∃ i, (now_calls s ≤ i < now_calls s')%nat ∧
          timeoutCheckTime s' =
            if bool_decide (timeoutCheckTime s < clock s i)
            then timeoutCheckTime s + 10000000000 else timeoutCheckTime s).
Proof. apply Poll_ticks. Qed.

Lemma X8_witness :
  (true = false ↔ ReadTimeout = ReadNetError) ∧
  (ReadTimeout = ReadNetError → demo2a = demo2) ∧
  (ReadTimeout ≠ ReadNetError →
     clock demo2a = clock demo2 ∧
     ∃ i, (now_calls demo2 ≤ i < now_calls demo2a)%nat ∧
          timeoutCheckTime demo2a =
            if bool_decide (timeoutCheckTime demo2 < clock demo2 i)
            then timeoutCheckTime demo2 + 10000000000
            else timeoutCheckTime demo2).
Proof.
  apply (X8_Poll_schedule map_to_list 1 ReadTimeout demo2 true demo2a).
  vm_compute. reflexivity.
Defined.

(** X9: in every state the server reaches, the deadline of the next sweep
    is the first reading of the clock, the one [Listen] took, plus a whole,
    positive number of ten-second periods: the schedule does not drift
    with the times at which the sweeps actually run. *)
Theorem X9_sweep_deadline_grid s :
  reachable s →
  ∃ n : nat, timeoutCheckTime s = clock s O + 10000000000 * Z.of_nat (S n).
Proof.
  induction 1 as [clk rnd|range fuel r s s' _ _ [n IH] Hpoll].
  - exists O. simpl. lia.
  - apply Poll_ticks in Hpoll as (Hb & _ & Hrun).
    destruct Hrun as (Hc & i & _ & Hd); [intros Hr; by apply Hb in Hr|].
    rewrite Hc, Hd. case_bool_decide.
    + exists (S n). lia.
    + by exists n.
Qed.

Lemma X9_witness :
  ∃ n : nat,
    timeoutCheckTime demo2 = clock demo2 O + 10000000000 * Z.of_nat (S n).
Proof. apply (X9_sweep_deadline_grid demo2 demo2_reachable). Defined.

(** ** Client objects and table entries across a call of [Poll] *)

(** [keeps_identity s s']: every client object of [s] is an object of
    [s'], with the same peer and the same address. *)
Definition keeps_identity (s s' : IPXServer) : Prop :=
  ∀ p c, heap s !! p = Some c →
    ∃ c', heap s' !! p = Some c' ∧
          udpAddr c' = udpAddr c ∧ ipxAddr c' = ipxAddr c.

Lemma keeps_identity_refl s : keeps_identity s s.
Proof. intros p c Hc. eauto. Qed.

Lemma keeps_identity_trans s1 s2 s3 :
  keeps_identity s1 s2 → keeps_identity s2 s3 → keeps_identity s1 s3.
Proof.
  intros H12 H23 p c Hc.
  destruct (H12 p c Hc) as (c2 & Hc2 & ? & ?).
  destruct (H23 p c2 Hc2) as (c3 & Hc3 & ? & ?).
  exists c3. repeat split; congruence.
Qed.

Lemma keeps_identity_frame s s' : frame s s' → keeps_identity s s'.
Proof. intros Hf. exact (frame_heap _ _ Hf). Qed.

Lemma keeps_identity_register peer a now s :
  keeps_identity s (register peer a now s).
Proof.
  intros p c Hc. exists c. split; [|done].
  destruct (register_tables peer a now s) as (_ & _ & ->).
  by apply lookup_app_l_Some.
Qed.

(** Processing a datagram adds entries to the table by peer, and takes
    none away; the sweep takes entries away, and adds none. *)
Definition grows (s s' : IPXServer) : Prop :=
  keeps_identity s s' ∧ clients s ⊆ clients s'.

Definition shrinks (s s' : IPXServer) : Prop :=
  keeps_identity s s' ∧ clients s' ⊆ clients s.

Lemma grows_frame s s' : frame s s' → grows s s'.
Proof.
  intros Hf. split; [by apply keeps_identity_frame|].
  by rewrite (frame_clients _ _ Hf).
Qed.

Lemma shrinks_frame s s' : frame s s' → shrinks s s'.
Proof.
  intros Hf. split; [by apply keeps_identity_frame|].
  by rewrite (frame_clients _ _ Hf).
Qed.

Lemma grows_ProcessPacket range fuel packet peer s s' :
  ProcessPacket range fuel packet peer s = Some s' → grows s s'.
Proof.
  apply (preserved_ProcessPacket grows).
  - intros s0. apply grows_frame, frame_refl.
  - intros s1 s2 s3 [H12 Hc12] [H23 Hc23].
    split; [by eapply keeps_identity_trans|by etrans].
  - intros s0. apply grows_frame, frame_time_Now.
  - intros p t s0. apply grows_frame, frame_store_lastSendTime.
  - intros p t s0. apply grows_frame, frame_store_lastReceiveTime.
  - intros data to s0. apply grows_frame, frame_WriteToUDP.
  - intros n s0. apply grows_frame, frame_advance.
  - intros peer' a now s0 Hnone. split; [apply keeps_identity_register|].
    destruct (register_tables peer' a now s0) as (-> & _).
    by apply insert_subseteq.
Qed.

Lemma shrinks_CheckClientTimeouts range s :
  shrinks s (CheckClientTimeouts range s).
Proof.
  apply (preserved_CheckClientTimeouts shrinks).
  - intros s0. apply shrinks_frame, frame_refl.
  - intros s1 s2 s3 [H12 Hc12] [H23 Hc23].
    split; [by eapply keeps_identity_trans|by etrans].
  - intros s0. apply shrinks_frame, frame_time_Now.
  - intros p t s0. apply shrinks_frame, frame_store_lastSendTime.
  - intros data to s0. apply shrinks_frame, frame_WriteToUDP.
  - intros p s0. split; [exact (keeps_identity_refl s0)|].
    unfold evict. simpl. apply delete_subseteq.
Qed.

(** X10: across a call of [Poll], no client object changes its peer or
    its address, and a peer that is in the table before and after is there
    under the same client object -- so with the same address: an entry is
    never replaced, only added by a registration or deleted by the
    sweep. *)
Theorem X10_Poll_keeps_identity range fuel r s b s' :
  Poll range fuel r s = Some (b, s') →
  (∀ p c, heap s !! p = Some c →
     ∃ c', heap s' !! p = Some c' ∧
           udpAddr c' = udpAddr c ∧ ipxAddr c' = ipxAddr c) ∧
  (∀ k p p', clients s !! k = Some p → clients s' !! k = Some p' → p' = p).
Proof.
  unfold Poll.
  assert (Hafter : ∀ s1 b' s'', grows s s1 →
    (if After (clock s1 (now_calls s1)) (timeoutCheckTime s1)
     then
       Some (true,
             set_timeoutCheckTime
               (timeoutCheckTime (CheckClientTimeouts range (time_Now s1).2)
                + 10000000000)
               (CheckClientTimeouts range (time_Now s1).2))
     else Some (true, (time_Now s1).2)) = Some (b', s'') →
    keeps_identity s s'' ∧
    (∀ k p p', clients s !! k = Some p → clients s'' !! k = Some p' →
               p' = p)).
  { intros s1 b' s'' [Hid Hsub].
    assert (Hvia : ∀ s2, shrinks s1 s2 →
      keeps_identity s s2 ∧
      (∀ k p p', clients s !! k = Some p → clients s2 !! k = Some p' →
                 p' = p)).
    { intros s2 [Hid2 Hsub2]. split; [by eapply keeps_identity_trans|].
      intros k p p' Hk Hk'.
      pose proof (lookup_weaken _ _ _ _ Hk Hsub).
      pose proof (lookup_weaken _ _ _ _ Hk' Hsub2). congruence. }
    destruct (After _ _); intros [= <- <-]; apply Hvia.
    - destruct (shrinks_CheckClientTimeouts range (time_Now s1).2)
        as [H1 H2].
      split.
      + eapply keeps_identity_trans;
          [apply keeps_identity_frame, frame_time_Now|].
        eapply keeps_identity_trans; [exact H1|].
        apply keeps_identity_frame, frame_set_timeoutCheckTime.
      + exact H2.
    - apply shrinks_frame, frame_time_Now. }
  destruct r as [datagram peer| | |]; simpl.
  - destruct (ProcessPacket range fuel (take 1500 datagram) peer s)
      as [s1|] eqn:Hpp; simpl; [|discriminate].
    intros H. apply Hafter in H; [done|by eapply grows_ProcessPacket].
  - intros H. apply Hafter in H; [done|apply grows_frame, frame_refl].
  - intros [= <- <-]. split; [apply keeps_identity_refl|congruence].
  - intros H. apply Hafter in H; [done|apply grows_frame, frame_refl].
Qed.

Lemma demo2_Poll :
  Poll map_to_list 1 (ReadOk demo_registration "10.0.0.2:1002") demo1
  = Some (true, demo2).
Proof. vm_compute. reflexivity. Qed.

Lemma X10_witness :
  ∃ c', heap demo2 !! O = Some c' ∧
        udpAddr c' = udpAddr (deref demo1 O) ∧
        ipxAddr c' = ipxAddr (deref demo1 O).
Proof.
  apply (proj1 (X10_Poll_keeps_identity map_to_list 1
                  (ReadOk demo_registration "10.0.0.2:1002")
                  demo1 true demo2 demo2_Poll) O (deref demo1 O)).
  vm_compute. reflexivity.
Defined.
(** ** After an eviction *)

(** Whether a datagram meets the three conditions can be decided. *)
Lemma accepted_or_not s packet peer :
  (∃ header p, accepted s packet peer header p) ∨
  ¬ (∃ header p, accepted s packet peer header p).
Proof.
  unfold accepted.
  destruct (IPXHeader_Decode IPXHeader_zero packet) as [[] header] eqn:Hd.
  - destruct (clients s !! peer) as [p|] eqn:Hp.
    + destruct (decide (addr (src header) = ipxAddr (deref s p))) as [He|Hne].
      * left. by exists header, p.
      * right. intros (h & q & Hh & Hq & Hsrc). congruence.
    + right. intros (h & q & _ & Hq & _). discriminate.
  - right. intros (h & q & Hh & _). discriminate.
Qed.

(** X11: a client the sweep evicts is cut off until its peer registers
    again.  When the sweep runs at a time that is after the client's
    [lastReceiveTime] plus [CLIENT_TIMEOUT], then in the state it leaves:
    a datagram from the client's peer that the server does not take for a
    registration is dropped without any effect; a datagram from the
    client's peer that the server does take for a registration (so also
    one for the node 00:00:00:00:00:00 and the socket 0x0102, see
    [taken_for_registration_wire]) makes a new client record for the peer
    and is answered with an ack, [ProcessPacket] returning as soon as
    one of the candidate addresses it has fuel for is free; and a
    datagram from whatever peer that is not taken for a registration and
    whose destination node is the address the evicted client had is sent
    to nobody. *)
Theorem X11_evicted_cut_off range fuel s k p :
  (∀ m, range m ≡ₚ map_to_list m) →
  consistent s →
  clients s !! k = Some p →
  lastReceiveTime (deref s p) + CLIENT_TIMEOUT < clock s (now_calls s) →
  let s' := CheckClientTimeouts range s in
  (∀ packet, ¬ taken_for_registration packet →
     ProcessPacket range fuel packet k s' = Some s') ∧
  (∀ packet, taken_for_registration packet →
     (∀ j, clientsByIPX s' !! candidate (time_Now s').2 j = None →
           (j < fuel)%nat →
           is_Some (ProcessPacket range fuel packet k s')) ∧
     (∀ s'', ProcessPacket range fuel packet k s' = Some s'' →
             clients s'' !! k = Some (length (heap s')) ∧
             ∃ a, sent s'' = sent s' ++ [(ack_bytes a, k)])) ∧
  (∀ packet peer,
     ¬ taken_for_registration packet →
     wire_dest_node packet = ipxAddr (deref s p) →
     ∃ s'', ProcessPacket range fuel packet peer s' = Some s'' ∧
            sent s'' = sent s').
Proof.
  intros range_perm Hs Hk Hto s'.
  destruct (proj1 (CheckClientTimeouts_spec range range_perm s Hs k p Hk) Hto)
    as [Hgone Hfree]. fold s' in Hgone, Hfree.
  assert (Hs' : consistent s') by by apply consistent_CheckClientTimeouts.
  split; [|split].
  - intros packet Hnt.
    apply (ProcessPacket_dropped range fuel packet k s' Hnt).
    intros (header & q & _ & Hq & _). congruence.
  - intros packet Ht.
    by apply (ProcessPacket_taken_unknown range fuel packet k s').
  - intros packet peer Hnt Hdest.
    destruct (accepted_or_not s' packet peer) as [(header & q & Hacc)|Hno].
    + pose proof Hacc as (Hd & Hq & Hsrc).
      destruct (Decode_dest_node packet header Hd) as (_ & Ha).
      rewrite <- Ha in Hdest.
      rewrite (ProcessPacket_accepted range fuel packet peer s' header q);
        [|done|by apply (not_taken_for_registration packet)|done|done].
      destruct (consistent_deref s k p Hs Hk) as (_ & _ & Hi).
      destruct (byIPX_allocated _ Hs _ _ Hi) as [_ Hr].
      assert (IsBroadcast header = false) as ->.
      { apply bool_decide_eq_false_2. rewrite Hdest. intros Hbc.
        rewrite Hbc in Hr. apply Forall_cons_1 in Hr as [? _]. lia. }
      eexists. split; [reflexivity|].
      unfold ForwardPacket.
      rewrite (frame_clientsByIPX _ _ (frame_refresh q s')), Hdest, Hfree.
      reflexivity.
    + exists s'. split; [|done].
      by apply ProcessPacket_dropped.
Qed.

(** A clock that advances a thousand seconds per reading, and the server
    that has, with that clock, registered one peer. *)
Definition slow_clock (n : nat) : Z := Z.of_nat n * 1000000000000.

Definition lone : IPXServer :=
  match ProcessPacket map_to_list 1 demo_registration "10.0.0.1:1001"
          (Listen slow_clock demo_entropy) with
  | Some s => s
  | None => Listen slow_clock demo_entropy
  end.

Lemma lone_consistent : consistent lone.
Proof.
  unfold lone.
  destruct (ProcessPacket _ _ _ _ _) as [s|] eqn:Hpp;
    [|apply consistent_Listen].
  eapply consistent_ProcessPacket; [apply consistent_Listen|exact Hpp].
Qed.

(** The lone client is evicted by a sweep; a packet of its peer for its
    old address is then dropped, and a datagram of its peer for the node
    00:00:00:00:00:00, socket 0x0102, registers the peer again. *)
Lemma X11_witness :
  ProcessPacket map_to_list 1 (demo_packet demo_addr1 demo_addr1 0x4002)
    "10.0.0.1:1001" (CheckClientTimeouts map_to_list lone)
  = Some (CheckClientTimeouts map_to_list lone) ∧
  ∃ s'', ProcessPacket map_to_list 1 socket_0x0102_packet "10.0.0.1:1001"
           (CheckClientTimeouts map_to_list lone) = Some s'' ∧
         clients s'' !! "10.0.0.1:1001"
         = Some (length (heap (CheckClientTimeouts map_to_list lone))).
Proof.
  destruct (X11_evicted_cut_off map_to_list 1 lone "10.0.0.1:1001" O)
    as (Hdrop & Hagain & _).
  - done.
  - apply lone_consistent.
  - reflexivity.
  - vm_compute. reflexivity.
  - split.
    + apply Hdrop. intros (header & Hd & Hr).
      vm_compute in Hd. injection Hd as <-. vm_compute in Hr. discriminate.
    + destruct (ProcessPacket map_to_list 1 socket_0x0102_packet
                  "10.0.0.1:1001" (CheckClientTimeouts map_to_list lone))
        as [s''|] eqn:Hpp; [|vm_compute in Hpp; discriminate].
      exists s''. split; [reflexivity|].
      apply (proj2 (Hagain socket_0x0102_packet
                      (proj2 (proj2 (proj2 socket_0x0102_packet_taken))))
               s'' Hpp).
Defined.
(** ** Registering again *)

(** X24: a registration from a known peer is no sign of life.  It is
    answered, but it sets no client's [lastReceiveTime]; so a client that
    has sent nothing but registrations for longer than [CLIENT_TIMEOUT] is
    evicted by the next sweep, although it has just been answered. *)
Theorem X24_registration_is_no_sign_of_life range fuel packet k s header p :
  (∀ m, range m ≡ₚ map_to_list m) →
  consistent s →
  IPXHeader_Decode IPXHeader_zero packet = (true, header) →
  IsRegistrationPacket header = true →
  clients s !! k = Some p →
  ∃ s1,
    ProcessPacket range fuel packet k s = Some s1 ∧
    (∀ q, lastReceiveTime (deref s1 q) = lastReceiveTime (deref s q)) ∧
    (lastReceiveTime (deref s p) + CLIENT_TIMEOUT < clock s1 (now_calls s1) →
     clients (CheckClientTimeouts range s1) !! k = None).
Proof.
  intros range_perm Hs Hd Hr Hk. exists (send_ack p s).
  destruct (send_ack_spec k p s Hs Hk) as (Hf & Hrx & _ & _).
  split; [|split].
  - unfold ProcessPacket. rewrite Hd, Hr. simpl.
    by apply NewClient_known.
  - exact Hrx.
  - intros Hlate.
    assert (Hs1 : consistent (send_ack p s)) by by eapply consistent_frame.
    assert (Hk1 : clients (send_ack p s) !! k = Some p)
      by by rewrite (frame_clients _ _ Hf).
    apply (CheckClientTimeouts_spec range range_perm _ Hs1 k p Hk1).
    by rewrite Hrx.
Qed.

Lemma X24_witness :
  ∃ s1,
    ProcessPacket map_to_list 1 demo_registration "10.0.0.1:1001" lone
    = Some s1 ∧
    (∀ q, lastReceiveTime (deref s1 q) = lastReceiveTime (deref lone q)) ∧
    (lastReceiveTime (deref lone O) + CLIENT_TIMEOUT
     < clock s1 (now_calls s1) →
     clients (CheckClientTimeouts map_to_list s1) !! "10.0.0.1:1001" = None).
Proof.
  apply (X24_registration_is_no_sign_of_life map_to_list 1 demo_registration
           "10.0.0.1:1001" lone
           (IPXHeader_Decode IPXHeader_zero demo_registration).2 O).
  - done.
  - apply lone_consistent.
  - reflexivity.
  - reflexivity.
  - reflexivity.
Defined.
End main_more.

(** * More of package server *)

Module server_more.
Import server server_spec.

(** ** Peers, client objects and nodes *)

(** X12: in every state the server reaches, with a network that hands out
    a new node on every [NewNode()], an entry of the client table points to
    a client object whose peer is the key and whose node is one the network
    has handed out; and two different peers have two different client
    objects and two different nodes. *)
Theorem X12_one_node_per_peer Address UnmarshalBinary MarshalBinary s :
  reachable Address UnmarshalBinary MarshalBinary s →
  (∀ k c, clients s !! k = Some c →
     ∃ x, heap s !! c = Some x ∧ addr x = k ∧
          ∃ i, (i < nodes_made s)%nat ∧ node x = net s i) ∧
  (∀ k1 k2 c1 c2,
     clients s !! k1 = Some c1 → clients s !! k2 = Some c2 → k1 ≠ k2 →
     c1 ≠ c2 ∧ node (deref s c1) ≠ node (deref s c2)).
Proof.
  intros Hs. apply reachable_wf in Hs as [Hinv Hnodes _]. split.
  - intros k c Hk. destruct (clients_valid _ Hinv k c Hk) as (x & Hx & Ha).
    exists x. split; [done|]. split; [done|].
    destruct (Hnodes k c Hk) as (i & Hi & Hn). exists i. split; [done|].
    unfold deref in Hn. by rewrite Hx in Hn.
  - intros k1 k2 c1 c2 H1 H2 Hne. split.
    + intros ->. apply Hne. by eapply inv_pointers.
    + intros Heq. apply Hne. by eapply (nodes_distinct _ Hinv).
Qed.

(** ** The effects of a sweep *)

Section sweep_effects.

Variable MarshalBinary : ipx.Header → option (list Z).

(** What the sweep at the time [now] does to the outside for the entry
    [kc] of the table, with the clients as they are in [s]: a ping if the
    keepalive is due, and then the closing of the node if the client has
    timed out. *)
Definition round_effects (now : Z) (s : Server) (kc : string * nat)
    : list effect :=
  (if bool_decide (lastSendTime (deref s kc.2) + KeepaliveTime (config s)
                   < now)
   then ping_effects MarshalBinary kc.1 else [])
  ++ (if bool_decide (lastReceiveTime (deref s kc.2)
                      + ClientTimeout (config s) < now)
      then [NodeClose (node (deref s kc.2))] else []).

Lemma bind_agree {A B} (f g : A → list B) (l : list A) :
  (∀ x, x ∈ l → f x = g x) → l ≫= f = l ≫= g.
Proof.
  induction l as [|x l IH]; intros Hl; [done|].
  rewrite !bind_cons, (Hl x) by left.
  rewrite IH; [done|]. intros y Hy. apply Hl. by right.
Qed.

Lemma checkClientTimeouts_loop_effects now l : ∀ next s,
  inv s → NoDup l.*1 →
  (∀ kp, kp ∈ l → clients s !! kp.1 = Some kp.2) →
  trace (checkClientTimeouts_loop MarshalBinary now (next, s) l).2
  = trace s ++ (l ≫= round_effects now s).
Proof.
  induction l as [|[k0 c0] l IH]; intros next s Hs Hnd Hl.
  - simpl. by rewrite app_nil_r.
  - apply NoDup_cons in Hnd as [Hk0 Hnd].
    assert (Hc0 : clients s !! k0 = Some c0) by (apply (Hl (k0, c0)); left).
    unfold checkClientTimeouts_loop. cbn [foldl fst snd]. rewrite Hc0.
    destruct (checkClientTimeouts_body_spec MarshalBinary now k0 c0 next s
                Hs Hc0) as (Hs1 & Hst1 & Hcl1 & Htr1 & _ & Ho1 & _).
    destruct (checkClientTimeouts_body MarshalBinary now c0 (next, s))
      as [n1 s1]. cbn [fst snd] in *.
    assert (Hne : ∀ kp, kp ∈ l → kp.1 ≠ k0 ∧ kp.2 ≠ c0).
    { intros [k c] Hkc. simpl.
      assert (k ≠ k0) as Hk.
      { intros ->. apply Hk0. apply list_elem_of_fmap. by exists (k0, c). }
      split; [done|]. intros ->. apply Hk.
      apply (inv_pointers s k k0 c0 Hs); [|done].
      apply (Hl (k, c0)). by right. }
    fold (checkClientTimeouts_loop MarshalBinary now (n1, s1) l).
    rewrite (IH n1 s1 Hs1 Hnd).
    + rewrite Htr1, bind_cons.
      rewrite (bind_agree (round_effects now s1) (round_effects now s) l).
      * unfold round_effects. cbn [fst snd]. by rewrite <- !app_assoc.
      * intros kp Hkp. destruct (Hne kp Hkp) as [_ Hc].
        unfold round_effects.
        by rewrite (Ho1 _ Hc), (steady_config _ _ Hst1).
    + intros kp Hkp. destruct (Hne kp Hkp) as [Hk _]. rewrite Hcl1.
      destruct (bool_decide _); [rewrite lookup_delete_ne by done|];
        apply Hl; by right.
Qed.

Lemma checkClientTimeouts_effects range s :
  (∀ m, range m ≡ₚ map_to_list m) →
  inv s →
  let now := clock s (now_calls s) in
  let st := checkClientTimeouts MarshalBinary range s in
  ∃ order, order ≡ₚ map_to_list (clients s) ∧
    trace st.2 = trace s ++ (order ≫= round_effects now s).
Proof.
  intros range_perm Hs now st. exists (range (clients s)).
  split; [apply range_perm|].
  unfold st, checkClientTimeouts. simpl.
  rewrite (checkClientTimeouts_loop_effects now (range (clients s)) _
             (time_Now s).2).
  - reflexivity.
  - apply (inv_steady s); [apply steady_time_Now|done|done].
  - rewrite range_perm. apply NoDup_fst_map_to_list.
  - intros [k c] Hkc. by apply (range_entries range range_perm).
Qed.

(** X13: the effects of a sweep.  [checkClientTimeouts] visits the entries
    of the client table once each, in some order, and does for each of them
    this and nothing else: it sends a ping to the peer if [now] is after
    the client's [lastSendTime] plus [KeepaliveTime], and then closes the
    client's node if [now] is after its [lastReceiveTime] plus
    [ClientTimeout] -- the ping of a client comes before the closing of
    its node, and both tests use the times the client had when the sweep
    began. *)
Theorem X13_sweep_effects range s :
  (∀ m, range m ≡ₚ map_to_list m) →
  inv s →
  let now := clock s (now_calls s) in
  let st := checkClientTimeouts MarshalBinary range s in
  ∃ order, order ≡ₚ map_to_list (clients s) ∧
    trace st.2 = trace s ++ (order ≫= round_effects now s).
Proof. apply checkClientTimeouts_effects. Qed.

End sweep_effects.

(** ** What the steps of the server preserve *)

Section preserved.

Variable Address : Node → list Z.
Variable UnmarshalBinary : list Z → option ipx.Header.
Variable MarshalBinary : ipx.Header → option (list Z).
Variable range : gmap string nat → list (string * nat).

(** A relation between the state before and the state after, kept by the
    elementary steps the code is made of. *)
Variable R : Server → Server → Prop.
Hypothesis R_refl : ∀ s, R s s.
Hypothesis R_trans : ∀ s1 s2 s3, R s1 s2 → R s2 s3 → R s1 s3.
Hypothesis R_time_Now : ∀ s, R s (time_Now s).2.
Hypothesis R_emit : ∀ e s, (∀ c, e ≠ GoRunClient c) → R s (emit e s).
Hypothesis R_lastSendTime : ∀ c t s, R s (store_lastSendTime c t s).
Hypothesis R_lastReceiveTime : ∀ c t s, R s (store_lastReceiveTime c t s).
Hypothesis R_register : ∀ peer s,
  clients s !! peer = None → R s (register peer s).
Hypothesis R_delete : ∀ k s, R s (set_clients (delete k) s).
Hypothesis R_deadline : ∀ t s, R s (set_timeoutCheckTime t s).

Lemma preserved_send_ack c s : R s (send_ack Address MarshalBinary c s).
Proof.
  unfold send_ack. simpl.
  eapply R_trans; [apply R_time_Now|].
  eapply R_trans; [apply R_lastSendTime|].
  destruct (MarshalBinary _); [|apply R_refl]. by apply R_emit.
Qed.

Lemma preserved_processPacket packet peer s :
  R s (processPacket Address UnmarshalBinary MarshalBinary packet peer s).
Proof.
  unfold processPacket.
  destruct (UnmarshalBinary packet) as [header|]; [|apply R_refl].
  destruct (ipx.IsRegistrationPacket header).
  - destruct (clients s !! peer) as [c|] eqn:Hc.
    + rewrite (newClient_known _ _ _ _ _ c) by done. apply preserved_send_ack.
    + rewrite newClient_new by done.
      eapply R_trans; [by apply R_register|apply preserved_send_ack].
  - destruct (clients s !! peer) as [c|]; [|apply R_refl].
    case_bool_decide; [apply R_refl|]. simpl.
    eapply R_trans; [apply R_time_Now|].
    eapply R_trans; [apply R_lastReceiveTime|]. by apply R_emit.
Qed.

Lemma preserved_sendPing c s : R s (sendPing MarshalBinary c s).
Proof.
  unfold sendPing. simpl.
  eapply R_trans; [apply R_time_Now|].
  eapply R_trans; [apply R_lastSendTime|].
  destruct (MarshalBinary _); [|apply R_refl]. by apply R_emit.
Qed.

Lemma preserved_checkClientTimeouts_body now c st :
  R st.2 (checkClientTimeouts_body MarshalBinary now c st).2.
Proof.
  destruct st as [next s]. unfold checkClientTimeouts_body. cbv zeta.
  destruct (After now _); cbv beta iota; destruct (After now _); cbn [snd];
    repeat first
      [ apply R_refl
      | apply preserved_sendPing
      | eapply R_trans; [|by apply R_emit]
      | eapply R_trans; [|apply R_delete] ].
Qed.

Lemma preserved_checkClientTimeouts_loop now l st :
  R st.2 (checkClientTimeouts_loop MarshalBinary now st l).2.
Proof.
  revert st. induction l as [|[k c0] l IH]; intros st; [apply R_refl|].
  unfold checkClientTimeouts_loop. cbn [foldl fst].
  fold (checkClientTimeouts_loop MarshalBinary now).
  eapply R_trans; [|apply IH].
  destruct (clients st.2 !! k); [|apply R_refl].
  apply preserved_checkClientTimeouts_body.
Qed.

Lemma preserved_checkClientTimeouts s :
  R s (checkClientTimeouts MarshalBinary range s).2.
Proof.
  unfold checkClientTimeouts. simpl.
  eapply R_trans; [apply R_time_Now|].
  apply (preserved_checkClientTimeouts_loop (clock s (now_calls s))
           (range (clients s))
           (clock s (now_calls s) + 10 * 1000000000, (time_Now s).2)).
Qed.

Lemma preserved_poll r s :
  R s (poll Address UnmarshalBinary MarshalBinary range r s).2.
Proof.
  assert (Hr : R s (received Address UnmarshalBinary MarshalBinary r s)).
  { unfold received.
    eapply R_trans; [apply (R_emit (SetReadDeadline (timeoutCheckTime s)));
                     done|].
    destruct r; try apply R_refl. apply preserved_processPacket. }
  assert (Ha : R s (at_sweep Address UnmarshalBinary MarshalBinary r s)).
  { eapply R_trans; [exact Hr|apply R_time_Now]. }
  rewrite poll_unfold. destruct r; simpl; try exact Hr;
    (destruct (After _ _); simpl; [|exact Ha];
     eapply R_trans; [exact Ha|];
     eapply R_trans; [apply preserved_checkClientTimeouts|];
     apply R_deadline).
Qed.

End preserved.

(** ** Goroutines, nodes and client objects *)

(** The clients for which the trace starts a [runClient] goroutine, in
    the order of the trace. *)
Definition spawned (tr : list effect) : list nat :=
  tr ≫= λ e, match e with GoRunClient c => [c] | _ => [] end.

(** [accounted s]: a goroutine has been started for each client object,
    once, in the order in which the objects were made; and as many nodes
    have been asked of the network as there are client objects. *)
Definition accounted (s : Server) : Prop :=
  spawned (trace s) = seq 0 (length (heap s)) ∧
  nodes_made s = length (heap s).

Lemma accounted_poll Address UnmarshalBinary MarshalBinary range r s :
  accounted s →
  accounted (poll Address UnmarshalBinary MarshalBinary range r s).2.
Proof.
  apply (preserved_poll Address UnmarshalBinary MarshalBinary range
           (λ s s', accounted s → accounted s')); clear; try done.
  - intros s1 s2 s3 H12 H23 H1. auto.
  - intros e s He [Hsp Hn]. split; [|done]. simpl.
    unfold spawned in *. rewrite bind_app, Hsp. simpl.
    destruct e; try by rewrite app_nil_r. by destruct (He c).
  - intros c t s [Hsp Hn]. split; simpl; by rewrite length_alter.
  - intros c t s [Hsp Hn]. split; simpl; by rewrite length_alter.
  - intros peer s _ [Hsp Hn].
    destruct (register_spec peer s)
      as (_ & Hheap & Hmade & _ & _ & _ & _ & Htr).
    split.
    + rewrite Htr, Hheap, length_app. unfold spawned in *.
      rewrite bind_app, Hsp. simpl. by rewrite Nat.add_1_r, seq_S.
    + rewrite Hmade, Hheap, length_app, Hn. simpl. lia.
Qed.

(** X14: the accounting of goroutines and nodes.  In every state the
    server reaches there is one [runClient] goroutine per client object
    ever made -- started once, when the object was made, in the order of
    the registrations -- and the network has been asked for exactly as
    many nodes: a datagram of a known peer starts no goroutine and asks
    for no node. *)
Theorem X14_goroutine_per_client Address UnmarshalBinary MarshalBinary s :
  reachable Address UnmarshalBinary MarshalBinary s →
  spawned (trace s) = seq 0 (length (heap s)) ∧
  nodes_made s = length (heap s).
Proof.
  induction 1 as [c clk nodes Hinj|range r s s' Hrange _ IH Hpoll].
  - by split.
  - change s' with (true, s').2. rewrite <- Hpoll. by apply accounted_poll.
Qed.
(** ** The life of a node *)

(** What the trace does to the node [n]: [false] for a packet written
    into it, [true] for its closing. *)
Definition node_events (n : Node) (tr : list effect) : list bool :=
  tr ≫= λ e, match e with
             | NodeWrite m _ => if decide (m = n) then [false] else []
             | NodeClose m => if decide (m = n) then [true] else []
             | _ => []
             end.

(** Writes, and then at most one closing. *)
Definition orderly (h : list bool) : Prop :=
  ∃ j (b : bool), h = replicate j false ++ (if b then [true] else []).

Lemma node_events_app n tr es :
  node_events n (tr ++ es) = node_events n tr ++ node_events n es.
Proof. unfold node_events. by rewrite bind_app. Qed.

Lemma orderly_open h :
  orderly h → true ∉ h → ∃ j, h = replicate j false.
Proof.
  intros (j & b & ->) Hno. destruct b.
  - destruct Hno. apply elem_of_app. right. left.
  - exists j. by rewrite app_nil_r.
Qed.

Lemma orderly_closed_last h a b :
  orderly h → h = a ++ true :: b → b = [].
Proof.
  intros (j & c & ->). revert a. induction j as [|j IH]; intros a Heq.
  - destruct c; simpl in Heq.
    + destruct a as [|x [|y a]]; simpl in Heq; by simplify_eq.
    + by destruct a.
  - destruct a as [|x a]; simpl in Heq; [discriminate|].
    injection Heq as _ Heq. by apply (IH a).
Qed.

(** [guarded s]: the events of every node are orderly, and a node that
    has been closed is one the network has handed out and is the node of
    no client of the table. *)
Record guarded (s : Server) : Prop := {
  guarded_orderly : ∀ n, orderly (node_events n (trace s));
  guarded_made : ∀ n, true ∈ node_events n (trace s) →
    ∃ i, (i < nodes_made s)%nat ∧ n = net s i;
  guarded_gone : ∀ n, true ∈ node_events n (trace s) →
    ∀ k c, clients s !! k = Some c → node (deref s c) ≠ n;
}.

(** [carried s s']: the nodes of [s'] are those of [s] and later ones, and
    a client of the table of [s'] is a client of the table of [s], with
    the node it had, or has a later node. *)
Record carried (s s' : Server) : Prop := {
  carried_net : net s' = net s;
  carried_made : (nodes_made s ≤ nodes_made s')%nat;
  carried_table : ∀ k c, clients s' !! k = Some c →
    (clients s !! k = Some c ∧ node (deref s' c) = node (deref s c)) ∨
    (∃ i, (nodes_made s ≤ i)%nat ∧ node (deref s' c) = net s i);
}.

Lemma carried_stable s s' :
  stable s s' → clients s' = clients s → carried s s'.
Proof.
  intros [Hnet Hmade _ Hd] Hcl. split; [done|lia|].
  intros k c Hk. left. rewrite <- Hcl. split; [done|]. apply Hd.
Qed.

(** One step of the server that adds the effects [es] to the trace. *)
Lemma guarded_step s s' es :
  wf s → guarded s → carried s s' →
  trace s' = trace s ++ es →
  (∀ n,
     node_events n es = [] ∨
     (node_events n es = [false] ∧
      ∃ k c, clients s !! k = Some c ∧ node (deref s c) = n) ∨
     (node_events n es = [true] ∧
      (∃ k c, clients s !! k = Some c ∧ node (deref s c) = n) ∧
      ∀ k c, clients s' !! k = Some c → node (deref s' c) ≠ n)) →
  guarded s'.
Proof.
  intros [Hinv Hnodes Hinj] [Hord Hmade Hgone] [Hnet Hle Htab] Htr Hes.
  assert (Hopen : ∀ n, (∃ k c, clients s !! k = Some c ∧
                                node (deref s c) = n) →
            true ∉ node_events n (trace s)).
  { intros n (k & c & Hk & Hn) Hcl. by apply (Hgone n Hcl k c). }
  split.
  - intros n. rewrite Htr, node_events_app.
    destruct (Hes n) as [->|[[-> Hreg]|[-> [Hreg _]]]].
    + rewrite app_nil_r. apply Hord.
    + destruct (orderly_open _ (Hord n) (Hopen n Hreg)) as [j ->].
      exists (S j), false. by rewrite app_nil_r, replicate_S_end.
    + destruct (orderly_open _ (Hord n) (Hopen n Hreg)) as [j ->].
      by exists j, true.
  - intros n. rewrite Htr, node_events_app, elem_of_app. intros [Hcl|Hcl].
    + destruct (Hmade n Hcl) as (i & Hi & ->). exists i.
      split; [lia|by rewrite Hnet].
    + destruct (Hes n) as [He|[[He _]|[_ [(k & c & Hk & Hn) _]]]];
        try (rewrite He in Hcl; by inversion Hcl as [|? ? ? Hcl']; subst;
             inversion Hcl').
      destruct (Hnodes k c Hk) as (i & Hi & Hni). exists i.
      split; [lia|]. rewrite Hnet. congruence.
  - intros n. rewrite Htr, node_events_app, elem_of_app.
    intros [Hcl|Hcl] k c Hk.
    + destruct (Htab k c Hk) as [[Hk0 ->]|(i & Hi & ->)].
      * by apply (Hgone n Hcl k).
      * destruct (Hmade n Hcl) as (i' & Hi' & ->).
        intros Heq. apply Hinj in Heq. lia.
    + destruct (Hes n) as [He|[[He _]|[_ [_ Hout]]]];
        try (rewrite He in Hcl; by inversion Hcl as [|? ? ? Hcl']; subst;
             inversion Hcl').
      by apply (Hout k c).
Qed.

Lemma guarded_quiet s s' es :
  wf s → guarded s → stable s s' → clients s' = clients s →
  trace s' = trace s ++ es →
  (∀ e, e ∈ es → (∀ n p, e ≠ NodeWrite n p) ∧ (∀ n, e ≠ NodeClose n)) →
  guarded s'.
Proof.
  intros Hwf Hg Hst Hcl Htr Hes.
  apply (guarded_step s s' es); try done; [by apply carried_stable|].
  intros n. left. unfold node_events.
  clear Htr. induction es as [|e es IH]; [done|].
  rewrite bind_cons, IH by (intros e' He'; apply Hes; by right).
  destruct (Hes e) as [Hw Hc]; [left|].
  destruct e; try done; [by destruct (Hw n0 packet)|by destruct (Hc n0)].
Qed.

Section guarded.

Variable Address : Node → list Z.
Variable UnmarshalBinary : list Z → option ipx.Header.
Variable MarshalBinary : ipx.Header → option (list Z).
Variable range : gmap string nat → list (string * nat).
Hypothesis range_perm : ∀ m, range m ≡ₚ map_to_list m.

Lemma ack_effects_quiet a to e :
  e ∈ ack_effects MarshalBinary a to →
  (∀ n p, e ≠ NodeWrite n p) ∧ (∀ n, e ≠ NodeClose n).
Proof.
  unfold ack_effects. destruct (MarshalBinary _); [|set_solver].
  intros ->%list_elem_of_singleton. done.
Qed.

Lemma ping_effects_quiet to e :
  e ∈ ping_effects MarshalBinary to →
  (∀ n p, e ≠ NodeWrite n p) ∧ (∀ n, e ≠ NodeClose n).
Proof.
  unfold ping_effects. destruct (MarshalBinary _); [|set_solver].
  intros ->%list_elem_of_singleton. done.
Qed.

Lemma guarded_processPacket packet peer s :
  wf s → guarded s →
  guarded (processPacket Address UnmarshalBinary MarshalBinary packet peer s).
Proof.
  intros Hwf Hg. unfold processPacket.
  destruct (UnmarshalBinary packet) as [header|]; [|done].
  destruct (ipx.IsRegistrationPacket header).
  - destruct (clients s !! peer) as [c|] eqn:Hc.
    + rewrite (newClient_known _ _ _ _ _ c) by done.
      destruct (send_ack_effects Address MarshalBinary c s)
        as (Hst & Hcl & _ & Htr).
      eapply (guarded_quiet s); [done|done|by apply steady_stable|done|
                                 exact Htr|].
      intros e. apply ack_effects_quiet.
    + rewrite newClient_new by done.
      destruct (register_spec peer s)
        as (Hcl1 & Hheap1 & Hmade1 & Hnet1 & _ & _ & _ & Htr1).
      destruct (send_ack_effects Address MarshalBinary (length (heap s))
                  (register peer s)) as (Hst & Hcl & _ & Htr).
      set (s' := send_ack Address MarshalBinary (length (heap s))
                   (register peer s)) in *.
      eapply (guarded_step s s'); [done|done| |by rewrite Htr, Htr1,
                                                <- app_assoc|].
      * split.
        -- by rewrite (steady_net _ _ Hst).
        -- rewrite (steady_nodes_made _ _ Hst), Hmade1. lia.
        -- intros k c. rewrite Hcl, Hcl1.
           destruct (steady_deref _ _ Hst c) as (_ & -> & _).
           destruct (decide (k = peer)) as [->|Hne].
           ++ rewrite lookup_insert_eq. intros [= <-]. right.
              exists (nodes_made s). split; [done|].
              by rewrite register_deref_new.
           ++ rewrite lookup_insert_ne by done. intros Hk. left.
              split; [done|]. rewrite register_deref_old; [done|].
              destruct (clients_valid _ (wf_inv _ Hwf) k c Hk)
                as (x & Hx & _).
              by eapply lookup_lt_Some.
      * intros n. left. unfold node_events. rewrite bind_app. simpl.
        generalize (ack_effects_quiet (Address (node (deref (register peer s)
                      (length (heap s)))))
                      (addr (deref (register peer s) (length (heap s))))).
        generalize (ack_effects MarshalBinary
                      (Address (node (deref (register peer s)
                                        (length (heap s)))))
                      (addr (deref (register peer s) (length (heap s))))).
        intros es Hes. induction es as [|e es IH]; [done|].
        rewrite bind_cons, IH by (intros e' He'; apply Hes; by right).
        destruct (Hes e) as [Hw Hcn]; [left|].
        destruct e; try done; [by destruct (Hw n0 packet0)|
                               by destruct (Hcn n0)].
  - destruct (clients s !! peer) as [c|] eqn:Hc; [|done].
    case_bool_decide; [done|]. simpl.
    set (s1 := store_lastReceiveTime c (clock s (now_calls s))
                 (time_Now s).2).
    assert (Hst : stable s s1).
    { eapply stable_trans; [apply steady_stable, steady_time_Now|].
      apply stable_store_lastReceiveTime. }
    destruct (stable_deref _ _ Hst c) as [_ Hn].
    apply (guarded_step s _ [NodeWrite (node (deref s1 c)) packet]);
      [done|done| |done|].
    + apply carried_stable; [|done].
      eapply stable_trans; [exact Hst|apply steady_stable, steady_emit].
    + intros n. unfold node_events. simpl. rewrite Hn.
      destruct (decide (node (deref s c) = n)) as [Heq|Hne]; [|by left].
      right. left. split; [done|]. by exists peer, c.
Qed.

Lemma bind_bind {A B C} (f : A → list B) (g : B → list C) (l : list A) :
  (l ≫= f) ≫= g = l ≫= λ x, f x ≫= g.
Proof.
  induction l as [|x l IH]; [done|].
  by rewrite !bind_cons, bind_app, IH.
Qed.

Lemma bind_nothing {A B} (f : A → list B) (l : list A) :
  (∀ x, x ∈ l → f x = []) → l ≫= f = [].
Proof.
  induction l as [|x l IH]; intros Hl; [done|].
  rewrite bind_cons, (Hl x) by left. apply IH.
  intros y Hy. apply Hl. by right.
Qed.

(** A list of which at most one element yields anything. *)
Lemma bind_at_most_one {A} (P : A → Prop) (f : A → list bool) (l : list A) :
  NoDup l →
  (∀ x y, x ∈ l → y ∈ l → P x → P y → x = y) →
  (∀ x, x ∈ l → f x = [] ∨ (f x = [true] ∧ P x)) →
  l ≫= f = [] ∨ (l ≫= f = [true] ∧ ∃ x, x ∈ l ∧ f x = [true] ∧ P x).
Proof.
  induction l as [|x l IH]; intros Hnd Huniq Hf; [by left|].
  apply NoDup_cons in Hnd as [Hx Hnd]. rewrite bind_cons.
  destruct (Hf x) as [Hfx|[Hfx HP]]; [left| |]; rewrite Hfx.
  - destruct IH as [->|[-> (y & Hy & Hfy & HPy)]]; try done.
    + intros y z Hy Hz. apply Huniq; by right.
    + intros y Hy. apply Hf. by right.
    + by left.
    + right. split; [done|]. exists y. split; [by right|done].
  - right. split.
    + rewrite bind_nothing; [done|]. intros y Hy.
      destruct (Hf y) as [Hfy|[_ HPy]]; [by right|done|].
      destruct Hx. assert (x = y) as ->; [|done].
      apply Huniq; [left|by right|done|done].
    + exists x. split; [left|done].
Qed.

Lemma guarded_checkClientTimeouts s :
  wf s → guarded s →
  guarded (checkClientTimeouts MarshalBinary range s).2.
Proof.
  intros Hwf Hg. pose proof (wf_inv _ Hwf) as Hinv.
  destruct (checkClientTimeouts_swept MarshalBinary range range_perm s Hinv)
    as [_ Jst Jabs Jtab _ _ _ _ _ _].
  destruct (checkClientTimeouts_effects MarshalBinary range s range_perm Hinv)
    as (order & Hperm & Htr).
  set (now := clock s (now_calls s)) in *.
  set (s' := (checkClientTimeouts MarshalBinary range s).2) in *.
  assert (Hst : stable s s').
  { eapply stable_trans; [apply steady_stable, steady_time_Now|].
    by apply steady_stable. }
  assert (Hsub : ∀ k c, clients s' !! k = Some c →
            clients s !! k = Some c ∧
            ¬ lastReceiveTime (deref s c) + ClientTimeout (config s) < now).
  { intros k c Hk. destruct (clients s !! k) as [c'|] eqn:Hk'.
    - rewrite (Jtab k c' Hk') in Hk. case_bool_decide as Hd; [done|].
      injection Hk as <-. split; [done|]. intros Hdead. apply Hd.
      split; [|exact Hdead].
      rewrite range_perm. apply list_elem_of_fmap. exists (k, c').
      split; [done|]. by apply elem_of_map_to_list.
    - by rewrite (Jabs k Hk') in Hk. }
  apply (guarded_step s s' (order ≫= round_effects MarshalBinary now s));
    [done|done| |done|].
  - split; [apply Hst|rewrite (stable_nodes_made _ _ Hst); lia|].
    intros k c Hk. left. split; [by apply Hsub|]. apply Hst.
  - intros n.
    assert (Hev : node_events n (order ≫= round_effects MarshalBinary now s)
              = order ≫= λ kc, node_events n
                                 (round_effects MarshalBinary now s kc)).
    { unfold node_events. by rewrite bind_bind. }
    rewrite Hev.
    destruct (bind_at_most_one
                (λ kc : string * nat,
                   clients s !! kc.1 = Some kc.2 ∧
                   lastReceiveTime (deref s kc.2) + ClientTimeout (config s)
                   < now ∧ node (deref s kc.2) = n)
                (λ kc, node_events n (round_effects MarshalBinary now s kc))
                order) as [->|[-> ((k & c) & Hkc & _ & Hk & Hdead & Hn)]].
    + rewrite Hperm. apply NoDup_map_to_list.
    + intros [k1 c1] [k2 c2] _ _ (H1 & _ & Hn1) (H2 & _ & Hn2).
      simpl in *.
      assert (k1 = k2) as ->
        by (apply (nodes_distinct _ Hinv k1 k2 c1 c2); congruence).
      congruence.
    + intros [k c] Hkc. rewrite Hperm in Hkc.
      apply elem_of_map_to_list in Hkc.
      unfold round_effects. rewrite node_events_app. cbn [fst snd].
      assert (node_events n
                (if bool_decide (lastSendTime (deref s c)
                                 + KeepaliveTime (config s) < now)
                 then ping_effects MarshalBinary k else []) = []) as ->.
      { destruct (bool_decide _); [|done].
        generalize (ping_effects_quiet k).
        generalize (ping_effects MarshalBinary k).
        intros es Hes. unfold node_events.
        induction es as [|e es IH]; [done|].
        rewrite bind_cons, IH by (intros e' He'; apply Hes; by right).
        destruct (Hes e) as [Hw Hcn]; [left|].
        destruct e; try done; [by destruct (Hw n0 packet)|
                               by destruct (Hcn n0)]. }
      case_bool_decide as Hd; [|by left]. unfold node_events. simpl.
      destruct (decide (node (deref s c) = n)); [|by left].
      right. done.
    + by left.
    + right. right. simpl in *. split; [done|].
      split; [by exists k, c|].
      intros k' c' Hk'. destruct (Hsub k' c' Hk') as [Hk0 Halive].
      destruct (stable_deref _ _ Hst c') as [_ ->]. intros Heq.
      assert (k' = k) as ->
        by (apply (nodes_distinct _ Hinv k' k c' c); congruence).
      assert (c' = c) as -> by congruence. done.
Qed.

Lemma guarded_poll r s :
  wf s → guarded s →
  guarded (poll Address UnmarshalBinary MarshalBinary range r s).2.
Proof.
  intros Hwf Hg.
  set (s0 := emit (SetReadDeadline (timeoutCheckTime s)) s).
  assert (Hwf0 : wf s0)
    by (apply (wf_stable s); [apply steady_stable, steady_emit|done|done]).
  assert (Hg0 : guarded s0).
  { apply (guarded_quiet s s0 [SetReadDeadline (timeoutCheckTime s)]);
      [done|done|apply steady_stable, steady_emit|done|done|].
    intros e ->%list_elem_of_singleton. done. }
  assert (Hr : wf (received Address UnmarshalBinary MarshalBinary r s) ∧
               guarded (received Address UnmarshalBinary MarshalBinary r s)).
  { unfold received. fold s0. destruct r; try done.
    split; [by apply wf_processPacket|by apply guarded_processPacket]. }
  destruct Hr as [Hwfr Hgr].
  assert (Ha : wf (at_sweep Address UnmarshalBinary MarshalBinary r s) ∧
               guarded (at_sweep Address UnmarshalBinary MarshalBinary r s)).
  { split.
    - apply (wf_stable (received Address UnmarshalBinary MarshalBinary r s));
        [apply steady_stable, steady_time_Now|done|done].
    - apply (guarded_quiet
               (received Address UnmarshalBinary MarshalBinary r s)
               (at_sweep Address UnmarshalBinary MarshalBinary r s) []).
      + done.
      + done.
      + apply steady_stable, steady_time_Now.
      + done.
      + by rewrite app_nil_r.
      + intros e He. by apply elem_of_nil in He. }
  destruct Ha as [Hwfa Hga].
  set (st := checkClientTimeouts MarshalBinary range
               (at_sweep Address UnmarshalBinary MarshalBinary r s)).
  assert (Hsw : guarded (set_timeoutCheckTime st.1 st.2)).
  { apply (guarded_quiet st.2 (set_timeoutCheckTime st.1 st.2) []).
    - by apply wf_checkClientTimeouts.
    - by apply guarded_checkClientTimeouts.
    - apply steady_stable, steady_set_timeoutCheckTime.
    - done.
    - by rewrite app_nil_r.
    - intros e He. by apply elem_of_nil in He. }
  rewrite poll_unfold. fold st.
  destruct r; simpl; try done; by destruct (After _ _).
Qed.

End guarded.

Lemma reachable_guarded Address UnmarshalBinary MarshalBinary s :
  reachable Address UnmarshalBinary MarshalBinary s → guarded s.
Proof.
  induction 1 as [c clk nodes Hinj|range r s s' Hrange Hs IH Hpoll].
  - split.
    + intros n. by exists O, false.
    + intros n Hn. simpl in Hn. set_solver.
    + intros n Hn. simpl in Hn. set_solver.
  - change s' with (true, s').2. rewrite <- Hpoll.
    apply guarded_poll; [done| |done]. by eapply reachable_wf.
Qed.

(** X15: in the receive loop a node is not used after it has been
    closed.  In every state reached by [New] followed by [poll]s, with a
    network that hands out a new node on every [NewNode()]: after the
    closing of a node the trace has no packet written into that node and
    no second closing of it, and a node that has been closed is the node
    of no client of the table.  [Server.Close] is not among the steps of
    [reachable] and the statement does not extend to it: [Close] closes
    the nodes of clients that stay in the table (X17), and
    [poll] does not take the lock that [Close] holds. *)
Theorem X15_no_use_after_close Address UnmarshalBinary MarshalBinary s :
  reachable Address UnmarshalBinary MarshalBinary s →
  (∀ pre post n, trace s = pre ++ NodeClose n :: post →
     (∀ packet, NodeWrite n packet ∉ post) ∧ NodeClose n ∉ post) ∧
  (∀ n, NodeClose n ∈ trace s →
     ∀ k c, clients s !! k = Some c → node (deref s c) ≠ n).
Proof.
  intros Hs. apply reachable_guarded in Hs as [Hord _ Hgone].
  assert (Hin : ∀ n b tr,
    match b with
    | true => NodeClose n ∈ tr
    | false => ∃ packet, NodeWrite n packet ∈ tr
    end → b ∈ node_events n tr).
  { intros n b tr Hb. unfold node_events. apply list_elem_of_bind.
    destruct b.
    - exists (NodeClose n). split; [|done].
      rewrite decide_True by done. left.
    - destruct Hb as [packet Hb]. exists (NodeWrite n packet).
      split; [|done]. rewrite decide_True by done. left. }
  split.
  - intros pre post n Htr. specialize (Hord n).
    assert (Hpost : node_events n post = []).
    { apply (orderly_closed_last _ (node_events n pre) _ Hord).
      rewrite Htr, node_events_app. f_equal.
      unfold node_events. rewrite bind_cons.
      by rewrite decide_True by done. }
    split.
    + intros packet Hw. pose proof (Hin n false post) as H.
      rewrite Hpost in H. apply elem_of_nil in H; [done|]. by exists packet.
    + intros Hc. pose proof (Hin n true post Hc) as H.
      rewrite Hpost in H. by apply elem_of_nil in H.
  - intros n Hn. apply Hgone. by apply (Hin n true).
Qed.
(** ** The goroutine of a client *)

(** What [c.node.Read(buf[:])] returns: the bytes of a packet, [io.EOF],
    or another error. *)
Inductive NodeRead :=
  | NodeReadOk (data : list Z)
  | NodeReadEOF
  | NodeReadError.

(** [runClient], for the reads its node answers with, oldest first.  The
    boolean tells whether it has returned; it has not when the reads are
    used up, and the next [Read] blocks. *)
Fixpoint runClient (c : nat) (reads : list NodeRead) (s : Server)
    : bool * Server :=
  match reads with
  | [] => (false, s)
  | NodeReadOk data :: reads =>
      runClient c reads (emit (WriteToUDP (take 1500 data) (addr (deref s c))) s)
  | NodeReadEOF :: _ => (true, s)
  | NodeReadError :: reads => runClient c reads s
  end.

(** [s] with the effects [es] added to its trace. *)
Definition with_effects (es : list effect) (s : Server) : Server :=
  {| config := config s; clients := clients s;
     timeoutCheckTime := timeoutCheckTime s; heap := heap s;
     trace := trace s ++ es; clock := clock s; now_calls := now_calls s;
     net := net s; nodes_made := nodes_made s |}.

(** The datagrams by which the packets among [reads] go to the peer
    [to]. *)
Definition deliveries (to : string) (reads : list NodeRead) : list effect :=
  reads ≫= λ r, match r with
                | NodeReadOk data => [WriteToUDP (take 1500 data) to]
                | _ => []
                end.

Lemma with_effects_nil s : with_effects [] s = s.
Proof. destruct s. unfold with_effects. simpl. by rewrite app_nil_r. Qed.

Lemma with_effects_emit e es s :
  with_effects es (emit e s) = with_effects (e :: es) s.
Proof. unfold with_effects, emit. simpl. by rewrite <- app_assoc. Qed.

Lemma runClient_reading c reads : ∀ s,
  NodeReadEOF ∉ reads →
  runClient c reads s
  = (false, with_effects (deliveries (addr (deref s c)) reads) s).
Proof.
  induction reads as [|r reads IH]; intros s Hno.
  - simpl. by rewrite with_effects_nil.
  - apply not_elem_of_cons in Hno as [Hr Hno].
    destruct r; cbn [runClient]; [| done |].
    + rewrite IH by done.
      change (addr (deref (emit _ s) c)) with (addr (deref s c)).
      rewrite with_effects_emit. reflexivity.
    + rewrite IH by done. reflexivity.
Qed.

Lemma runClient_returned c pre post : ∀ s,
  NodeReadEOF ∉ pre →
  runClient c (pre ++ NodeReadEOF :: post) s
  = (true, with_effects (deliveries (addr (deref s c)) pre) s).
Proof.
  induction pre as [|r pre IH]; intros s Hno.
  - simpl. by rewrite with_effects_nil.
  - apply not_elem_of_cons in Hno as [Hr Hno].
    destruct r; cbn [runClient app]; [| done |].
    + rewrite IH by done.
      change (addr (deref (emit _ s) c)) with (addr (deref s c)).
      rewrite with_effects_emit. reflexivity.
    + rewrite IH by done. reflexivity.
Qed.

(** X16: the goroutine of a client.  [runClient] sends every packet it
    reads from the node of its client to the client's peer, in the order
    read and cut to 1500 bytes, passes over the reads that fail, and
    returns at the first [io.EOF] without looking at any later read.  It
    changes nothing but the trace: in particular it reads no clock and
    does not touch [lastSendTime], so a packet delivered to a client does
    not put off the client's next keepalive ping. *)
Theorem X16_runClient c pre post s :
  NodeReadEOF ∉ pre →
  let s' := with_effects (deliveries (addr (deref s c)) pre) s in
  runClient c pre s = (false, s') ∧
  runClient c (pre ++ NodeReadEOF :: post) s = (true, s') ∧
  lastSendTime (deref s' c) = lastSendTime (deref s c) ∧
  now_calls s' = now_calls s.
Proof.
  intros Hno s'. split; [by apply runClient_reading|].
  split; [by apply runClient_returned|]. done.
Qed.

(** ** Shutting down *)

Section Close.

Variable range : gmap string nat → list (string * nat).

(** [Close], under its lock: the nodes of the clients of the table are
    closed in the order of the [range] loop, and [s.socket.Close()] comes
    last.  The socket is outside the state: of its closing the model keeps
    the result, [err], which [Close] returns. *)
Definition Close (err : option string) (s : Server)
    : option string * Server :=
  let s := foldl (λ s (kc : string * nat),
                    emit (NodeClose (node (deref s kc.2))) s) s
             (range (clients s)) in
  (err, s).

Lemma Close_loop l : ∀ s,
  foldl (λ s (kc : string * nat),
           emit (NodeClose (node (deref s kc.2))) s) s l
  = with_effects
      ((λ kc : string * nat, NodeClose (node (deref s kc.2))) <$> l) s.
Proof.
  induction l as [|kc l IH]; intros s; simpl.
  - by rewrite with_effects_nil.
  - by rewrite IH, with_effects_emit.
Qed.

Hypothesis range_perm : ∀ m, range m ≡ₚ map_to_list m.

(** X17: [Close] closes the node of every client of the table, each node
    once, and returns what closing the socket returns.  It leaves the
    table as it is: the clients whose nodes it has closed stay in it. *)
Theorem X17_Close err s :
  inv s →
  ∃ order,
    order ≡ₚ map_to_list (clients s) ∧
    Close err s
    = (err, with_effects
              ((λ kc : string * nat, NodeClose (node (deref s kc.2)))
                 <$> order) s) ∧
    NoDup ((λ kc : string * nat, node (deref s kc.2)) <$> order) ∧
    clients (Close err s).2 = clients s.
Proof.
  intros Hinv. exists (range (clients s)). split; [apply range_perm|].
  unfold Close. rewrite Close_loop. split; [done|]. split; [|done].
  apply NoDup_fmap_2_strong.
  - intros [k1 c1] [k2 c2] H1 H2 Heq. simpl in Heq.
    rewrite range_perm in H1, H2.
    apply elem_of_map_to_list in H1, H2.
    assert (k1 = k2) as -> by by eapply (nodes_distinct _ Hinv).
    congruence.
  - rewrite range_perm. apply NoDup_map_to_list.
Qed.

End Close.

(** ** The receive loop *)

Section Run.

Variable Address : Node → list Z.
Variable UnmarshalBinary : list Z → option ipx.Header.
Variable MarshalBinary : ipx.Header → option (list Z).
Variable range : gmap string nat → list (string * nat).

(** [Run], for the results of the reads of the socket, oldest first.  The
    boolean tells whether it has returned. *)
Fixpoint Run (reads : list ReadResult) (s : Server) : bool * Server :=
  match reads with
  | [] => (false, s)
  | r :: reads =>
      let '(ok, s) := poll Address UnmarshalBinary MarshalBinary range r s in
      if ok then Run reads s else (true, s)
  end.

Hypothesis range_perm : ∀ m, range m ≡ₚ map_to_list m.

Lemma poll_ok r s :
  r ≠ ReadNetError →
  (poll Address UnmarshalBinary MarshalBinary range r s).1 = true.
Proof.
  intros Hr. rewrite poll_unfold.
  destruct r; simpl; try done; by destruct (After _ _).
Qed.

(** X18: [Run] polls until a read of the socket fails with a [net.Error]
    that is no timeout.  The reads before that one are all polled, and
    take the server through states it can reach; at the failing read it
    sets the read deadline once more and returns, and it looks at no read
    after it. *)
Theorem X18_Run pre post s :
  ReadNetError ∉ pre →
  ∃ s1,
    Run pre s = (false, s1) ∧
    (reachable Address UnmarshalBinary MarshalBinary s →
     reachable Address UnmarshalBinary MarshalBinary s1) ∧
    Run (pre ++ ReadNetError :: post) s
    = (true, emit (SetReadDeadline (timeoutCheckTime s1)) s1).
Proof.
  revert s. induction pre as [|r pre IH]; intros s Hno.
  - exists s. split; [done|]. split; [done|]. reflexivity.
  - apply not_elem_of_cons in Hno as [Hr Hno]. simpl.
    pose proof (poll_ok r s (not_eq_sym Hr)) as Hok.
    destruct (poll Address UnmarshalBinary MarshalBinary range r s)
      as [ok s0] eqn:Hpoll.
    simpl in Hok. subst ok.
    destruct (IH s0 Hno) as (s1 & HRun & Hreach & Hend). exists s1.
    split; [done|]. split; [|done]. intros Hs. apply Hreach.
    by apply (reachable_poll _ _ _ range r s s0).
Qed.

End Run.
(** ** The properties above on runs of the server *)

Lemma run3_reachable c : demo_reachable (run3 c).
Proof.
  unfold run3. apply demo_poll_reachable; [apply run2_reachable|].
  generalize (run2 c). intros s.
  rewrite poll_unfold. simpl. by destruct (After _ _).
Qed.

Lemma X12_witness :
  ∃ x, heap (run1 DefaultConfig) !! O = Some x ∧ addr x = "10.0.0.1:1001" ∧
       ∃ i, (i < nodes_made (run1 DefaultConfig))%nat ∧
            node x = net (run1 DefaultConfig) i.
Proof.
  apply (proj1 (X12_one_node_per_peer demo_Address demo_UnmarshalBinary
                  demo_MarshalBinary (run1 DefaultConfig)
                  (run1_reachable DefaultConfig)) "10.0.0.1:1001" O).
  vm_compute. reflexivity.
Defined.

Lemma X13_witness :
  ∃ order,
    order ≡ₚ map_to_list (clients (first_sweep config_5s)) ∧
    trace (checkClientTimeouts demo_MarshalBinary map_to_list
             (first_sweep config_5s)).2
    = trace (first_sweep config_5s)
      ++ (order ≫= round_effects demo_MarshalBinary
                     (clock (first_sweep config_5s)
                        (now_calls (first_sweep config_5s)))
                     (first_sweep config_5s)).
Proof.
  apply (X13_sweep_effects demo_MarshalBinary map_to_list
           (first_sweep config_5s)).
  - done.
  - apply first_sweep_inv.
Defined.

Lemma X14_witness :
  spawned (trace (run3 config_5s)) = seq 0 (length (heap (run3 config_5s))) ∧
  nodes_made (run3 config_5s) = length (heap (run3 config_5s)).
Proof.
  apply (X14_goroutine_per_client demo_Address demo_UnmarshalBinary
           demo_MarshalBinary (run3 config_5s)).
  apply run3_reachable.
Defined.

(** The run goes on: the evicted peer registers again. *)
Definition run4 : Server :=
  demo_poll (ReadOk main_spec.demo_registration "10.0.0.1:1001")
    (run3 config_5s).

Lemma run4_reachable : demo_reachable run4.
Proof.
  unfold run4. apply demo_poll_reachable; [apply run3_reachable|].
  generalize (run3 config_5s). intros s.
  rewrite poll_unfold. simpl. by destruct (After _ _).
Qed.

Lemma X15_witness :
  (∀ packet, NodeWrite O packet ∉ drop 12 (trace run4)) ∧
  NodeClose O ∉ drop 12 (trace run4).
Proof.
  apply (proj1 (X15_no_use_after_close demo_Address demo_UnmarshalBinary
                  demo_MarshalBinary run4 run4_reachable)
           (take 11 (trace run4)) (drop 12 (trace run4)) O).
  vm_compute. reflexivity.
Defined.

Lemma X16_witness :
  runClient O [NodeReadOk [1; 2; 3]; NodeReadError; NodeReadEOF;
               NodeReadOk [4]] (run1 DefaultConfig)
  = (true, with_effects [WriteToUDP [1; 2; 3] "10.0.0.1:1001"]
             (run1 DefaultConfig)).
Proof.
  apply (X16_runClient O [NodeReadOk [1; 2; 3]; NodeReadError]
           [NodeReadOk [4]] (run1 DefaultConfig)).
  intros H. apply elem_of_cons in H as [H|H]; [discriminate|].
  apply elem_of_cons in H as [H|H]; [discriminate|].
  by apply elem_of_nil in H.
Defined.

Lemma X17_witness :
  ∃ order,
    order ≡ₚ map_to_list (clients (run1 DefaultConfig)) ∧
    Close map_to_list None (run1 DefaultConfig)
    = (None, with_effects
               ((λ kc : string * nat,
                   NodeClose (node (deref (run1 DefaultConfig) kc.2)))
                  <$> order) (run1 DefaultConfig)) ∧
    NoDup ((λ kc : string * nat, node (deref (run1 DefaultConfig) kc.2))
             <$> order) ∧
    clients (Close map_to_list None (run1 DefaultConfig)).2
    = clients (run1 DefaultConfig).
Proof.
  apply (X17_Close map_to_list (λ m, reflexivity _) None
           (run1 DefaultConfig)).
  apply demo_reachable_inv, run1_reachable.
Defined.

Lemma X18_witness :
  ∃ s1,
    Run demo_Address demo_UnmarshalBinary demo_MarshalBinary map_to_list
      [ReadTimeout] (run0 DefaultConfig) = (false, s1) ∧
    (demo_reachable (run0 DefaultConfig) → demo_reachable s1) ∧
    Run demo_Address demo_UnmarshalBinary demo_MarshalBinary map_to_list
      ([ReadTimeout] ++ [ReadNetError; ReadTimeout]) (run0 DefaultConfig)
    = (true, emit (SetReadDeadline (timeoutCheckTime s1)) s1).
Proof.
  apply (X18_Run demo_Address demo_UnmarshalBinary demo_MarshalBinary
           map_to_list (λ m, reflexivity _) [ReadTimeout]
           [ReadTimeout] (run0 DefaultConfig)).
  intros H. apply elem_of_cons in H as [H|H]; [discriminate|].
  by apply elem_of_nil in H.
Defined.
(** ** Registering again *)

(** X25: in package server too a registration from a known peer is no
    sign of life.  It is answered, but it sets no client's
    [lastReceiveTime]; so a client that has sent nothing but registrations
    for longer than [ClientTimeout] loses its table entry and its node in
    the next sweep. *)
Theorem X25_registration_is_no_sign_of_life
    Address UnmarshalBinary MarshalBinary range packet k s header c :
  (∀ m, range m ≡ₚ map_to_list m) →
  inv s →
  UnmarshalBinary packet = Some header →
  ipx.IsRegistrationPacket header = true →
  clients s !! k = Some c →
  let s1 := processPacket Address UnmarshalBinary MarshalBinary packet k s in
  (∀ c', lastReceiveTime (deref s1 c') = lastReceiveTime (deref s c')) ∧
  (lastReceiveTime (deref s c) + ClientTimeout (config s)
   < clock s1 (now_calls s1) →
   let st := checkClientTimeouts MarshalBinary range s1 in
   clients st.2 !! k = None ∧ NodeClose (node (deref s c)) ∈ trace st.2).
Proof.
  intros range_perm Hinv Hd Hr Hk s1.
  assert (Hs1 : s1 = send_ack Address MarshalBinary c s).
  { unfold s1, processPacket. rewrite Hd, Hr. by apply newClient_known. }
  destruct (send_ack_effects Address MarshalBinary c s)
    as (Hst & Hcl & _ & _).
  rewrite <- Hs1 in Hst, Hcl. clearbody s1.
  split.
  - intros c'. apply (steady_deref _ _ Hst).
  - intros Hlate st.
    assert (Hinv1 : inv s1) by by apply (inv_steady s).
    destruct (checkClientTimeouts_evicts MarshalBinary range range_perm s1
                Hinv1) as (_ & es & Htr & Hes).
    destruct (Hes k c) as [Hdead _]; [by rewrite Hcl|].
    destruct (steady_deref _ _ Hst c) as (_ & Hn & Hrx).
    rewrite Hrx, Hn, (steady_config _ _ Hst) in Hdead.
    destruct (Hdead Hlate) as [Hgone Hclose].
    split; [exact Hgone|]. unfold st. rewrite Htr.
    apply elem_of_app. by right.
Qed.

(** A server whose clock advances a thousand seconds per reading, after
    the registration of one peer. *)
Definition lone : Server :=
  processPacket demo_Address demo_UnmarshalBinary demo_MarshalBinary
    main_spec.demo_registration "10.0.0.1:1001"
    (New DefaultConfig main_more.slow_clock (λ i, i)).

Lemma lone_inv : inv lone.
Proof.
  apply wf_inv, wf_processPacket, wf_New. intros i j Hij. exact Hij.
Qed.

Lemma X25_witness :
  (∀ c', lastReceiveTime
           (deref (processPacket demo_Address demo_UnmarshalBinary
                     demo_MarshalBinary main_spec.demo_registration
                     "10.0.0.1:1001" lone) c')
         = lastReceiveTime (deref lone c')) ∧
  (lastReceiveTime (deref lone O) + ClientTimeout (config lone)
   < clock (processPacket demo_Address demo_UnmarshalBinary
              demo_MarshalBinary main_spec.demo_registration
              "10.0.0.1:1001" lone)
       (now_calls (processPacket demo_Address demo_UnmarshalBinary
                     demo_MarshalBinary main_spec.demo_registration
                     "10.0.0.1:1001" lone)) →
   clients (checkClientTimeouts demo_MarshalBinary map_to_list
              (processPacket demo_Address demo_UnmarshalBinary
                 demo_MarshalBinary main_spec.demo_registration
                 "10.0.0.1:1001" lone)).2 !! "10.0.0.1:1001" = None ∧
   NodeClose (node (deref lone O))
   ∈ trace (checkClientTimeouts demo_MarshalBinary map_to_list
              (processPacket demo_Address demo_UnmarshalBinary
                 demo_MarshalBinary main_spec.demo_registration
                 "10.0.0.1:1001" lone)).2).
Proof.
  apply (X25_registration_is_no_sign_of_life demo_Address
           demo_UnmarshalBinary demo_MarshalBinary map_to_list
           main_spec.demo_registration "10.0.0.1:1001" lone
           (of_main (main.IPXHeader_Decode main.IPXHeader_zero
                       main_spec.demo_registration).2) O).
  - done.
  - apply lone_inv.
  - reflexivity.
  - reflexivity.
  - reflexivity.
Defined.
End server_more.

(** * The LCP layer (package lcp) *)

Module lcp.

(** [binary.BigEndian.Uint16(b)] and [binary.BigEndian.Uint32(b)]. *)
Definition Uint16 (b : list Z) : Z :=
  Z.lor (idx b 1) (Z.shiftl (idx b 0) 8).

Definition Uint32 (b : list Z) : Z :=
  Z.lor (Z.lor (Z.lor (idx b 3) (Z.shiftl (idx b 2) 8))
               (Z.shiftl (idx b 1) 16))
        (Z.shiftl (idx b 0) 24).

(** The one error of the package. *)
Inductive error := MessageTooShort.

(** How a call ends: it returns a nil error, having produced [a]; it
    returns the error [e]; or it panics, on a slice expression whose
    bounds are out of order. *)
Inductive outcome (A : Type) :=
  | Ok (a : A)
  | Err (e : error)
  | Panic.
Arguments Ok {A} a.
Arguments Err {A} e.
Arguments Panic {A}.

Definition outcome_map {A B} (f : A → B) (r : outcome A) : outcome B :=
  match r with
  | Ok a => Ok (f a)
  | Err e => Err e
  | Panic => Panic
  end.

Record Option := {
  Option_Type : Z;                (* OptionType, a uint8 *)
  Option_Data : list Z;
}.

(** The loop of [ConfigureData.UnmarshalBinary], for at most [fuel]
    options; [Ok result] stands for [d.Options = result; return nil]. *)
Fixpoint ConfigureData_loop (fuel : nat) (data : list Z)
    (result : list Option) : option (outcome (list Option)) :=
  match fuel with
  | O => None
  | S fuel =>
      if bool_decide (0 < length data)%nat then
        if bool_decide (length data < 3)%nat then Some (Err MessageTooShort)
        else
          let optType := idx data 0 in
          let optLen := Uint16 (slice data 1 3) in
          if bool_decide (Z.of_nat (length data) < optLen)
          then Some (Err MessageTooShort)
          else if bool_decide (optLen < 3) then Some Panic
          else
            ConfigureData_loop fuel (drop (Z.to_nat optLen) data)
              (result ++ [{| Option_Type := optType;
                             Option_Data := slice data 3 (Z.to_nat optLen) |}])
      else Some (Ok result)
  end.

Definition ConfigureData_UnmarshalBinary (data : list Z)
    : option (outcome (list Option)) :=
  ConfigureData_loop (S (length data)) data [].

Definition TerminateData_UnmarshalBinary (data : list Z)
    : outcome (list Z) :=
  Ok data.

Record EchoData := {
  EchoData_MagicNumber : Z;       (* uint32 *)
  EchoData_Data : list Z;
}.

Definition EchoData_UnmarshalBinary (data : list Z) : outcome EchoData :=
  if bool_decide (length data < 4)%nat then Err MessageTooShort
  else Ok {| EchoData_MagicNumber := Uint32 (slice data 0 4);
             EchoData_Data := drop 4 data |}.

(** The values of the interface [PerTypeData]. *)
Inductive PerTypeData :=
  | Configure (Options : list Option)
  | Terminate (Data : list Z)
  | Echo (d : EchoData).

Record LCP := {
  LCP_Contents : list Z;          (* BaseLayer.Contents *)
  LCP_Payload : list Z;           (* BaseLayer.Payload *)
  LCP_Type : Z;                   (* MessageType, a uint8 *)
  LCP_Identifier : Z;
  LCP_Data : option PerTypeData;  (* None: the nil interface *)
}.

Definition ConfigureRequest : Z := 1.
Definition ConfigureAck : Z := 2.
Definition ConfigureNak : Z := 3.
Definition ConfigureReject : Z := 4.
Definition TerminateRequest : Z := 5.
Definition TerminateAck : Z := 6.
Definition CodeReject : Z := 7.
Definition ProtocolReject : Z := 8.
Definition EchoRequest : Z := 9.
Definition EchoReply : Z := 10.
Definition DiscardRequest : Z := 11.

(** [lcp.Data.UnmarshalBinary(data)] for the value the [switch] of
    [decodeLCP] has put into [lcp.Data]. *)
Definition PerTypeData_UnmarshalBinary (type : Z) (data : list Z)
    : option (outcome (option PerTypeData)) :=
  if bool_decide (type ∈ [ConfigureRequest; ConfigureAck; ConfigureNak;
                          ConfigureReject]) then
    outcome_map (λ o, Some (Configure o)) <$> ConfigureData_UnmarshalBinary data
  else if bool_decide (type ∈ [TerminateRequest; TerminateAck]) then
    Some (outcome_map (λ d, Some (Terminate d))
            (TerminateData_UnmarshalBinary data))
  else if bool_decide (type ∈ [EchoRequest; EchoReply]) then
    Some (outcome_map (λ e, Some (Echo e)) (EchoData_UnmarshalBinary data))
  else Some (Ok None).

(** [decodeLCP]; [Ok lcp] stands for [p.AddLayer(lcp); return nil]. *)
Definition decodeLCP (data : list Z) : option (outcome LCP) :=
  if bool_decide (length data < 4)%nat then Some (Err MessageTooShort)
  else
    let type := idx data 0 in
    let identifier := idx data 1 in
    let lenField := Uint16 (slice data 2 4) in
    if bool_decide (Z.of_nat (length data) < lenField)
    then Some (Err MessageTooShort)
    else
      outcome_map (λ d, {| LCP_Contents := data; LCP_Payload := [];
                           LCP_Type := type; LCP_Identifier := identifier;
                           LCP_Data := d |})
        <$> PerTypeData_UnmarshalBinary type (drop 4 data).

End lcp.

(** * Properties of the LCP layer *)

Module lcp_spec.
Import lcp.

Definition is_byte (b : Z) : Prop := 0 ≤ b < 256.

(** ** Big-endian numbers *)

Lemma lor_shiftl lo hi n :
  0 ≤ n → 0 ≤ lo < 2 ^ n → 0 ≤ hi →
  Z.lor lo (Z.shiftl hi n) = lo + 2 ^ n * hi.
Proof.
  intros Hn Hlo Hhi.
  assert (Z.land lo (Z.shiftl hi n) = 0) as Hdisj.
  { apply Z.bits_inj'. intros i Hi. rewrite Z.land_spec, Z.bits_0.
    destruct (Z.lt_ge_cases i n).
    - by rewrite Z.shiftl_spec_low, andb_false_r.
    - destruct (decide (lo = 0)) as [->|]; [by rewrite Z.bits_0|].
      rewrite (Z.bits_above_log2 lo i); [done|lia|].
      apply Z.lt_le_trans with n; [|done].
      apply Z.log2_lt_pow2; lia. }
  rewrite <- Z.lxor_lor by done. rewrite <- Z.add_nocarry_lxor by done.
  rewrite Z.shiftl_mul_pow2 by done. lia.
Qed.

Lemma Uint16_bytes a b :
  is_byte a → is_byte b → Uint16 [a; b] = 256 * a + b.
Proof.
  unfold is_byte, Uint16, idx. simpl. intros Ha Hb.
  rewrite (lor_shiftl b a 8) by lia. lia.
Qed.

Lemma Uint32_bytes a b c d :
  is_byte a → is_byte b → is_byte c → is_byte d →
  Uint32 [a; b; c; d] = 16777216 * a + 65536 * b + 256 * c + d.
Proof.
  unfold is_byte, Uint32, idx. simpl. intros Ha Hb Hc Hd.
  rewrite (lor_shiftl d c 8) by lia.
  rewrite (lor_shiftl _ b 16) by lia.
  rewrite (lor_shiftl _ a 24) by lia. lia.
Qed.

(** ** The options of a Configure message *)

(** An option on the wire: its type, its length in two bytes, the three
    bytes of this header included, and its data. *)
Definition wire (o : Option) : list Z :=
  let n := 3 + Z.of_nat (length (Option_Data o)) in
  [Option_Type o; n / 256; n mod 256] ++ Option_Data o.

(** An option of the Go types whose length fits the length field. *)
Record wf_option (o : Option) : Prop := {
  wf_type : is_byte (Option_Type o);
  wf_data : Forall is_byte (Option_Data o);
  wf_size : 3 + Z.of_nat (length (Option_Data o)) < 65536;
}.

Lemma wire_length o :
  length (wire o) = (3 + length (Option_Data o))%nat.
Proof. reflexivity. Qed.

(** One round of the loop, on an option followed by [rest]. *)
Lemma ConfigureData_loop_wire fuel o rest acc :
  wf_option o →
  ConfigureData_loop (S fuel) (wire o ++ rest) acc
  = ConfigureData_loop fuel rest (acc ++ [o]).
Proof.
  intros [Ht Hd Hn]. destruct o as [t d]. simpl in *.
  unfold wire. cbn [Option_Type Option_Data].
  remember (3 + Z.of_nat (length d)) as n eqn:Hndef.
  assert (HU : Uint16 [n / 256; n mod 256] = n).
  { rewrite Uint16_bytes.
    - symmetry. apply Z.div_mod. lia.
    - unfold is_byte. split; [apply Z.div_pos; lia|].
      apply Z.div_lt_upper_bound; lia.
    - apply Z.mod_pos_bound. lia. }
  cbn [ConfigureData_loop].
  cbn [app length idx nth slice drop take Nat.sub].
  rewrite !take_0, HU.
  rewrite bool_decide_eq_false_2 by (rewrite length_app; lia).
  rewrite bool_decide_eq_false_2 by lia.
  assert (Z.to_nat n = S (S (S (length d)))) as -> by lia.
  cbn [drop Nat.sub take]. unfold slice. cbn [drop Nat.sub].
  rewrite Nat.sub_0_r, drop_app_length, drop_0, take_app_length.
  reflexivity.
Qed.

Lemma ConfigureData_loop_prefix opts : ∀ fuel rest acc,
  Forall wf_option opts →
  ConfigureData_loop (length opts + fuel) ((opts ≫= wire) ++ rest) acc
  = ConfigureData_loop fuel rest (acc ++ opts).
Proof.
  induction opts as [|o opts IH]; intros fuel rest acc Hwf.
  - simpl. by rewrite app_nil_r.
  - apply Forall_cons in Hwf as [Ho Hwf].
    rewrite bind_cons, <- app_assoc. cbn [length Nat.add].
    rewrite ConfigureData_loop_wire by done.
    rewrite IH by done. by rewrite <- app_assoc.
Qed.

(** The loop needs no more rounds than there are bytes. *)
Lemma ConfigureData_loop_enough fuel : ∀ data acc,
  (length data < fuel)%nat →
  ∃ r, ∀ fuel', (length data < fuel')%nat →
         ConfigureData_loop fuel' data acc = Some r.
Proof.
  induction fuel as [|fuel IH]; intros data acc Hfuel; [lia|].
  destruct (decide (0 < length data)%nat) as [Hpos|Hzero].
  - destruct (decide (length data < 3)%nat) as [Hshort|Hlong].
    { exists (Err MessageTooShort). intros [|fuel'] Hf; [lia|].
      cbn [ConfigureData_loop].
      by rewrite bool_decide_eq_true_2, bool_decide_eq_true_2 by done. }
    set (optLen := Uint16 (slice data 1 3)).
    destruct (decide (Z.of_nat (length data) < optLen)) as [Hover|Hfits].
    { exists (Err MessageTooShort). intros [|fuel'] Hf; [lia|].
      cbn [ConfigureData_loop]. fold optLen.
      rewrite bool_decide_eq_true_2 by done.
      rewrite bool_decide_eq_false_2 by done.
      by rewrite bool_decide_eq_true_2 by done. }
    destruct (decide (optLen < 3)) as [Hlow|Hok].
    { exists Panic. intros [|fuel'] Hf; [lia|].
      cbn [ConfigureData_loop]. fold optLen.
      rewrite bool_decide_eq_true_2 by done.
      rewrite bool_decide_eq_false_2 by done.
      rewrite bool_decide_eq_false_2 by done.
      by rewrite bool_decide_eq_true_2 by done. }
    destruct (IH (drop (Z.to_nat optLen) data)
                (acc ++ [{| Option_Type := idx data 0;
                            Option_Data := slice data 3 (Z.to_nat optLen) |}]))
      as [r Hr].
    { rewrite length_drop. lia. }
    exists r. intros [|fuel'] Hf; [lia|].
    cbn [ConfigureData_loop]. fold optLen.
    rewrite bool_decide_eq_true_2 by done.
    rewrite bool_decide_eq_false_2 by done.
    rewrite bool_decide_eq_false_2 by done.
    rewrite bool_decide_eq_false_2 by done.
    apply Hr. rewrite length_drop. lia.
  - exists (Ok acc). intros [|fuel'] Hf; [lia|].
    cbn [ConfigureData_loop]. by rewrite bool_decide_eq_false_2 by done.
Qed.

Lemma bind_wire_length opts :
  (length opts ≤ length (opts ≫= wire))%nat.
Proof.
  induction opts as [|o opts IH]; [done|].
  rewrite bind_cons, length_app, wire_length. simpl. lia.
Qed.

(** After well-formed options, the call goes on with what follows them. *)
Lemma ConfigureData_UnmarshalBinary_prefix opts rest :
  Forall wf_option opts →
  ConfigureData_UnmarshalBinary ((opts ≫= wire) ++ rest)
  = ConfigureData_loop (S (length rest)) rest opts.
Proof.
  intros Hwf. unfold ConfigureData_UnmarshalBinary.
  pose proof (bind_wire_length opts) as Hlen.
  assert (S (length ((opts ≫= wire) ++ rest))
          = (length opts
             + (S (length ((opts ≫= wire) ++ rest)) - length opts))%nat)
    as -> by (rewrite length_app; lia).
  rewrite ConfigureData_loop_prefix by done. rewrite app_nil_l.
  destruct (ConfigureData_loop_enough (S (length rest)) rest opts) as [r Hr];
    [lia|].
  rewrite (Hr (S (length rest))) by lia. apply Hr.
  rewrite length_app. lia.
Qed.

(** What the loop has read when it returns a nil error. *)
Lemma ConfigureData_loop_Ok fuel : ∀ data acc opts,
  Forall is_byte data →
  ConfigureData_loop fuel data acc = Some (Ok opts) →
  ∃ opts', opts = acc ++ opts' ∧ Forall wf_option opts' ∧
           data = opts' ≫= wire.
Proof.
  induction fuel as [|fuel IH]; intros data acc opts Hbytes; [done|].
  cbn [ConfigureData_loop].
  case_bool_decide as Hpos.
  2:{ intros [= <-]. exists []. rewrite app_nil_r.
      split; [done|]. split; [done|]. destruct data; [done|simpl in *; lia]. }
  case_bool_decide as Hshort; [done|].
  destruct data as [|t [|hi [|lo tl]]]; simpl in Hshort; try lia.
  apply Forall_cons in Hbytes as [Ht Hbytes].
  apply Forall_cons in Hbytes as [Hhi Hbytes].
  apply Forall_cons in Hbytes as [Hlo Hbytes].
  change (slice (t :: hi :: lo :: tl) 1 3) with [hi; lo].
  rewrite Uint16_bytes by done.
  set (n := 256 * hi + lo).
  case_bool_decide as Hover; [done|].
  case_bool_decide as Hlow; [done|].
  intros Hrec.
  assert (Hn : Z.to_nat n = S (S (S (Z.to_nat (n - 3))))) by lia.
  rewrite Hn in Hrec. cbn [drop slice Nat.sub take idx nth] in Hrec.
  rewrite Nat.sub_0_r in Hrec.
  apply IH in Hrec as (opts' & -> & Hwf & Htl);
    [|by apply Forall_drop].
  simpl in Hover.
  assert (Hk : (Z.to_nat (n - 3) ≤ length tl)%nat) by lia.
  set (o := {| Option_Type := t; Option_Data := take (Z.to_nat (n - 3)) tl |}).
  exists (o :: opts'). split; [by rewrite <- app_assoc|].
  assert (Hlen : 3 + Z.of_nat (length (Option_Data o)) = n).
  { unfold o. simpl. rewrite length_take. lia. }
  unfold is_byte in *.
  split.
  - apply Forall_cons. split; [|done]. split.
    + done.
    + by apply Forall_take.
    + rewrite Hlen. unfold n. lia.
  - rewrite bind_cons, <- Htl. unfold wire. rewrite Hlen.
    assert (n / 256 = hi) as ->.
    { unfold n. symmetry. apply (Z.div_unique _ 256 hi lo); lia. }
    assert (n mod 256 = lo) as ->.
    { unfold n. symmetry. apply (Z.mod_unique _ 256 hi lo); lia. }
    unfold o. cbn [Option_Type Option_Data app].
    by rewrite take_drop.
Qed.

(** X19: what [ConfigureData.UnmarshalBinary] accepts.  On every input the
    call ends, and it returns a nil error, with the options [opts], exactly
    when the input is the concatenation of the options of [opts] on the
    wire -- type, big-endian 16-bit length counting the three header bytes,
    data -- each with a length field of at least 3: no byte of the input
    is skipped and none is read twice. *)
Theorem X19_ConfigureData_accepts data :
  Forall is_byte data →
  (∃ r, ConfigureData_UnmarshalBinary data = Some r) ∧
  ∀ opts,
    ConfigureData_UnmarshalBinary data = Some (Ok opts) ↔
    Forall wf_option opts ∧ data = opts ≫= wire.
Proof.
  intros Hbytes. split.
  - destruct (ConfigureData_loop_enough (S (length data)) data []) as [r Hr];
      [lia|].
    exists r. apply Hr. lia.
  - intros opts. split.
    + intros Hok. apply ConfigureData_loop_Ok in Hok; [|done].
      destruct Hok as (opts' & -> & Hwf & ->). done.
    + intros [Hwf ->].
      rewrite <- (app_nil_r (opts ≫= wire)).
      by rewrite ConfigureData_UnmarshalBinary_prefix.
Qed.

Lemma X19_witness :
  ConfigureData_UnmarshalBinary [1; 0; 4; 0xc0; 5; 0; 3]
  = Some (Ok [{| Option_Type := 1; Option_Data := [0xc0] |};
              {| Option_Type := 5; Option_Data := [] |}]).
Proof.
  apply (X19_ConfigureData_accepts [1; 0; 4; 0xc0; 5; 0; 3]).
  - repeat constructor; unfold is_byte; lia.
  - split; [|reflexivity].
    repeat constructor; simpl; unfold is_byte; lia.
Defined.

(** X20: how [ConfigureData.UnmarshalBinary] fails.  After any number of
    well-formed options: one or two bytes left over, or an option whose
    length field is larger than what is left of the input, make it return
    [MessageTooShort]; an option whose length field is 0, 1 or 2 makes it
    panic, on the slice expression [data[3:optLen]], instead of returning
    an error. *)
Theorem X20_ConfigureData_fails opts rest :
  Forall wf_option opts →
  rest ≠ [] →
  let r := ConfigureData_UnmarshalBinary ((opts ≫= wire) ++ rest) in
  ((length rest < 3)%nat → r = Some (Err MessageTooShort)) ∧
  ((3 ≤ length rest)%nat →
   Z.of_nat (length rest) < Uint16 (slice rest 1 3) →
   r = Some (Err MessageTooShort)) ∧
  ((3 ≤ length rest)%nat → Uint16 (slice rest 1 3) < 3 → r = Some Panic).
Proof.
  intros Hwf Hrest r. unfold r.
  rewrite ConfigureData_UnmarshalBinary_prefix by done.
  assert (0 < length rest)%nat by (destruct rest; [done|simpl; lia]).
  cbn [ConfigureData_loop]. rewrite bool_decide_eq_true_2 by done.
  split; [|split].
  - intros Hshort. by rewrite bool_decide_eq_true_2.
  - intros Hlong Hover. rewrite bool_decide_eq_false_2 by lia.
    by rewrite bool_decide_eq_true_2.
  - intros Hlong Hlow. rewrite bool_decide_eq_false_2 by lia.
    rewrite bool_decide_eq_false_2 by lia.
    by rewrite bool_decide_eq_true_2.
Qed.

Lemma X20_witness :
  ConfigureData_UnmarshalBinary [1; 0; 4; 0xc0; 5; 0; 2] = Some Panic.
Proof.
  apply (X20_ConfigureData_fails
           [{| Option_Type := 1; Option_Data := [0xc0] |}] [5; 0; 2]).
  - repeat constructor; simpl; unfold is_byte; lia.
  - done.
  - simpl. lia.
  - vm_compute. reflexivity.
Defined.
(** ** Echo messages *)

(** The four bytes of a 32-bit number, most significant first. *)
Definition be32 (m : Z) : list Z :=
  [m / 16777216; m / 65536 mod 256; m / 256 mod 256; m mod 256].

Lemma Uint32_be32 m : 0 ≤ m < 4294967296 → Uint32 (be32 m) = m.
Proof.
  intros Hm. unfold be32. rewrite Uint32_bytes.
  - replace (m / 65536) with (m / 256 / 256)
      by (rewrite Z.div_div by lia; reflexivity).
    replace (m / 16777216) with (m / 256 / 256 / 256)
      by (rewrite !Z.div_div by lia; reflexivity).
    pose proof (Z.div_mod m 256 ltac:(lia)).
    pose proof (Z.div_mod (m / 256) 256 ltac:(lia)).
    pose proof (Z.div_mod (m / 256 / 256) 256 ltac:(lia)).
    lia.
  - split; [apply Z.div_pos; lia|]. apply Z.div_lt_upper_bound; lia.
  - apply Z.mod_pos_bound. lia.
  - apply Z.mod_pos_bound. lia.
  - apply Z.mod_pos_bound. lia.
Qed.

Lemma be32_Uint32 a b c d :
  is_byte a → is_byte b → is_byte c → is_byte d →
  be32 (Uint32 [a; b; c; d]) = [a; b; c; d].
Proof.
  unfold is_byte. intros Ha Hb Hc Hd. rewrite Uint32_bytes by done.
  unfold be32.
  assert (H0 : (16777216 * a + 65536 * b + 256 * c + d) / 16777216 = a).
  { symmetry. apply (Z.div_unique _ _ a (65536 * b + 256 * c + d)); lia. }
  assert (H1 : (16777216 * a + 65536 * b + 256 * c + d) / 65536
               = 256 * a + b).
  { symmetry. apply (Z.div_unique _ _ _ (256 * c + d)); lia. }
  assert (H2 : (16777216 * a + 65536 * b + 256 * c + d) / 256
               = 65536 * a + 256 * b + c).
  { symmetry. apply (Z.div_unique _ _ _ d); lia. }
  rewrite H0, H1, H2.
  assert ((256 * a + b) mod 256 = b) as ->
    by (symmetry; apply (Z.mod_unique _ _ a); lia).
  assert ((65536 * a + 256 * b + c) mod 256 = c) as ->
    by (symmetry; apply (Z.mod_unique _ _ (256 * a + b)); lia).
  assert ((16777216 * a + 65536 * b + 256 * c + d) mod 256 = d) as ->
    by (symmetry; apply (Z.mod_unique _ _ (65536 * a + 256 * b + c)); lia).
  reflexivity.
Qed.

(** X21: [EchoData.UnmarshalBinary] returns [MessageTooShort] exactly on
    inputs of fewer than four bytes, and never panics; on any other input
    it returns the magic number [m] and the data [d] exactly when the input
    is the four bytes of [m], most significant first, followed by [d]. *)
Theorem X21_EchoData data :
  Forall is_byte data →
  (EchoData_UnmarshalBinary data = Err MessageTooShort
   ↔ (length data < 4)%nat) ∧
  EchoData_UnmarshalBinary data ≠ Panic ∧
  (∀ m d,
     EchoData_UnmarshalBinary data
     = Ok {| EchoData_MagicNumber := m; EchoData_Data := d |}
     ↔ 0 ≤ m < 4294967296 ∧ data = be32 m ++ d).
Proof.
  intros Hbytes. unfold EchoData_UnmarshalBinary.
  split; [|split].
  - case_bool_decide; split; done.
  - by case_bool_decide.
  - intros m d. case_bool_decide as Hshort.
    + split; [done|]. intros [_ ->]. simpl in Hshort. lia.
    + destruct data as [|a [|b [|c [|e tl]]]]; simpl in Hshort; try lia.
      apply Forall_cons in Hbytes as [Ha Hbytes].
      apply Forall_cons in Hbytes as [Hb Hbytes].
      apply Forall_cons in Hbytes as [Hc Hbytes].
      apply Forall_cons in Hbytes as [He Hbytes].
      change (slice (a :: b :: c :: e :: tl) 0 4) with [a; b; c; e].
      change (drop 4 (a :: b :: c :: e :: tl)) with tl.
      split.
      * intros [= <- <-]. split.
        -- rewrite Uint32_bytes by done. unfold is_byte in *. lia.
        -- by rewrite be32_Uint32.
      * intros [Hm Heq]. unfold be32 in Heq. simpl in Heq.
        injection Heq as -> -> -> -> ->.
        f_equal. f_equal. apply (Uint32_be32 m Hm).
Qed.

Lemma X21_witness :
  EchoData_UnmarshalBinary [0x12; 0x34; 0x56; 0x78; 9]
  = Ok {| EchoData_MagicNumber := 0x12345678; EchoData_Data := [9] |}.
Proof.
  apply (X21_EchoData [0x12; 0x34; 0x56; 0x78; 9]).
  - repeat constructor; unfold is_byte; lia.
  - split; [lia|reflexivity].
Defined.

(** ** The message header *)

(** [data] with the length field set to [lf]. *)
Definition set_length (lf : Z) (data : list Z) : list Z :=
  <[3%nat := lf mod 256]> (<[2%nat := lf / 256]> data).

(** A layer without its [Contents]. *)
Definition fields (l : LCP) : Z * Z * option PerTypeData * list Z :=
  (LCP_Type l, LCP_Identifier l, LCP_Data l, LCP_Payload l).

Lemma decodeLCP_set_length data lf :
  Forall is_byte data →
  (4 ≤ length data)%nat →
  0 ≤ lf < 65536 →
  (Z.of_nat (length data) < lf →
   decodeLCP (set_length lf data) = Some (Err MessageTooShort)) ∧
  (lf ≤ Z.of_nat (length data) →
   decodeLCP (set_length lf data)
   = outcome_map (λ d, {| LCP_Contents := set_length lf data;
                          LCP_Payload := [];
                          LCP_Type := idx data 0;
                          LCP_Identifier := idx data 1;
                          LCP_Data := d |})
       <$> PerTypeData_UnmarshalBinary (idx data 0) (drop 4 data)).
Proof.
  intros Hbytes Hlen Hlf.
  destruct data as [|a [|b [|c [|e tl]]]]; simpl in Hlen; try lia.
  assert (HU : Uint16 [lf / 256; lf mod 256] = lf).
  { rewrite Uint16_bytes.
    - symmetry. apply Z.div_mod. lia.
    - split; [apply Z.div_pos; lia|]. apply Z.div_lt_upper_bound; lia.
    - apply Z.mod_pos_bound. lia. }
  unfold decodeLCP, set_length. cbn [list_insert insert].
  change (slice (a :: b :: lf / 256 :: lf mod 256 :: tl) 2 4)
    with [lf / 256; lf mod 256].
  rewrite HU. cbn [length idx nth drop].
  rewrite bool_decide_eq_false_2 by lia.
  split; intros Hcmp.
  - by rewrite bool_decide_eq_true_2.
  - by rewrite bool_decide_eq_false_2 by lia.
Qed.

(** X22: the length field of a message is compared with the length of the
    input and then forgotten.  [decodeLCP] returns [MessageTooShort] when
    the field is larger than the input; for two values of the field that
    are not, the outcome is the same, and so are the type, the identifier
    and the data of the layer: the bytes after the header are all handed
    to the [UnmarshalBinary] of the message type, also those beyond the
    length the field gives.  The [Contents] of a layer are the whole
    input, and its [Payload] is empty. *)
Theorem X22_decodeLCP_length_field data lf :
  Forall is_byte data →
  (4 ≤ length data)%nat →
  0 ≤ lf < 65536 →
  (Z.of_nat (length data) < lf →
   decodeLCP (set_length lf data) = Some (Err MessageTooShort)) ∧
  (lf ≤ Z.of_nat (length data) →
   ∀ lf', 0 ≤ lf' ≤ lf →
     (outcome_map fields <$> decodeLCP (set_length lf' data))
     = (outcome_map fields <$> decodeLCP (set_length lf data))) ∧
  (∀ l, decodeLCP data = Some (Ok l) →
        LCP_Contents l = data ∧ LCP_Payload l = []).
Proof.
  intros Hbytes Hlen Hlf. split; [|split].
  - by apply decodeLCP_set_length.
  - intros Hfits lf' Hlf'.
    rewrite (proj2 (decodeLCP_set_length data lf Hbytes Hlen Hlf)) by done.
    rewrite (proj2 (decodeLCP_set_length data lf' Hbytes Hlen ltac:(lia)))
      by lia.
    by destruct (PerTypeData_UnmarshalBinary _ _) as [[| |]|].
  - intros l. unfold decodeLCP.
    case_bool_decide; [done|]. case_bool_decide; [done|].
    destruct (PerTypeData_UnmarshalBinary _ _) as [[| |]|]; simpl;
      try done.
    by intros [= <-].
Qed.

Lemma X22_witness :
  (outcome_map fields <$> decodeLCP (set_length 0 [5; 7; 0; 9; 1; 2; 3]))
  = (outcome_map fields <$> decodeLCP (set_length 4 [5; 7; 0; 9; 1; 2; 3])).
Proof.
  apply (X22_decodeLCP_length_field [5; 7; 0; 9; 1; 2; 3] 4).
  - repeat constructor; unfold is_byte; lia.
  - simpl. lia.
  - lia.
  - simpl. lia.
  - lia.
Defined.
End lcp_spec.

(** * Packet statistics (package stats) *)

Module stats.

(** [uint64(x)], and the arithmetic of [uint64]. *)
Definition to_uint64 (x : Z) : Z := x mod 18446744073709551616.

Record Statistics := {
  rxPackets : Z;
  txPackets : Z;
  rxBytes : Z;
  txBytes : Z;
  connectTime : Z;
}.

(** Modelled from the spec: an [ipx.Packet] of package ipx, which is not
    part of the code at hand, by the two fields it has. *)
Record Packet := {
  Header : ipx.Header;
  Payload : list Z;
}.

(** The node of package stats; the node it wraps is a handle, as in
    package server. *)
Record node := {
  inner : server.Node;
  stats : Statistics;
}.

Section stats.

(** [ipx.HeaderLength]. *)
Variable HeaderLength : Z.

(** [statsNetwork.NewNode], for the node the inner network hands out and
    the time [time.Now()] returns. *)
Definition NewNode (inner_node : server.Node) (now : Z) : node :=
  {| inner := inner_node;
     stats := {| rxPackets := 0; txPackets := 0; rxBytes := 0; txBytes := 0;
                 connectTime := now |} |}.

(** [node.ReadPacket], for what [n.inner.ReadPacket()] returns: a packet,
    or an error ([None]). *)
Definition ReadPacket (r : option Packet) (n : node)
    : option Packet * node :=
  match r with
  | None => (None, n)
  | Some packet =>
      let s := stats n in
      let s := {| rxPackets := rxPackets s;
                  txPackets := to_uint64 (txPackets s + 1);
                  rxBytes := rxBytes s; txBytes := txBytes s;
                  connectTime := connectTime s |} in
      let s := {| rxPackets := rxPackets s; txPackets := txPackets s;
                  rxBytes := rxBytes s;
                  txBytes :=
                    to_uint64 (txBytes s
                               + to_uint64 (Z.of_nat (length (Payload packet))
                                            + HeaderLength));
                  connectTime := connectTime s |} in
      (Some packet, {| inner := inner n; stats := s |})
  end.

(** [node.WritePacket], for what [n.inner.WritePacket(packet)] returns: nil
    ([true]) or an error. *)
Definition WritePacket (packet : Packet) (ok : bool) (n : node)
    : bool * node :=
  if negb ok then (false, n)
  else
    let s := stats n in
    let s := {| rxPackets := to_uint64 (rxPackets s + 1);
                txPackets := txPackets s;
                rxBytes := rxBytes s; txBytes := txBytes s;
                connectTime := connectTime s |} in
    let s := {| rxPackets := rxPackets s; txPackets := txPackets s;
                rxBytes :=
                  to_uint64 (rxBytes s
                             + to_uint64 (Z.of_nat (length (Payload packet))
                                          + HeaderLength));
                txBytes := txBytes s;
                connectTime := connectTime s |} in
    (true, {| inner := inner n; stats := s |}).

(** A call of one of the two methods, with what the inner node answers. *)
Inductive call :=
  | CallReadPacket (r : option Packet)
  | CallWritePacket (packet : Packet) (ok : bool).

Definition after (n : node) (c : call) : node :=
  match c with
  | CallReadPacket r => (ReadPacket r n).2
  | CallWritePacket packet ok => (WritePacket packet ok n).2
  end.

End stats.

End stats.

(** * Properties of the statistics *)

Module stats_spec.
Import stats.

(** The packets the calls [cs] have read from the inner node, and those
    they have written into it. *)
Definition read_packets (cs : list call) : list Packet :=
  cs ≫= λ c, match c with CallReadPacket (Some p) => [p] | _ => [] end.

Definition written_packets (cs : list call) : list Packet :=
  cs ≫= λ c, match c with CallWritePacket p true => [p] | _ => [] end.

(** The bytes of the packets [ps], headers included. *)
Definition bytes_of (HeaderLength : Z) (ps : list Packet) : Z :=
  foldr (λ p acc, Z.of_nat (length (Payload p)) + HeaderLength + acc) 0 ps.

Lemma to_uint64_add_l x y : to_uint64 (to_uint64 x + y) = to_uint64 (x + y).
Proof. unfold to_uint64. by rewrite Zplus_mod_idemp_l. Qed.

Lemma to_uint64_add_r x y : to_uint64 (x + to_uint64 y) = to_uint64 (x + y).
Proof. unfold to_uint64. by rewrite Zplus_mod_idemp_r. Qed.

(** The counters are within [uint64]. *)
Definition in_range (s : Statistics) : Prop :=
  (0 ≤ rxPackets s < 18446744073709551616) ∧
  (0 ≤ txPackets s < 18446744073709551616) ∧
  (0 ≤ rxBytes s < 18446744073709551616) ∧
  (0 ≤ txBytes s < 18446744073709551616).

Lemma to_uint64_range x : 0 ≤ to_uint64 x < 18446744073709551616.
Proof. unfold to_uint64. apply Z.mod_pos_bound. lia. Qed.

Lemma to_uint64_small x :
  0 ≤ x < 18446744073709551616 → to_uint64 x = x.
Proof. intros. unfold to_uint64. by apply Z.mod_small. Qed.

Lemma in_range_after HeaderLength n c :
  in_range (stats n) → in_range (stats (after HeaderLength n c)).
Proof.
  intros (? & ? & ? & ?).
  destruct c as [[p|]|p []]; unfold in_range;
    cbn [after ReadPacket WritePacket snd negb stats
         rxPackets txPackets rxBytes txBytes];
    (split; [|split; [|split]]); done || apply to_uint64_range.
Qed.

Lemma to_uint64_add_mid a x y :
  to_uint64 (a + to_uint64 x + y) = to_uint64 (a + x + y).
Proof.
  replace (a + to_uint64 x + y) with (a + y + to_uint64 x) by lia.
  rewrite to_uint64_add_r. f_equal. lia.
Qed.

Lemma counters HeaderLength cs : ∀ n,
  in_range (stats n) →
  let n' := foldl (after HeaderLength) n cs in
  txPackets (stats n')
  = to_uint64 (txPackets (stats n) + Z.of_nat (length (read_packets cs))) ∧
  txBytes (stats n')
  = to_uint64 (txBytes (stats n) + bytes_of HeaderLength (read_packets cs)) ∧
  rxPackets (stats n')
  = to_uint64 (rxPackets (stats n)
               + Z.of_nat (length (written_packets cs))) ∧
  rxBytes (stats n')
  = to_uint64 (rxBytes (stats n)
               + bytes_of HeaderLength (written_packets cs)) ∧
  connectTime (stats n') = connectTime (stats n) ∧
  inner n' = inner n.
Proof.
  induction cs as [|c cs IH]; intros n Hn.
  - destruct Hn as (? & ? & ? & ?). simpl.
    rewrite !Z.add_0_r, !to_uint64_small by done. done.
  - cbn [foldl]. cbv zeta.
    destruct (IH (after HeaderLength n c) (in_range_after _ _ _ Hn))
      as (Htp & Htb & Hrp & Hrb & Hct & Hin).
    rewrite Htp, Htb, Hrp, Hrb, Hct, Hin. clear IH Htp Htb Hrp Hrb Hct Hin.
    unfold read_packets, written_packets. rewrite !bind_cons.
    fold (read_packets cs). fold (written_packets cs).
    destruct c as [[p|]|p []];
      cbn [after ReadPacket WritePacket snd negb stats inner
           rxPackets txPackets rxBytes txBytes connectTime
           app length bytes_of foldr];
      rewrite ?app_nil_l;
      rewrite ?to_uint64_add_l, ?to_uint64_add_r, ?to_uint64_add_l,
        ?to_uint64_add_mid;
      fold (bytes_of HeaderLength (read_packets cs));
      fold (bytes_of HeaderLength (written_packets cs));
      (split; [|split; [|split; [|split; [|split]]]]);
      try done; f_equal; lia.
Qed.

(** X23: what the counters of a node count.  After any calls of
    [ReadPacket] and [WritePacket] on a node fresh from [NewNode],
    [txPackets] and [txBytes] are the number and the bytes, headers
    included, of the packets the reads have returned, [rxPackets] and
    [rxBytes] those of the packets the writes have passed on, all modulo
    2^64; a call in which the inner node fails counts nothing, a read
    never counts as received and a write never as sent, and the time of
    connection stays the time of [NewNode]. *)
Theorem X23_counters HeaderLength inner_node now cs :
  let n := foldl (after HeaderLength) (NewNode inner_node now) cs in
  txPackets (stats n) = to_uint64 (Z.of_nat (length (read_packets cs))) ∧
  txBytes (stats n) = to_uint64 (bytes_of HeaderLength (read_packets cs)) ∧
  rxPackets (stats n) = to_uint64 (Z.of_nat (length (written_packets cs))) ∧
  rxBytes (stats n) = to_uint64 (bytes_of HeaderLength (written_packets cs)) ∧
  connectTime (stats n) = now ∧
  inner n = inner_node.
Proof.
  apply (counters HeaderLength cs (NewNode inner_node now)).
  unfold in_range. simpl. lia.
Qed.

End stats_spec.

(** * The socket table of the DOS driver (ipx.c) *)

Module dali.

Definition MAX_OPEN_SOCKETS : nat := 8.

Record ipx_socket := {
  socket : Z;                     (* unsigned short *)
  ecbs : Z;                       (* struct ipx_ecb far *; 0 is NULL *)
}.

(** [open_sockets], a static array, as the program starts. *)
Definition open_sockets_zero : list ipx_socket :=
  replicate MAX_OPEN_SOCKETS {| socket := 0; ecbs := 0 |}.

(** [FindSocket(num)]: the index [i] for [&open_sockets[i]], [None] for
    NULL.  The parameter is an [unsigned short]. *)
Definition FindSocket (num : Z) (open_sockets : list ipx_socket)
    : option nat :=
  fst <$> list_find (λ s, socket s = to_uint16 num)
            (take MAX_OPEN_SOCKETS open_sockets).

(** The registers of [union INTPACK] the two socket calls use. *)
Record INTPACK := {
  ax : Z;
  dx : Z;
}.

Section dali.

(** [ntohs] and [htons] of inlines.h, which is not part of the code at
    hand: functions on 16-bit values. *)
Variable ntohs : Z → Z.
Variable htons : Z → Z.

(** [while (FindSocket(socknum) != NULL) ++socknum], for at most [fuel]
    tests. *)
Fixpoint OpenSocket_scan (fuel : nat) (socknum : Z)
    (open_sockets : list ipx_socket) : option Z :=
  match fuel with
  | O => None
  | S fuel =>
      match FindSocket socknum open_sockets with
      | None => Some socknum
      | Some _ => OpenSocket_scan fuel (socknum + 1) open_sockets
      end
  end.

(** [OpenSocket(ip)]: the registers and the table it leaves.  The [int]
    [socknum] of the source holds the 16-bit value [ntohs] returns, or a
    number from 0x4002 on; each of its uses converts it to an
    [unsigned short], so it is kept here as that value. *)
Definition OpenSocket (fuel : nat) (ip : INTPACK)
    (open_sockets : list ipx_socket)
    : option (INTPACK * list ipx_socket) :=
  let socknum := ntohs (dx ip) in
  socknum ←
    (if bool_decide (socknum = 0)
     then OpenSocket_scan fuel 0x4002 open_sockets
     else Some socknum);
  match FindSocket socknum open_sockets with
  | Some _ => Some ({| ax := 0xff; dx := dx ip |}, open_sockets)
  | None =>
      match FindSocket 0 open_sockets with
      | None => Some ({| ax := 0xfe; dx := dx ip |}, open_sockets)
      | Some sock =>
          Some ({| ax := 0; dx := htons socknum |},
                <[sock := {| socket := to_uint16 socknum; ecbs := 0 |}]>
                  open_sockets)
      end
  end.

(** [CloseSocket(num)]. *)
Definition CloseSocket (num : Z) (open_sockets : list ipx_socket)
    : list ipx_socket :=
  if bool_decide (num = 0) then open_sockets
  else
    match FindSocket num open_sockets with
    | None => open_sockets
    | Some sock =>
        alter (λ s, {| socket := 0; ecbs := ecbs s |}) sock open_sockets
    end.

End dali.

End dali.

(** * Properties of the socket table *)

Module dali_spec.
Import dali.

(** The table has an entry for the socket [num]. *)
Definition opened (num : Z) (tab : list ipx_socket) : Prop :=
  ∃ i s, tab !! i = Some s ∧ socket s = num.

(** A table of [MAX_OPEN_SOCKETS] entries, in which no socket other than
    0, the mark of a free entry, comes twice. *)
Record wf (tab : list ipx_socket) : Prop := {
  wf_length : length tab = MAX_OPEN_SOCKETS;
  wf_range : ∀ i s, tab !! i = Some s → 0 ≤ socket s < 65536;
  wf_distinct : ∀ i j a b,
    tab !! i = Some a → tab !! j = Some b →
    socket a = socket b → socket a ≠ 0 → i = j;
}.

Lemma wf_zero : wf open_sockets_zero.
Proof.
  split.
  - reflexivity.
  - intros i s Hs. apply lookup_replicate in Hs as [-> _]. simpl. lia.
  - intros i j a b Ha _ _ Hne. apply lookup_replicate in Ha as [-> _].
    done.
Qed.

Lemma FindSocket_Some num tab i :
  length tab = MAX_OPEN_SOCKETS →
  FindSocket num tab = Some i ↔
  ∃ s, tab !! i = Some s ∧ socket s = to_uint16 num ∧
       ∀ j y, tab !! j = Some y → (j < i)%nat → socket y ≠ to_uint16 num.
Proof.
  intros Hlen. unfold FindSocket. rewrite take_ge by lia.
  rewrite fmap_Some. split.
  - intros ([i' s] & Hfind & ->). apply list_find_Some in Hfind. by exists s.
  - intros (s & Hs). exists (i, s). split; [|done]. by apply list_find_Some.
Qed.

Lemma FindSocket_None num tab :
  length tab = MAX_OPEN_SOCKETS →
  FindSocket num tab = None ↔ ¬ opened (to_uint16 num) tab.
Proof.
  intros Hlen. unfold FindSocket. rewrite take_ge by lia.
  rewrite fmap_None, list_find_None, Forall_forall. split.
  - intros Hall (i & s & Hs & Heq). apply (Hall s); [|done].
    by eapply list_elem_of_lookup_2.
  - intros Hno s Hs Heq. apply list_elem_of_lookup_1 in Hs as [i Hi].
    apply Hno. by exists i, s.
Qed.

Lemma FindSocket_is_Some num tab :
  length tab = MAX_OPEN_SOCKETS →
  is_Some (FindSocket num tab) ↔ opened (to_uint16 num) tab.
Proof.
  intros Hlen. destruct (FindSocket num tab) as [i|] eqn:Hf.
  - split; [|by eexists]. intros _.
    apply FindSocket_Some in Hf as (s & Hs & Heq & _); [|done].
    by exists i, s.
  - split; [by intros [? ?]|]. intros Hop.
    by apply FindSocket_None in Hf.
Qed.

#[local] Instance opened_dec num tab : Decision (opened num tab).
Proof.
  destruct (list_find (λ s, socket s = num) tab) as [[i s]|] eqn:Hf.
  - left. apply list_find_Some in Hf as (Hs & Heq & _). by exists i, s.
  - right. intros (i & s & Hs & Heq).
    apply list_find_None in Hf. rewrite Forall_forall in Hf.
    apply (Hf s); [|done]. by eapply list_elem_of_lookup_2.
Defined.

(** ** Opening a socket *)

(** The scan for a free socket number. *)
Lemma OpenSocket_scan_spec fuel : ∀ n tab,
  length tab = MAX_OPEN_SOCKETS →
  0 ≤ n → n + Z.of_nat fuel ≤ 65536 →
  match OpenSocket_scan fuel n tab with
  | Some m => ∃ k, 0 ≤ k < Z.of_nat fuel ∧ m = n + k ∧ ¬ opened m tab ∧
                   ∀ j, 0 ≤ j < k → opened (n + j) tab
  | None => ∀ j, 0 ≤ j < Z.of_nat fuel → opened (n + j) tab
  end.
Proof.
  induction fuel as [|fuel IH]; intros n tab Hlen Hn Hmax; simpl.
  - intros j Hj. lia.
  - assert (Hsmall : to_uint16 n = n)
      by (unfold to_uint16; apply Z.mod_small; lia).
    destruct (FindSocket n tab) as [i|] eqn:Hf.
    + assert (Hop : opened n tab).
      { rewrite <- Hsmall. apply FindSocket_is_Some; [done|by eexists]. }
      specialize (IH (n + 1) tab Hlen ltac:(lia) ltac:(lia)).
      destruct (OpenSocket_scan fuel (n + 1) tab) as [m|].
      * destruct IH as (k & Hk & -> & Hfree & Hbelow).
        exists (k + 1). split; [lia|]. split; [lia|]. split; [done|].
        intros j Hj. destruct (decide (j = 0)) as [->|].
        -- by rewrite Z.add_0_r.
        -- replace (n + j) with (n + 1 + (j - 1)) by lia.
           apply Hbelow. lia.
      * intros j Hj. destruct (decide (j = 0)) as [->|].
        -- by rewrite Z.add_0_r.
        -- replace (n + j) with (n + 1 + (j - 1)) by lia. apply IH. lia.
    + exists 0. split; [lia|]. split; [lia|].
      split; [|intros j Hj; lia].
      rewrite <- Hsmall. by apply FindSocket_None.
Qed.

(** More socket numbers than the table has entries are not all in it. *)
Lemma not_all_opened n tab :
  length tab = MAX_OPEN_SOCKETS →
  ¬ ∀ j, 0 ≤ j < Z.of_nat (S MAX_OPEN_SOCKETS) → opened (n + j) tab.
Proof.
  intros Hlen Hall.
  set (nums := (λ j : nat, n + Z.of_nat j) <$> seq 0 (S MAX_OPEN_SOCKETS)).
  assert (Hsub : nums ⊆+ socket <$> tab).
  { apply NoDup_submseteq.
    - apply NoDup_fmap_2; [|apply NoDup_seq]. intros i j Hij. lia.
    - intros x Hx. apply list_elem_of_fmap in Hx as (j & -> & Hj).
      apply elem_of_seq in Hj.
      destruct (Hall (Z.of_nat j)) as (i & s & Hs & Heq); [lia|].
      apply list_elem_of_fmap. exists s. split; [done|].
      by eapply list_elem_of_lookup_2. }
  apply submseteq_length in Hsub.
  unfold nums in Hsub. rewrite !length_fmap, length_seq, Hlen in Hsub. lia.
Qed.

(** The rest of [OpenSocket], once the socket number is settled. *)
Definition OpenSocket_at (htons : Z → Z) (socknum : Z) (ip : INTPACK)
    (tab : list ipx_socket) : INTPACK * list ipx_socket :=
  match FindSocket socknum tab with
  | Some _ => ({| ax := 0xff; dx := dx ip |}, tab)
  | None =>
      match FindSocket 0 tab with
      | None => ({| ax := 0xfe; dx := dx ip |}, tab)
      | Some sock =>
          ({| ax := 0; dx := htons socknum |},
           <[sock := {| socket := to_uint16 socknum; ecbs := 0 |}]> tab)
      end
  end.

Lemma OpenSocket_at_spec htons num ip tab :
  wf tab → 0 < num < 65536 →
  let r := OpenSocket_at htons num ip tab in
  wf r.2 ∧
  (opened num tab → r = ({| ax := 0xff; dx := dx ip |}, tab)) ∧
  (¬ opened num tab → ¬ opened 0 tab →
   r = ({| ax := 0xfe; dx := dx ip |}, tab)) ∧
  (¬ opened num tab → opened 0 tab →
   r.1 = {| ax := 0; dx := htons num |} ∧
   opened num r.2 ∧
   ∀ n, n ≠ 0 → n ≠ num → opened n r.2 ↔ opened n tab).
Proof.
  intros Hwf Hnum r. pose proof (wf_length _ Hwf) as Hlen.
  assert (Hsmall : to_uint16 num = num)
    by (unfold to_uint16; apply Z.mod_small; lia).
  assert (Hzero : to_uint16 0 = 0) by reflexivity.
  unfold r, OpenSocket_at.
  destruct (FindSocket num tab) as [i|] eqn:Hf.
  { assert (Hop : opened num tab).
    { rewrite <- Hsmall. apply FindSocket_is_Some; [done|by eexists]. }
    simpl. split; [done|]. split; [done|]. split; [done|]. done. }
  assert (Hno : ¬ opened num tab).
  { rewrite <- Hsmall. by apply FindSocket_None. }
  destruct (FindSocket 0 tab) as [i|] eqn:Hfree.
  2:{ assert (¬ opened 0 tab).
      { rewrite <- Hzero. by apply FindSocket_None. }
      simpl. split; [done|]. split; [done|]. split; [done|]. done. }
  apply FindSocket_Some in Hfree as (s0 & Hs0 & Hz & _); [|done].
  rewrite Hzero in Hz. rewrite Hsmall. cbn [fst snd].
  set (new := {| socket := num; ecbs := 0 |}).
  assert (Hi : (i < length tab)%nat) by by eapply lookup_lt_Some.
  assert (Hlook : ∀ j s, <[i := new]> tab !! j = Some s ↔
            (j = i ∧ s = new) ∨ (j ≠ i ∧ tab !! j = Some s)).
  { intros j s. rewrite list_lookup_insert_Some. split.
    - intros [(<- & <- & _)|[? ?]]; [by left|right; split; congruence].
    - intros [[-> ->]|[? ?]]; [by left|right; split; congruence]. }
  split; [|split; [intros Hop; by destruct Hno|split]].
  - split.
    + by rewrite length_insert.
    + intros j s [[-> ->]|[_ Hs]]%Hlook; [simpl; lia|].
      by apply (wf_range _ Hwf j).
    + intros j1 j2 a b [[-> ->]|[Hne1 Ha]]%Hlook [[-> ->]|[Hne2 Hb]]%Hlook
        Heq Hnz; simpl in *.
      * done.
      * destruct Hno. exists j2, b. done.
      * destruct Hno. exists j1, a. done.
      * by apply (wf_distinct _ Hwf j1 j2 a b).
  - intros _ Hno0. destruct Hno0. by exists i, s0.
  - intros _ Hop0. split; [done|]. split.
    + exists i, new. split; [|done]. apply Hlook. by left.
    + intros n Hn0 Hnn. split.
      * intros (j & s & [[-> ->]|[_ Hs]]%Hlook & Heq); [done|].
        by exists j, s.
      * intros (j & s & Hs & Heq). exists j, s. split; [|done].
        apply Hlook. right. split; [|done]. intros ->.
        rewrite Hs0 in Hs. injection Hs as <-. congruence.
Qed.

(** X26: opening a socket by its number.  On a well-formed table, for a
    socket number other than 0: if the socket is open the call answers
    0xff; else, if the table has no free entry, it answers 0xfe; in both
    cases the table is unchanged.  Otherwise it answers 0 with the number
    in [dx], the socket is open afterwards, and no other socket is opened
    or closed.  The table stays well-formed: no socket is in it twice. *)
Theorem X26_OpenSocket ntohs htons fuel ip tab :
  wf tab →
  0 < ntohs (dx ip) < 65536 →
  let num := ntohs (dx ip) in
  ∃ ip' tab',
    OpenSocket ntohs htons fuel ip tab = Some (ip', tab') ∧
    wf tab' ∧
    (opened num tab → ip' = {| ax := 0xff; dx := dx ip |} ∧ tab' = tab) ∧
    (¬ opened num tab → ¬ opened 0 tab →
     ip' = {| ax := 0xfe; dx := dx ip |} ∧ tab' = tab) ∧
    (¬ opened num tab → opened 0 tab →
     ip' = {| ax := 0; dx := htons num |} ∧
     opened num tab' ∧
     ∀ n, n ≠ 0 → n ≠ num → opened n tab' ↔ opened n tab).
Proof.
  intros Hwf Hnum num.
  destruct (OpenSocket_at_spec htons num ip tab Hwf Hnum)
    as (Hwf' & Hopen & Hfull & Hnew).
  exists (OpenSocket_at htons num ip tab).1,
         (OpenSocket_at htons num ip tab).2.
  split.
  - unfold OpenSocket. fold num.
    rewrite bool_decide_eq_false_2 by lia. simpl.
    unfold OpenSocket_at.
    by destruct (FindSocket num tab), (FindSocket 0 tab).
  - split; [done|]. split; [|split].
    + intros Hop. by rewrite (Hopen Hop).
    + intros Hno Hno0. by rewrite (Hfull Hno Hno0).
    + done.
Qed.

(** X27: opening a socket without a number.  When the number asked for is
    0, the call takes the least number from 0x4002 on that is not open --
    there is one among the first nine, so the search ends -- and opens it,
    answering 0 with that number in [dx], unless the table has no free
    entry, when it answers 0xfe and leaves the table unchanged. *)
Theorem X27_OpenSocket_dynamic ntohs htons ip tab :
  wf tab →
  ntohs (dx ip) = 0 →
  ∃ k ip' tab',
    0 ≤ k ≤ 8 ∧
    ¬ opened (0x4002 + k) tab ∧
    (∀ j, 0 ≤ j < k → opened (0x4002 + j) tab) ∧
    OpenSocket ntohs htons (S MAX_OPEN_SOCKETS) ip tab = Some (ip', tab') ∧
    wf tab' ∧
    (¬ opened 0 tab → ip' = {| ax := 0xfe; dx := dx ip |} ∧ tab' = tab) ∧
    (opened 0 tab →
     ip' = {| ax := 0; dx := htons (0x4002 + k) |} ∧
     opened (0x4002 + k) tab' ∧
     ∀ n, n ≠ 0 → n ≠ 0x4002 + k → opened n tab' ↔ opened n tab).
Proof.
  intros Hwf Hzero. pose proof (wf_length _ Hwf) as Hlen.
  pose proof (OpenSocket_scan_spec (S MAX_OPEN_SOCKETS) 0x4002 tab Hlen
                ltac:(lia) ltac:(unfold MAX_OPEN_SOCKETS; lia)) as Hscan.
  destruct (OpenSocket_scan (S MAX_OPEN_SOCKETS) 0x4002 tab) as [m|] eqn:Hm;
    [|by apply not_all_opened in Hscan].
  destruct Hscan as (k & Hk & -> & Hfree & Hbelow).
  unfold MAX_OPEN_SOCKETS in Hk.
  assert (Hnum : 0 < 0x4002 + k < 65536) by lia.
  destruct (OpenSocket_at_spec htons (0x4002 + k) ip tab Hwf Hnum)
    as (Hwf' & _ & Hfull & Hnew).
  exists k, (OpenSocket_at htons (0x4002 + k) ip tab).1,
         (OpenSocket_at htons (0x4002 + k) ip tab).2.
  split; [lia|]. split; [done|]. split; [done|].
  split.
  - unfold OpenSocket. rewrite Hzero.
    rewrite bool_decide_eq_true_2 by done. rewrite Hm. simpl.
    unfold OpenSocket_at.
    by destruct (FindSocket (16386 + k) tab), (FindSocket 0 tab).
  - split; [done|]. split.
    + intros Hno0. by rewrite (Hfull Hfree Hno0).
    + by apply Hnew.
Qed.

(** ** Closing a socket *)

(** X28: closing a socket.  On a well-formed table, [CloseSocket(num)]
    frees the entry of the socket [num] and touches no other socket: the
    sockets open afterwards are those that were open, without [num].
    Closing the socket 0, or a socket that is not open, changes nothing;
    and the table stays well-formed. *)
Theorem X28_CloseSocket num tab :
  wf tab →
  0 ≤ num < 65536 →
  let tab' := CloseSocket num tab in
  wf tab' ∧
  (∀ n, n ≠ 0 → opened n tab' ↔ opened n tab ∧ n ≠ num) ∧
  (num = 0 ∨ ¬ opened num tab → tab' = tab).
Proof.
  intros Hwf Hnum tab'. pose proof (wf_length _ Hwf) as Hlen.
  assert (Hsmall : to_uint16 num = num)
    by (unfold to_uint16; apply Z.mod_small; lia).
  unfold tab', CloseSocket. case_bool_decide as Hz.
  { subst num. split; [done|]. split; [|done].
    intros n Hn. split; [by intros ?|by intros [? _]]. }
  destruct (FindSocket num tab) as [i|] eqn:Hf.
  2:{ assert (Hno : ¬ opened num tab).
      { rewrite <- Hsmall. by apply FindSocket_None. }
      split; [done|]. split; [|done].
      intros n Hn. split; [|by intros [? _]].
      intros Hop. split; [done|]. by intros ->. }
  apply FindSocket_Some in Hf as (s & Hs & Heq & _); [|done].
  rewrite Hsmall in Heq.
  set (f := λ s, {| socket := 0; ecbs := ecbs s |}).
  assert (Hlook : ∀ j y, alter f i tab !! j = Some y ↔
            (j = i ∧ y = f s) ∨ (j ≠ i ∧ tab !! j = Some y)).
  { intros j y. destruct (decide (j = i)) as [->|Hne].
    - rewrite list_lookup_alter_eq, Hs. simpl. split.
      + intros [= <-]. by left.
      + intros [[_ ->]|[? _]]; done.
    - rewrite list_lookup_alter_ne by done. split.
      + intros ?. by right.
      + intros [[? _]|[_ ?]]; done. }
  split; [|split].
  - split.
    + by rewrite length_alter.
    + intros j y [[-> ->]|[_ Hy]]%Hlook; [simpl; lia|].
      by apply (wf_range _ Hwf j).
    + intros j1 j2 a b [[-> ->]|[Hne1 Ha]]%Hlook [[-> ->]|[Hne2 Hb]]%Hlook
        Hab Hnz; simpl in *; try done.
      by apply (wf_distinct _ Hwf j1 j2 a b).
  - intros n Hn. split.
    + intros (j & y & [[-> ->]|[Hne Hy]]%Hlook & Hyn); [done|].
      split; [by exists j, y|]. intros ->. apply Hne.
      apply (wf_distinct _ Hwf j i y s); congruence.
    + intros [(j & y & Hy & Hyn) Hne]. exists j, y. split; [|done].
      apply Hlook. right. split; [|done]. intros ->. congruence.
  - intros [->|Hno]; [done|]. destruct Hno. by exists i, s.
Qed.

(** ** The table in use *)

(** The table after the socket 0x5000 has been opened. *)
Definition one_open : list ipx_socket :=
  (OpenSocket_at (λ x, x) 0x5000 {| ax := 0; dx := 0x5000 |}
     open_sockets_zero).2.

Lemma one_open_wf : wf one_open.
Proof.
  apply (OpenSocket_at_spec (λ x, x) 0x5000 {| ax := 0; dx := 0x5000 |}
           open_sockets_zero wf_zero).
  lia.
Qed.

Lemma X26_witness :
  ∃ ip' tab',
    OpenSocket (λ x, x) (λ x, x) 1 {| ax := 0; dx := 0x5000 |} one_open
    = Some (ip', tab') ∧
    wf tab' ∧
    (opened 0x5000 one_open →
     ip' = {| ax := 0xff; dx := 0x5000 |} ∧ tab' = one_open) ∧
    (¬ opened 0x5000 one_open → ¬ opened 0 one_open →
     ip' = {| ax := 0xfe; dx := 0x5000 |} ∧ tab' = one_open) ∧
    (¬ opened 0x5000 one_open → opened 0 one_open →
     ip' = {| ax := 0; dx := 0x5000 |} ∧
     opened 0x5000 tab' ∧
     ∀ n, n ≠ 0 → n ≠ 0x5000 → opened n tab' ↔ opened n one_open).
Proof.
  apply (X26_OpenSocket (λ x, x) (λ x, x) 1 {| ax := 0; dx := 0x5000 |}
           one_open one_open_wf).
  simpl. lia.
Defined.

Lemma X27_witness :
  ∃ k ip' tab',
    0 ≤ k ≤ 8 ∧
    ¬ opened (0x4002 + k) one_open ∧
    (∀ j, 0 ≤ j < k → opened (0x4002 + j) one_open) ∧
    OpenSocket (λ x, x) (λ x, x) (S MAX_OPEN_SOCKETS) {| ax := 0; dx := 0 |}
      one_open = Some (ip', tab') ∧
    wf tab' ∧
    (¬ opened 0 one_open →
     ip' = {| ax := 0xfe; dx := 0 |} ∧ tab' = one_open) ∧
    (opened 0 one_open →
     ip' = {| ax := 0; dx := 0x4002 + k |} ∧
     opened (0x4002 + k) tab' ∧
     ∀ n, n ≠ 0 → n ≠ 0x4002 + k → opened n tab' ↔ opened n one_open).
Proof.
  apply (X27_OpenSocket_dynamic (λ x, x) (λ x, x) {| ax := 0; dx := 0 |}
           one_open one_open_wf).
  reflexivity.
Defined.

Lemma X28_witness :
  wf (CloseSocket 0x5000 one_open) ∧
  (∀ n, n ≠ 0 →
     opened n (CloseSocket 0x5000 one_open)
     ↔ opened n one_open ∧ n ≠ 0x5000) ∧
  (0x5000 = 0 ∨ ¬ opened 0x5000 one_open →
   CloseSocket 0x5000 one_open = one_open).
Proof.
  apply (X28_CloseSocket 0x5000 one_open one_open_wf). lia.
Defined.

End dali_spec.
